(** * Tree reaction algorithms: static layout and growth simulation

    A shallow embedding of [tree_layout_algorithm.py] (class
    [TreeLayoutAlgorithm]) and of [tree_reaction_simulation.py] (class
    [Branch], [grow_branch_instantly], [is_button_clicked] and the loop of
    [main]).

    Numbers.  Python floats are idealised as exact numbers: branch lengths,
    which only take part in sums, products and comparisons, are rationals
    ([Q], so every guard of the code evaluates); angles and plane coordinates,
    which go through [math.cos] and [math.sin], are reals ([R]).  Integers
    (node counts, depths) are [Z].

    Randomness.  The code draws from Python's process-wide generator.  The
    generator is an explicit state [Rng] threaded through every function that
    draws: a stream of unit draws for [random.random] and a stream of
    integers for [random.choice], read at a common cursor.

    Mutation.  Dictionaries, sets and branch objects that the code mutates in
    place are passed and returned explicitly.

    Drawing.  Of pygame only what can raise is kept: [pygame.draw.line],
    which refuses a colour with a component outside 0..255.  Surfaces,
    pixels, fonts and the clock are left out. *)

From Stdlib Require Import ZArith QArith Qreals Reals Psatz.
From stdpp Require Import base option list sorting gmap sets strings relations.

Set Warnings "-clear-no-such-hyp".

(** ** The random source *)

Module Rand.

Record Rng := mkRng {
  unit_at : nat → Q;      (* the n-th value of [random.random()], in [0,1) *)
  below_at : nat → nat;   (* the n-th raw integer behind [random.choice] *)
  cursor : nat
}.

Definition advance (r : Rng) : Rng :=
  mkRng (unit_at r) (below_at r) (S (cursor r)).

(* random.random() *)
Definition random (r : Rng) : Q * Rng := (unit_at r (cursor r), advance r).

(* random.uniform(a, b) is a + (b - a) * random() *)
Definition uniform (a b : Q) (r : Rng) : Q * Rng :=
  let (u, r') := random r in ((a + (b - a) * u)%Q, r').

(* the same on angles *)
Definition uniform_angle (a b : R) (r : Rng) : R * Rng :=
  let (u, r') := random r in ((a + (b - a) * Q2R u)%R, r').

(* random.choice(seq) is seq[randbelow(len(seq))], for a non-empty seq *)
Definition choice {A} (x : A) (xs : list A) (r : Rng) : A * Rng :=
  (nth (below_at r (cursor r) mod S (length xs)) (x :: xs) x, advance r).

(* every draw is in the unit interval, as [random.random] promises *)
Definition unit_draws (r : Rng) : Prop :=
  ∀ n, (0 <= unit_at r n)%Q ∧ (unit_at r n < 1)%Q.

End Rand.

(** ** Decidable comparisons of lengths *)

#[global] Instance Qlt_decision (x y : Q) : Decision (x < y)%Q :=
  match Qlt_le_dec x y with
  | left Hlt => left Hlt
  | right Hle => right (Qle_not_lt _ _ Hle)
  end.

#[global] Instance Qle_decision (x y : Q) : Decision (x <= y)%Q :=
  match Qlt_le_dec y x with
  | left Hlt => right (Qlt_not_le _ _ Hlt)
  | right Hle => left Hle
  end.

(** ** tree_layout_algorithm.py *)

Module Layout.

(* The upper end of a scaling band: an integer or float('inf'). *)
Inductive bound := Fin (z : Z) | Inf.

Definition le_bound (n : Z) (b : bound) : bool :=
  match b with Fin z => (n <=? z)%Z | Inf => true end.

Definition bound_eqb (a b : bound) : bool :=
  match a, b with
  | Fin x, Fin y => (x =? y)%Z
  | Inf, Inf => true
  | _, _ => false
  end.

Record scaling := mkScaling { base_length : Z; base_spacing : Z }.

(* self.scaling_configs, a dict, in insertion order *)
Definition scaling_configs : list ((Z * bound) * scaling) :=
  [ ((0%Z, Fin 10), mkScaling 100 60);
    ((11%Z, Fin 30), mkScaling 120 80);
    ((31%Z, Fin 60), mkScaling 150 100);
    ((61%Z, Inf), mkScaling 180 120) ].

(* self.scaling_configs[key]; None stands for KeyError *)
Fixpoint scaling_lookup (key : Z * bound)
    (cfgs : list ((Z * bound) * scaling)) : option scaling :=
  match cfgs with
  | [] => None
  | ((lo, hi), c) :: rest =>
      if ((lo =? fst key)%Z && bound_eqb hi (snd key))%bool then Some c
      else scaling_lookup key rest
  end.

(* the for loop of calculate_dynamic_parameters *)
Fixpoint first_band (node_count : Z)
    (cfgs : list ((Z * bound) * scaling)) : option scaling :=
  match cfgs with
  | [] => None
  | ((min_count, max_count), config) :: rest =>
      if ((min_count <=? node_count)%Z && le_bound node_count max_count)%bool
      then Some config
      else first_band node_count rest
  end.

Definition calculate_dynamic_parameters (node_count : Z) : option (Z * Z) :=
  match first_band node_count scaling_configs with
  | Some config => Some (base_length config, base_spacing config)
  | None =>
      (* Fallback to largest configuration *)
      match scaling_lookup (61%Z, Inf) scaling_configs with
      | Some config => Some (base_length config, base_spacing config)
      | None => None
      end
  end.

(* Python leaves the iteration order of a set open.  [list(a_set)] is
   modelled by [set_to_list], an enumeration of the elements of the set in
   an order that the model leaves as free as the language does. *)
Class SetOrder (K : Type) `{Countable K} := {
  set_to_list : gset K → list K;
  set_to_list_perm : ∀ X, set_to_list X ≡ₚ elements X
}.

(* The constructor arguments of TreeLayoutAlgorithm. *)
Record Config := mkConfig {
  branch_angle : R;
  branch_factor : Q;
  min_branch_length : Q;
  max_depth : Z
}.

(* math.radians *)
Definition radians (deg : R) : R := (deg * PI / 180)%R.

(* the default arguments of __init__ *)
Definition default_config : Config :=
  mkConfig (radians 35) 0.85 30 10000.

Section WithNodeIds.
Context {K : Type} `{Countable K} {order : SetOrder K}.

(* A link is a dict that may or may not have the keys 'from' and 'to'. *)
Record Link := mkLink { from : option K; to : option K }.

(* [nodes] is a dict of which only the keys are read: it is given by
   its keys in insertion order, the order of [nodes.keys()]. *)

Definition add_link (tree_structure : gmap K (list K)) (link : Link)
    : gmap K (list K) :=
  match from link, to link with
  | Some parent, Some child =>
      match tree_structure !! parent, tree_structure !! child with
      | Some siblings, Some _ =>
          <[parent := siblings ++ [child]]> tree_structure
      | _, _ => tree_structure
      end
  | _, _ => tree_structure
  end.

Definition build_tree_structure (root_node : K) (nodes : list K)
    (links : list Link) : gmap K (list K) :=
  let tree_structure :=
    foldl (λ ts node_id, <[node_id := []]> ts) ∅ nodes in
  foldl add_link tree_structure links.

Definition linked_to (links : list Link) : gset K :=
  foldl (λ s link, match to link with Some t => s ∪ {[t]} | None => s end)
        ∅ links.

(* None stands for the IndexError of list(nodes.keys())[0] *)
Definition find_root_nodes (nodes : list K) (links : list Link)
    : option (list K) :=
  let all_node_ids : gset K := list_to_set nodes in
  let root_nodes := set_to_list (all_node_ids ∖ linked_to links) in
  match root_nodes with
  | [] => first ← head nodes; Some [first]
  | _ => Some root_nodes
  end.

(* positioned_nodes, node_positions and the random generator: what a
   call of place_nodes_recursively reads and mutates *)
Record State := mkState {
  positioned_nodes : gset K;
  node_positions : gmap K (R * R);
  rng : Rand.Rng
}.

Section Placement.
Variable self : Config.

(* the angular offset of the i-th of num_branches children *)
Definition delta (num_branches i : nat) : R :=
  if Nat.eqb num_branches 1 then 0%R
  else
    let spread := (branch_angle self * 2)%R in
    (INR i / IZR (Z.of_nat num_branches - 1) * spread - spread / 2)%R.

(* the body of the for loop over enumerate(children), from index i on;
   [recurse] is the recursive call *)
Fixpoint place_children
    (recurse : K → R → R → R → Q → State → option State)
    (start_x start_y angle : R) (length : Q) (num_branches : nat)
    (i : nat) (children : list K) (st : State) : option State :=
  match children with
  | [] => Some st
  | child_id :: rest =>
      if decide (child_id ∈ positioned_nodes st) then
        place_children recurse start_x start_y angle length
                       num_branches (S i) rest st
      else
        let child_angle := (angle + delta num_branches i)%R in
        let end_x := (start_x + Q2R length * cos child_angle)%R in
        let end_y := (start_y + Q2R length * sin child_angle)%R in
        let '(factor, rng') :=
          Rand.uniform 0.8 (branch_factor self) (rng st) in
        let new_length := (length * factor)%Q in
        let st' :=
          mkState ({[child_id]} ∪ positioned_nodes st)
                  (<[child_id := (end_x, end_y)]> (node_positions st))
                  rng' in
        st'' ← recurse child_id end_x end_y child_angle new_length st';
        place_children recurse start_x start_y angle length
                       num_branches (S i) rest st''
  end.

(* [fuel] bounds the nesting of the recursion; None: fuel ran out *)
Fixpoint place_nodes_recursively (fuel : nat) (node_id : K)
    (tree_structure : gmap K (list K)) (start_x start_y angle : R)
    (length : Q) (depth : Z) (st : State) : option State :=
  match fuel with
  | O => None
  | S fuel' =>
      if decide ((max_depth self ≤ depth)%Z
                 ∨ (length < min_branch_length self)%Q) then Some st
      else
        let children := default [] (tree_structure !! node_id) in
        match children with
        | [] => Some st
        | _ =>
            let num_branches := List.length children in
            place_children
              (λ child_id end_x end_y child_angle new_length st',
                 place_nodes_recursively fuel' child_id tree_structure
                   end_x end_y child_angle new_length (depth + 1) st')
              start_x start_y angle length num_branches 0 children st
        end
  end.

(* the depth guard stops the recursion after max_depth - depth nested
   calls, which is the fuel a call is given *)
Definition fuel_for (depth : Z) : nat :=
  S (Z.to_nat (max_depth self - depth)).

Definition layout_tree (nodes : list K) (links : list Link)
    (root_x root_y : R) (rng0 : Rand.Rng) : option (gmap K (R * R)) :=
  match nodes with
  | [] => Some ∅
  | _ =>
      let total_nodes := Z.of_nat (List.length nodes) in
      '(base_length, base_spacing) ←
        calculate_dynamic_parameters total_nodes;
      root_nodes ← find_root_nodes nodes links;
      root_node ← head root_nodes;
      let tree_structure := build_tree_structure root_node nodes links in
      let st := mkState {[root_node]} {[root_node := (root_x, root_y)]}
                        rng0 in
      st' ← place_nodes_recursively (fuel_for 1) root_node tree_structure
              root_x root_y (- PI / 2)%R (inject_Z base_length) 1 st;
      Some (node_positions st')
  end.

(* the root layout_tree picks, and the structure it walks *)
Definition layout_root (nodes : list K) (links : list Link) : option K :=
  root_nodes ← find_root_nodes nodes links; head root_nodes.

End Placement.

(* b is a child of a in the constructed tree structure *)
Definition child_of (tree_structure : gmap K (list K)) (a b : K) : Prop :=
  b ∈ default [] (tree_structure !! a).

Definition reachable (tree_structure : gmap K (list K)) (root k : K) : Prop :=
  rtc (child_of tree_structure) root k.

End WithNodeIds.

Arguments Link K : clear implicits.
Arguments State K {_ _}.

End Layout.

(** ** tree_reaction_simulation.py *)

Module Sim.

(* Growth parameters *)
Definition GROWTH_SPEED : Q := 1.
Definition BRANCH_ANGLE : R := Layout.radians 35.
Definition BRANCH_FACTOR : Q := 0.85.
Definition MIN_BRANCH_LENGTH : Q := 18.
Definition MAX_DEPTH : Z := 14.

(* The fields of a Branch object.  A branch owns its children: the list
   holds the child objects themselves. *)
#[warnings="-register-all"]
Inductive Branch := mkBranch {
  start : R * R;
  angle : R;
  length : Q;             (* Current length (grows over time) *)
  target_length : Q;      (* Final target length *)
  depth : Z;
  finished : bool;        (* Has this branch finished growing? *)
  children : list Branch; (* Child branches *)
  static : bool           (* Is this branch fully grown and static? *)
}.

(* Branch.__init__ *)
Definition Branch_init (start : R * R) (angle : R) (length : Q) (depth : Z)
    : Branch :=
  mkBranch start angle 0 length depth false [] false.

Definition set_length (self : Branch) (l : Q) : Branch :=
  mkBranch (start self) (angle self) l (target_length self) (depth self)
           (finished self) (children self) (static self).

Definition set_finished (self : Branch) (f : bool) : Branch :=
  mkBranch (start self) (angle self) (length self) (target_length self)
           (depth self) f (children self) (static self).

Definition set_children (self : Branch) (cs : list Branch) : Branch :=
  mkBranch (start self) (angle self) (length self) (target_length self)
           (depth self) (finished self) cs (static self).

Definition set_static (self : Branch) (s : bool) : Branch :=
  mkBranch (start self) (angle self) (length self) (target_length self)
           (depth self) (finished self) (children self) s.

Definition get_end (self : Branch) : R * R :=
  let dx := (Q2R (length self) * cos (angle self))%R in
  let dy := (Q2R (length self) * sin (angle self))%R in
  ((fst (start self) + dx)%R, (snd (start self) + dy)%R).

(* the condition under which grow and grow_branch_instantly create children *)
Definition may_spawn (self : Branch) : bool :=
  negb (finished self)
  && bool_decide (depth self < MAX_DEPTH)%Z
  && bool_decide (MIN_BRANCH_LENGTH < target_length self)%Q.

(* the draws of one iteration of the child loop: the angle offset, then the
   length of the candidate child *)
Definition draw_child (self : Branch) (r : Rand.Rng) : R * Q * Rand.Rng :=
  let '(delta, r1) :=
    if (depth self =? 1)%Z then (0%R, r)
    else Rand.uniform_angle (- BRANCH_ANGLE) BRANCH_ANGLE r in
  let '(factor, r2) := Rand.uniform 0.8 BRANCH_FACTOR r1 in
  (delta, (target_length self * factor)%Q, r2).

(* for _ in range(num_branches), in grow: the children list grows by the
   candidates that are long enough *)
Fixpoint spawn_children (self : Branch) (end_ : R * R) (num_branches : nat)
    (kids : list Branch) (r : Rand.Rng) : list Branch * Rand.Rng :=
  match num_branches with
  | O => (kids, r)
  | S n =>
      let '(delta, new_length, r') := draw_child self r in
      if decide (MIN_BRANCH_LENGTH <= new_length)%Q then
        let child := Branch_init end_ (angle self + delta)%R new_length
                                 (depth self + 1) in
        spawn_children self end_ n (kids ++ [child]) r'
      else spawn_children self end_ n kids r'
  end.

Definition grow (self : Branch) (r : Rand.Rng) : Branch * Rand.Rng :=
  if decide (length self < target_length self)%Q then
    let l := (length self + GROWTH_SPEED)%Q in
    if decide (target_length self < l)%Q
    then (set_length self (target_length self), r)
    else (set_length self l, r)
  else
    let '(self, r) :=
      if may_spawn self then
        let self := set_finished self true in
        let end_ := get_end self in
        let '(num_branches, r) := Rand.choice 2%nat [3%nat] r in
        let '(kids, r) :=
          spawn_children self end_ num_branches (children self) r in
        (set_children self kids, r)
      else (self, r) in
    if finished self && forallb static (children self)
    then (set_static self true, r)
    else (self, r).

(* for child in self.children: child.update(grow_this_frame) *)
Fixpoint update_children (update : Branch → Rand.Rng → option (Branch * Rand.Rng))
    (cs : list Branch) (r : Rand.Rng) : option (list Branch * Rand.Rng) :=
  match cs with
  | [] => Some ([], r)
  | child :: rest =>
      '(child', r) ← update child r;
      '(rest', r) ← update_children update rest r;
      Some (child' :: rest', r)
  end.

(* Branch.update; the children it walks are those the branch has after
   grow, so the recursion is bounded by fuel.  None: fuel ran out *)
Fixpoint update_fuel (fuel : nat) (self : Branch) (grow_this_frame : bool)
    (r : Rand.Rng) : option (Branch * Rand.Rng) :=
  match fuel with
  | O => None
  | S fuel' =>
      if static self then Some (self, r)
      else
        let '(self, r) := if grow_this_frame then grow self r else (self, r) in
        '(kids, r) ←
          update_children (λ child r, update_fuel fuel' child grow_this_frame r)
                          (children self) r;
        Some (set_children self kids, r)
  end.

Fixpoint height (self : Branch) : nat :=
  match self with
  | mkBranch _ _ _ _ _ _ cs _ => S (foldr (λ c n, Nat.max (height c) n) O cs)
  end.

(* one call reaches one level below the leaves it starts from *)
Definition update (self : Branch) (grow_this_frame : bool) (r : Rand.Rng)
    : option (Branch * Rand.Rng) :=
  update_fuel (S (height self)) self grow_this_frame r.

(* the calls of update on one branch over successive frames *)
Fixpoint run_updates (frames : list bool) (self : Branch) (r : Rand.Rng)
    : option (Branch * Rand.Rng) :=
  match frames with
  | [] => Some (self, r)
  | grow_this_frame :: rest =>
      '(self, r) ← update self grow_this_frame r;
      run_updates rest self r
  end.

(* for _ in range(num_branches), in grow_branch_instantly: each child that
   is appended is grown at once; the object in the list is the grown one *)
Fixpoint instant_children
    (recurse : Branch → Rand.Rng → option (Branch * Rand.Rng))
    (branch : Branch) (end_ : R * R) (num_branches : nat)
    (kids : list Branch) (r : Rand.Rng) : option (list Branch * Rand.Rng) :=
  match num_branches with
  | O => Some (kids, r)
  | S n =>
      let '(delta, new_length, r') := draw_child branch r in
      if decide (MIN_BRANCH_LENGTH <= new_length)%Q then
        let child := Branch_init end_ (angle branch + delta)%R new_length
                                 (depth branch + 1) in
        '(child, r') ← recurse child r';
        instant_children recurse branch end_ n (kids ++ [child]) r'
      else instant_children recurse branch end_ n kids r'
  end.

Fixpoint grow_branch_instantly_fuel (fuel : nat) (branch : Branch)
    (r : Rand.Rng) : option (Branch * Rand.Rng) :=
  match fuel with
  | O => None
  | S fuel' =>
      let branch := set_length branch (target_length branch) in
      if may_spawn branch then
        let branch := set_finished branch true in
        let end_ := get_end branch in
        let '(num_branches, r) := Rand.choice 2%nat [3%nat] r in
        '(kids, r) ← instant_children (grow_branch_instantly_fuel fuel')
                       branch end_ num_branches (children branch) r;
        Some (set_children branch kids, r)
      else Some (branch, r)
  end.

(* children are created one level deeper, and none at MAX_DEPTH *)
Definition grow_branch_instantly (branch : Branch) (r : Rand.Rng)
    : option (Branch * Rand.Rng) :=
  grow_branch_instantly_fuel (S (Z.to_nat (MAX_DEPTH - depth branch))) branch r.

(** *** The rest of the Branch class *)

(* Branch.count_branch_ends; sum(...) adds the counts of the children *)
Fixpoint count_branch_ends (self : Branch) : nat :=
  match self with
  | mkBranch _ _ _ _ _ _ cs _ =>
      match cs with
      | [] => 1%nat  (* This is a leaf *)
      | _ => foldr (λ child n, (count_branch_ends child + n)%nat) 0%nat cs
      end
  end.

(* Branch.get_color; // is floor division *)
Definition get_color (self : Branch) (color_scheme : string) : Z * Z * Z :=
  let depth_factor := Z.min (depth self * 15) 200 in
  (
  if String.eqb color_scheme "green" then
    (0, 255 - depth_factor, 0)
  else if String.eqb color_scheme "autumn" then
    (255 - depth_factor, 100 + depth_factor / 2, 0)
  else if String.eqb color_scheme "winter" then
    (200 - depth_factor, 200 - depth_factor, 255 - depth_factor)
  else if String.eqb color_scheme "spring" then
    (255 - depth_factor, 100 + depth_factor / 2, 200 - depth_factor)
  else if String.eqb color_scheme "summer" then
    (255 - depth_factor, 255 - depth_factor / 2, 0)
  else if String.eqb color_scheme "fire" then
    (255, 100 + depth_factor / 2, 0)
  else if String.eqb color_scheme "ocean" then
    (0, 150 + depth_factor / 2, 255 - depth_factor)
  else if String.eqb color_scheme "sunset" then
    (255 - depth_factor, 50 + depth_factor / 2, 150 + depth_factor / 2)
  else if String.eqb color_scheme "forest" then
    (0, 150 - depth_factor / 2, 0)
  else if String.eqb color_scheme "desert" then
    (200 - depth_factor / 2, 150 - depth_factor / 3, 50)
  else if String.eqb color_scheme "arctic" then
    (180 - depth_factor, 200 - depth_factor, 255 - depth_factor / 2)
  else if String.eqb color_scheme "tropical" then
    (255 - depth_factor, 100 + depth_factor, 0)
  else if String.eqb color_scheme "mountain" then
    (150 - depth_factor, 150 - depth_factor, 160 - depth_factor)
  else if String.eqb color_scheme "sunrise" then
    (255 - depth_factor / 2, 200 - depth_factor / 2, 0)
  else if String.eqb color_scheme "midnight" then
    (50 + depth_factor / 2, 0, 100 + depth_factor / 2)
  else if String.eqb color_scheme "lavender" then
    (200 - depth_factor, 150 - depth_factor / 2, 255 - depth_factor)
  else if String.eqb color_scheme "coral" then
    (255 - depth_factor, 100 - depth_factor / 2, 100 - depth_factor / 2)
  else if String.eqb color_scheme "emerald" then
    (0, 200 - depth_factor / 2, 100 - depth_factor / 3)
  else if String.eqb color_scheme "amber" then
    (255 - depth_factor / 2, 200 - depth_factor / 2, 0)
  else if String.eqb color_scheme "crimson" then
    (200 - depth_factor / 2, 0, 0)
  else if String.eqb color_scheme "azure" then
    (0, 150 - depth_factor / 2, 255 - depth_factor)
  else if String.eqb color_scheme "violet" then
    (150 - depth_factor / 2, 0, 200 - depth_factor / 2)
  else if String.eqb color_scheme "copper" then
    (200 - depth_factor / 2, 100 - depth_factor / 3, 50)
  else if String.eqb color_scheme "silver" then
    (180 - depth_factor, 180 - depth_factor, 180 - depth_factor)
  else if String.eqb color_scheme "gold" then
    (255 - depth_factor / 2, 215 - depth_factor / 2, 0)
  else if String.eqb color_scheme "rose" then
    (255 - depth_factor, 100 - depth_factor / 2, 150 - depth_factor / 2)
  else if String.eqb color_scheme "teal" then
    (0, 150 - depth_factor / 2, 150 - depth_factor / 2)
  else if String.eqb color_scheme "maroon" then
    (150 - depth_factor / 2, 0, 0)
  else if String.eqb color_scheme "navy" then
    (0, 0, 150 - depth_factor / 2)
  else if String.eqb color_scheme "lime" then
    (150 - depth_factor / 2, 255 - depth_factor, 0)
  else if String.eqb color_scheme "magenta" then
    (255 - depth_factor, 0, 255 - depth_factor)
  else if String.eqb color_scheme "cyan" then
    (0, 255 - depth_factor, 255 - depth_factor)
  else (0, 255 - depth_factor, 0)
  )%Z.

(* pygame.draw.line(surface, color, start, end, thickness): pygame takes a
   colour whose components are integers from 0 to 255 and raises ValueError
   (invalid color argument) for any other; the pixels it sets are not
   modelled.  None stands for that ValueError. *)
Definition draw_line (color : Z * Z * Z) : option unit :=
  let '(r, g, b) := color in
  if ((0 <=? r) && (r <=? 255) && (0 <=? g) && (g <=? 255)
      && (0 <=? b) && (b <=? 255))%Z
  then Some tt else None.

(* Branch.draw: the line of the branch, then the children in order; a
   static branch is skipped with its subtree *)
Fixpoint draw (self : Branch) (color_scheme : string) : option unit :=
  match self with
  | mkBranch _ _ _ _ _ _ cs st =>
      if st then Some tt  (* Skip drawing if already drawn to static surface *)
      else
        _ ← draw_line (get_color self color_scheme);
        foldr (λ child rest, _ ← draw child color_scheme; rest) (Some tt) cs
  end.

(* Branch.draw_static: the same without the test of the static flag.  grow
   calls it with the default scheme green on a branch that becomes static;
   green is a valid colour from depth 0 on, and grow is modelled without
   that call. *)
Fixpoint draw_static (self : Branch) (color_scheme : string) : option unit :=
  match self with
  | mkBranch _ _ _ _ _ _ cs _ =>
      _ ← draw_line (get_color self color_scheme);
      foldr (λ child rest, _ ← draw_static child color_scheme; rest)
            (Some tt) cs
  end.

(** *** The module-level functions and the state of main *)

Definition WIDTH : Z := 800.
Definition HEIGHT : Z := 600.
Definition GROW_EVERY_N_FRAMES : Z := 5.
Definition MAX_BRANCH_ENDS : nat := 5000.

Definition BUTTON_RADIUS : Z := 15.
Definition BUTTON1_X : Z := WIDTH / 2 - 60.
Definition BUTTON2_X : Z := WIDTH / 2.
Definition BUTTON3_X : Z := WIDTH / 2 + 60.
Definition BUTTON_Y : Z := 30.

Definition COLOR_SCHEMES : list string :=
  ["green"; "autumn"; "winter"; "spring"; "summer"; "fire";
   "ocean"; "sunset"; "forest"; "desert"; "arctic"; "tropical";
   "mountain"; "sunrise"; "midnight"; "lavender"; "coral"; "emerald";
   "amber"; "crimson"; "azure"; "violet"; "copper"; "silver";
   "gold"; "rose"; "teal"; "maroon"; "navy"; "lime";
   "magenta"; "cyan"]%string.

(* is_button_clicked; the squares and their sum are integers; math.sqrt
   turns the sum into a float and the comparison is with that float.  The
   float is read as the exact real root: the two agree while the
   coordinates and the radius are below 2^25 in absolute value (the sum is
   then below 2^53 and held exactly, and the rounded root lies on the same
   side of the radius as the exact one), which covers every position a
   window gives.  Beyond that range rounding decides, and from about 2^512
   on math.sqrt raises OverflowError; this reading says nothing there. *)
Definition is_button_clicked (mouse_pos : Z * Z) (button_x button_y radius : Z)
    : bool :=
  let distance :=
    sqrt (IZR ((fst mouse_pos - button_x) ^ 2 + (snd mouse_pos - button_y) ^ 2))
  in
  if Rle_dec distance (IZR radius) then true else false.

(* instant_grow_all_branches: for branch in branches:
   grow_branch_instantly(branch) *)
Definition instant_grow_all_branches (branches : list Branch) (r : Rand.Rng)
    : option (list Branch * Rand.Rng) :=
  update_children grow_branch_instantly branches r.

(* The events that main tells apart. *)
Inductive Event :=
| QUIT
| KEYDOWN (key_is_space : bool)
| MOUSEBUTTONDOWN (mouse_pos : Z * Z)   (* with pygame.mouse.get_pos() *)
| OTHER.

(* The local variables of main, and the random generator.  The screen and
   the static surface, which main only writes, are left out. *)
Record Main := mkMain {
  running : bool;
  growing : bool;
  paused : bool;
  branches : list Branch;
  frame_count : Z;
  current_color_scheme : Z;
  instant_grow_mode : bool;
  fast_grow_mode : bool;
  generator : Rand.Rng
}.

(* the state at the entry of the while loop *)
Definition main_init (r : Rand.Rng) : Main :=
  mkMain true false false [] 0 0 false false r.

(* [Branch((WIDTH // 2, HEIGHT - 50), -math.pi / 2, 100, 1)] *)
Definition new_tree : list Branch :=
  [Branch_init (IZR (WIDTH / 2), IZR (HEIGHT - 50)) (- PI / 2)%R 100 1].

Definition next_color_scheme (c : Z) : Z :=
  ((c + 1) mod Z.of_nat (List.length COLOR_SCHEMES))%Z.

(* COLOR_SCHEMES[c]; None stands for IndexError.  A negative index counts
   from the end of the list. *)
Definition scheme_at (c : Z) : option string :=
  let n := Z.of_nat (List.length COLOR_SCHEMES) in
  if (c <? - n)%Z || (n <=? c)%Z then None
  else COLOR_SCHEMES !! Z.to_nat (if (c <? 0)%Z then c + n else c)%Z.

(* for branch in branches: f(branch), up to the first exception *)
Definition for_each (f : Branch → option unit) (branches : list Branch)
    : option unit :=
  foldr (λ branch rest, _ ← f branch; rest) (Some tt) branches.

(* the body of: for event in pygame.event.get().  None stands for an
   exception: the ValueError of a pygame.draw.line *)
Definition handle_event (m : Main) (event : Event) : option Main :=
  match event with
  | QUIT =>
      Some (mkMain false (growing m) (paused m) (branches m) (frame_count m)
              (current_color_scheme m) (instant_grow_mode m)
              (fast_grow_mode m) (generator m))
  | KEYDOWN true =>
      (* Spacebar updates color for button 3 trees *)
      if fast_grow_mode m && negb (bool_decide (branches m = [])) then
        let c := next_color_scheme (current_color_scheme m) in
        (* Redraw static surface with new color *)
        scheme ← scheme_at c;
        _ ← for_each (λ branch, draw_static branch scheme) (branches m);
        Some (mkMain (running m) (growing m) (paused m) (branches m)
                (frame_count m) c
                (instant_grow_mode m) (fast_grow_mode m) (generator m))
      else Some m
  | MOUSEBUTTONDOWN mouse_pos =>
      if is_button_clicked mouse_pos BUTTON1_X BUTTON_Y BUTTON_RADIUS then
        (* Always create a new tree and grow it instantly *)
        '(grown, r) ← instant_grow_all_branches new_tree (generator m);
        Some (mkMain (running m) true true grown 0 (current_color_scheme m)
                true false r)
      else if is_button_clicked mouse_pos BUTTON2_X BUTTON_Y BUTTON_RADIUS then
        Some (mkMain (running m) (growing m) (paused m) (branches m)
                (frame_count m) (next_color_scheme (current_color_scheme m))
                (instant_grow_mode m) (fast_grow_mode m) (generator m))
      else if is_button_clicked mouse_pos BUTTON3_X BUTTON_Y BUTTON_RADIUS then
        (* Create a new tree and grow it 2x faster *)
        Some (mkMain (running m) true false new_tree 0
                (current_color_scheme m) false true (generator m))
      else Some m
  | _ => Some m
  end.

Fixpoint handle_events (m : Main) (events : list Event) : option Main :=
  match events with
  | [] => Some m
  | event :: rest => m' ← handle_event m event; handle_events m' rest
  end.

(* Determine if we should grow this frame *)
Definition grow_this_frame (m : Main) : bool :=
  if fast_grow_mode m then (frame_count m mod 2 =? 0)%Z
  else (frame_count m mod GROW_EVERY_N_FRAMES =? 0)%Z.

(* current_scheme = COLOR_SCHEMES[current_color_scheme] *)
Definition current_scheme (m : Main) : option string :=
  scheme_at (current_color_scheme m).

(* the part of one pass of the while loop that follows the events.  None
   stands for an exception: the IndexError of the scheme lookup or the
   ValueError of a pygame.draw.line.  screen.fill, the blit of the static
   surface, draw_button with its three fixed colours, the texts and the
   clock draw nothing that depends on the state and are left out. *)
Definition advance_frame (m : Main) : option Main :=
  let grow := grow_this_frame m in
  scheme ← current_scheme m;
  m' ←
    (if growing m && negb (paused m) && negb (bool_decide (branches m = []))
     then
       (* Update and draw growing branches *)
       '(updated, r) ←
         update_children
           (λ branch r,
              '(branch', r') ← update branch grow r;
              _ ← draw branch' scheme;
              Some (branch', r'))
           (branches m) (generator m);
       let total_ends :=
         foldr (λ branch n, (count_branch_ends branch + n)%nat) 0%nat updated in
       (* Pause if we've reached the performance limit *)
       let paused' :=
         if bool_decide (MAX_BRANCH_ENDS ≤ total_ends)%nat then true
         else paused m in
       (* Check if tree is finished growing (all branches are static) *)
       let growing' :=
         if negb (bool_decide (updated = [])) && forallb static updated
         then false else growing m in
       Some (mkMain (running m) growing' paused' updated (frame_count m)
               (current_color_scheme m) (instant_grow_mode m)
               (fast_grow_mode m) r)
     else if paused m || instant_grow_mode m then
       (* Draw the finished tree *)
       _ ← for_each (λ branch, draw branch scheme) (branches m);
       Some m
     else Some m);
  Some (mkMain (running m') (growing m') (paused m') (branches m')
          (frame_count m' + 1) (current_color_scheme m')
          (instant_grow_mode m') (fast_grow_mode m') (generator m')).

(* one pass of the while loop, with the events pygame reports in it *)
Definition frame (m : Main) (events : list Event) : option Main :=
  m' ← handle_events m events; advance_frame m'.

(* the passes of the loop while running holds *)
Fixpoint run_frames (m : Main) (frames : list (list Event)) : option Main :=
  match frames with
  | [] => Some m
  | events :: rest =>
      if running m then m' ← frame m events; run_frames m' rest
      else Some m
  end.

End Sim.

(** * Vocabulary of the properties *)

(* q to the power n *)
Fixpoint qpow (q : Q) (n : nat) : Q :=
  match n with
  | O => 1
  | S n' => q * qpow q n'
  end.

Section LayoutVocabulary.
Context {K : Type} `{Countable K} {order : Layout.SetOrder K}.

(* The targets, in edge order and one per edge, of the links that leave
   [parent] and have both ends among [nodes]. *)
Definition link_targets (nodes : list K) (parent : K)
    (links : list (Layout.Link K)) : list K :=
  omap (λ link,
          match Layout.from link, Layout.to link with
          | Some a, Some c =>
              if decide (a = parent ∧ a ∈ nodes ∧ c ∈ nodes) then Some c
              else None
          | _, _ => None
          end) links.

(* The reading of "stores each child at most once". *)
Definition stores_each_child_once (tree_structure : gmap K (list K)) : Prop :=
  ∀ parent siblings, tree_structure !! parent = Some siblings → NoDup siblings.

(* The first node, in input order, that no link points to. *)
Definition first_without_incoming (nodes : list K)
    (links : list (Layout.Link K)) : option K :=
  head (filter (λ k, k ∉ Layout.linked_to links) nodes).

(* The reading of "when more than one node has no incoming edge, the first
   by input node order is used as the layout root". *)
Definition root_is_first_in_input_order (nodes : list K)
    (links : list (Layout.Link K)) : Prop :=
  ∀ a b, a ≠ b → a ∈ nodes → b ∈ nodes →
    a ∉ Layout.linked_to links → b ∉ Layout.linked_to links →
    Layout.layout_root nodes links = first_without_incoming nodes links.

(* Every positioned node is reachable from the root, and the keys of
   node_positions are the positioned nodes. *)
Definition sound_state (ts : gmap K (list K)) (root : K)
    (st : Layout.State K) : Prop :=
  (∀ k, k ∈ Layout.positioned_nodes st → Layout.reachable ts root k)
  ∧ dom (Layout.node_positions st) = Layout.positioned_nodes st.

(* What a state has placed stays where it is. *)
Definition extends (st st' : Layout.State K) : Prop :=
  ∀ k, k ∈ Layout.positioned_nodes st →
       k ∈ Layout.positioned_nodes st'
       ∧ Layout.node_positions st' !! k = Layout.node_positions st !! k.

(* what holds of the state and the arguments at every call, when no length
   factor is below q: the nodes positioned so far are at least as many as
   the depth, and the length is at least 100 * q ^ (depth - 1) *)
Definition ready (q : Q) (known : gset K) (depth : Z) (L : Q)
    (st : Layout.State K) : Prop :=
  (depth ≤ Z.of_nat (size (Layout.positioned_nodes st)))%Z
  ∧ Layout.positioned_nodes st ⊆ known
  ∧ (∃ e : nat, depth = (Z.of_nat e + 1)%Z ∧ (100 * qpow q e <= L)%Q)
  ∧ Rand.unit_draws (Layout.rng st).

(* st' extends st, and every node positioned in between has all its
   children positioned in st' *)
Definition closed_from (ts : gmap K (list K)) (known : gset K)
    (st st' : Layout.State K) : Prop :=
  Layout.positioned_nodes st ⊆ Layout.positioned_nodes st'
  ∧ Layout.positioned_nodes st' ⊆ known
  ∧ Rand.unit_draws (Layout.rng st')
  ∧ ∀ m, m ∈ Layout.positioned_nodes st' → m ∉ Layout.positioned_nodes st →
         ∀ c, c ∈ default [] (ts !! m) → c ∈ Layout.positioned_nodes st'.

(* The reading of "the key set is exactly the set of node ids reachable
   from the chosen root via the constructed tree structure". *)
Definition keys_are_the_reachable_nodes (self : Layout.Config)
    (nodes : list K)
    (links : list (Layout.Link K)) (root_x root_y : R) (rng0 : Rand.Rng)
    : Prop :=
  ∀ root m,
    Layout.layout_root nodes links = Some root →
    Layout.layout_tree self nodes links root_x root_y rng0 = Some m →
    ∀ k, k ∈ dom m ↔
         Layout.reachable (Layout.build_tree_structure root nodes links) root k.

End LayoutVocabulary.

(* An enumeration order for sets of strings; the one stdpp computes. *)
Definition elements_order : Layout.SetOrder string :=
  {| Layout.set_to_list := elements;
     Layout.set_to_list_perm := λ X, reflexivity (elements X) |}.

(* CPython keeps a set of fewer than five small non-negative integers in a
   table of eight slots, the integer n in slot n mod 8 when no two collide,
   and enumerates the table by slot: list({1, 8}) is [8, 1]. *)
Definition slot_le (a b : nat) : Prop := a mod 8 ≤ b mod 8.

#[local] Instance slot_le_dec (a b : nat) : Decision (slot_le a b).
Proof. unfold slot_le. apply _. Defined.

Definition cpython_slot_order : Layout.SetOrder nat :=
  {| Layout.set_to_list := λ X, merge_sort slot_le (elements X);
     Layout.set_to_list_perm := λ X, merge_sort_Permutation slot_le (elements X) |}.

(* A generator whose unit draws are all 1/2. *)
Definition half_rng : Rand.Rng := Rand.mkRng (λ _, 1 # 2) (λ _, 0%nat) 0.

(* A chain of ten nodes n0 -> n1 -> ... -> n9. *)
Definition chain_nodes : list string :=
  ["n0"; "n1"; "n2"; "n3"; "n4"; "n5"; "n6"; "n7"; "n8"; "n9"]%string.

Definition link (a b : string) : Layout.Link string :=
  Layout.mkLink (Some a) (Some b).

Definition chain_links : list (Layout.Link string) :=
  [link "n0" "n1"; link "n1" "n2"; link "n2" "n3"; link "n3" "n4";
   link "n4" "n5"; link "n5" "n6"; link "n6" "n7"; link "n7" "n8";
   link "n8" "n9"]%string.

(* A chain of three nodes a -> b -> c. *)
Definition short_nodes : list string := ["a"; "b"; "c"]%string.

Definition short_links : list (Layout.Link string) :=
  [link "a" "b"; link "b" "c"]%string.

(* The end point of the branch once it has its full length. *)
Definition fully_grown_end (b : Sim.Branch) : R * R :=
  ((fst (Sim.start b) + Q2R (Sim.target_length b) * cos (Sim.angle b))%R,
   (snd (Sim.start b) + Q2R (Sim.target_length b) * sin (Sim.angle b))%R).

(* The seed branch of the simulation: Branch((WIDTH // 2, HEIGHT - 50),
   -math.pi / 2, 100, 1). *)
Definition seed_branch : Sim.Branch :=
  Sim.Branch_init (400%R, 550%R) (- PI / 2)%R 100 1.

(* A short branch: its children would all be shorter than
   MIN_BRANCH_LENGTH, so it ends as a static leaf. *)
Definition twig : Sim.Branch :=
  Sim.Branch_init (400%R, 550%R) (- PI / 2)%R 20 1.

(* A branch at the minimum length, and the same once fully grown. *)
Definition leaf_branch : Sim.Branch :=
  Sim.Branch_init (400%R, 550%R) (- PI / 2)%R 18 1.

Definition grown_leaf : Sim.Branch := Sim.set_length leaf_branch 18.

(* A generator whose unit draws are all 0. *)
Definition zero_rng : Rand.Rng := Rand.mkRng (λ _, 0%Q) (λ _, 0%nat) 0.

(* A property of every branch of a subtree. *)
#[warnings="-register-all"]
Inductive all_branches (P : Sim.Branch → Prop) : Sim.Branch → Prop :=
| all_branches_intro b :
    P b → Forall (all_branches P) (Sim.children b) → all_branches P b.

(* A child as grow and grow_branch_instantly create it. *)
Definition spawned (c : Sim.Branch) : Prop :=
  ∃ s a l d, c = Sim.Branch_init s a l d ∧ (Sim.MIN_BRANCH_LENGTH <= l)%Q.

(* The length stays between 0 and the target. *)
Definition len_ok (b : Sim.Branch) : Prop :=
  (0 <= Sim.length b)%Q ∧ (Sim.length b <= Sim.target_length b)%Q.

(* A static branch is finished and all its children are static. *)
Definition static_ok (b : Sim.Branch) : Prop :=
  Sim.static b = true →
  Sim.finished b = true ∧ Forall (λ c, Sim.static c = true) (Sim.children b).

(* The branches a program can hold: created by the constructor, changed by
   grow, update and grow_branch_instantly, or read from a children list. *)
Inductive reachable_branch : Sim.Branch → Prop :=
| reach_init s a l d : reachable_branch (Sim.Branch_init s a l d)
| reach_grow b r : reachable_branch b → reachable_branch (fst (Sim.grow b r))
| reach_update b g r b' r' :
    reachable_branch b → Sim.update b g r = Some (b', r') →
    reachable_branch b'
| reach_instant b r b' r' :
    reachable_branch b → Sim.grow_branch_instantly b r = Some (b', r') →
    reachable_branch b'
| reach_child b c :
    reachable_branch b → c ∈ Sim.children b → reachable_branch c.

(* The invariant of update: a branch is well formed about static, and has
   a further property Q. *)
Definition good (Q : Sim.Branch → Prop) (b : Sim.Branch) : Prop :=
  static_ok b ∧ Q b.

(* the length has reached the target *)
Definition full_length (b : Sim.Branch) : Prop :=
  Sim.length b = Sim.target_length b.

(** ** Vocabulary of the further properties *)

(* the four fields that say where a branch lies never change *)
Definition same_geometry (b b' : Sim.Branch) : Prop :=
  Sim.start b' = Sim.start b ∧ Sim.angle b' = Sim.angle b
  ∧ Sim.target_length b' = Sim.target_length b ∧ Sim.depth b' = Sim.depth b.

(* b' is b after some growth: the same geometry, a length that is not
   smaller, flags that have not been cleared, and the children of b, grown
   in the same sense, at the front of the children of b' *)
#[warnings="-register-all"]
Inductive grown_from : Sim.Branch → Sim.Branch → Prop :=
| grown_from_intro b b' old new :
    same_geometry b b' →
    (Sim.length b <= Sim.length b')%Q →
    (Sim.finished b = true → Sim.finished b' = true) →
    (Sim.static b = true → Sim.static b' = true) →
    Sim.children b' = old ++ new →
    Forall2 grown_from (Sim.children b) old →
    grown_from b b'.

(* the sum of the branch ends of a list of branches *)
Definition sum_branch_ends (cs : list Sim.Branch) : nat :=
  foldr (λ child n, (Sim.count_branch_ends child + n)%nat) 0%nat cs.

(* a child as the parent b creates it: it starts at the end of the fully
   grown parent, one level deeper, not deeper than MAX_DEPTH, with a target
   of at least MIN_BRANCH_LENGTH, and in the direction of the parent when
   the parent is at depth 1 *)
Definition child_of_branch (b c : Sim.Branch) : Prop :=
  Sim.start c = fully_grown_end b
  ∧ Sim.depth c = (Sim.depth b + 1)%Z
  ∧ (Sim.depth c ≤ Sim.MAX_DEPTH)%Z
  ∧ (Sim.MIN_BRANCH_LENGTH <= Sim.target_length c)%Q
  ∧ (Sim.depth b = 1%Z → Sim.angle c = Sim.angle b).

(* the shape of a branch of a growing tree: children only once it is
   finished, at most three of them, each a proper child *)
Definition well_shaped (b : Sim.Branch) : Prop :=
  (Sim.finished b = false → Sim.children b = [])
  ∧ (List.length (Sim.children b) ≤ 3)%nat
  ∧ Forall (child_of_branch b) (Sim.children b).

(* the shape of a branch of an instantly grown tree *)
Definition instantly_grown (b : Sim.Branch) : Prop :=
  well_shaped b ∧ full_length b ∧ Sim.static b = false.

(* a colour that a display accepts: three components from 0 to 255 *)
Definition valid_rgb (c : Z * Z * Z) : Prop :=
  (0 ≤ c.1.1 ≤ 255)%Z ∧ (0 ≤ c.1.2 ≤ 255)%Z ∧ (0 ≤ c.2 ≤ 255)%Z.

(* the schemes whose formulas leave the range for deep branches *)
Definition out_of_range_schemes : list string :=
  ["arctic"; "tropical"; "mountain"; "silver"]%string.

(* the position lies in the disc of a button, in integers *)
Definition inside_button (mouse_pos : Z * Z) (button_x : Z) : Prop :=
  ((fst mouse_pos - button_x) ^ 2 + (snd mouse_pos - Sim.BUTTON_Y) ^ 2
   ≤ Sim.BUTTON_RADIUS ^ 2)%Z.

(* the states main can be in: at the entry of the loop, after an event,
   after the rest of a pass *)
Inductive main_reachable : Sim.Main → Prop :=
| main_reach_init r : main_reachable (Sim.main_init r)
| main_reach_event m event m' :
    main_reachable m → Sim.handle_event m event = Some m' →
    main_reachable m'
| main_reach_frame m m' :
    main_reachable m → Sim.advance_frame m = Some m' → main_reachable m'.

(* a tree of main: every branch is well shaped, with a length between 0
   and its target, and the root is at depth 1 *)
Definition main_tree (b : Sim.Branch) : Prop :=
  all_branches (λ c, well_shaped c ∧ len_ok c) b ∧ Sim.depth b = 1%Z.

(* what main keeps true of its variables *)
Definition main_invariant (m : Sim.Main) : Prop :=
  (0 ≤ Sim.current_color_scheme m
   < Z.of_nat (List.length Sim.COLOR_SCHEMES))%Z
  ∧ (0 ≤ Sim.frame_count m)%Z
  ∧ (List.length (Sim.branches m) ≤ 1)%nat
  ∧ (Sim.growing m = true → Sim.branches m ≠ [])
  ∧ (Sim.growing m = true → Sim.paused m = false →
     Sim.fast_grow_mode m = true)
  ∧ (Sim.instant_grow_mode m = true →
     Sim.paused m = true ∧ Sim.fast_grow_mode m = false)
  ∧ (Sim.growing m = true →
     (Sim.MAX_BRANCH_ENDS ≤ sum_branch_ends (Sim.branches m))%nat →
     Sim.paused m = true)
  ∧ Forall main_tree (Sim.branches m).

(* an event that leaves the tree alone: anything but a click inside
   button 1 or button 3 *)
Definition keeps_tree (event : Sim.Event) : Prop :=
  match event with
  | Sim.MOUSEBUTTONDOWN mouse_pos =>
      ¬ inside_button mouse_pos Sim.BUTTON1_X
      ∧ ¬ inside_button mouse_pos Sim.BUTTON3_X
  | _ => True
  end.

(* an event that can move the colour index: the space key, or a click
   inside button 2 *)
Definition changes_colour (event : Sim.Event) : Prop :=
  match event with
  | Sim.KEYDOWN true => True
  | Sim.MOUSEBUTTONDOWN mouse_pos => inside_button mouse_pos Sim.BUTTON2_X
  | _ => False
  end.

#[global] Instance changes_colour_dec (event : Sim.Event) :
  Decision (changes_colour event).
Proof.
  destruct event as [|[]|mouse_pos|]; cbn; try apply _.
  unfold inside_button. apply _.
Defined.

(* the number of such events in a sequence of passes *)
Definition colour_changes (frames : list (list Sim.Event)) : nat :=
  List.length (filter changes_colour (concat frames)).

(* the colour index names a scheme whose colours are valid at every
   non-negative depth *)
Definition safe_colour (c : Z) : Prop :=
  ∃ scheme, Sim.scheme_at c = Some scheme ∧ scheme ∉ out_of_range_schemes.

(* the arguments for which the float computation in is_button_clicked is
   exact: position, centre and radius below 2^25 in absolute value *)
Definition within_float_range (mouse_pos : Z * Z)
    (button_x button_y radius : Z) : Prop :=
  (Z.abs (fst mouse_pos) < 2 ^ 25 ∧ Z.abs (snd mouse_pos) < 2 ^ 25
   ∧ Z.abs button_x < 2 ^ 25 ∧ Z.abs button_y < 2 ^ 25
   ∧ Z.abs radius < 2 ^ 25)%Z.




(* main does not update the branches: it is paused, or not growing *)
Definition idle (m : Sim.Main) : Prop :=
  Sim.paused m = true ∨ Sim.growing m = false.

(* the offset the i-th of k child entries is to get: spread evenly over
   [-branch_angle, +branch_angle] for k > 1, zero for a single entry *)
Definition spread_offset (self : Layout.Config) (k i : nat) : R :=
  if decide (k = 1%nat) then 0%R
  else (INR i / (INR k - 1) * (2 * Layout.branch_angle self)
        - Layout.branch_angle self)%R.

(* the point at distance l from (x, y) in the direction t *)
Definition polar (x y : R) (l : Q) (t : R) : R * R :=
  ((x + Q2R l * cos t)%R, (y + Q2R l * sin t)%R).

Section MoreLayoutVocabulary.
Context {K : Type} `{Countable K}.

(* k is the root, or is reached from it by a path of at least one and
   fewer than [bound] links of the tree structure *)
Definition root_or_within (ts : gmap K (list K)) (root : K) (bound : Z)
    (k : K) : Prop :=
  k = root
  ∨ ∃ n : nat, (1 ≤ n)%nat ∧ (Z.of_nat n < bound)%Z
               ∧ nsteps (Layout.child_of ts) n root k.

(* a link that build_tree_structure uses: both keys present, both ends
   among the nodes *)
Definition usable_link (nodes : list K) (link : Layout.Link K) : Prop :=
  ∃ a c, Layout.from link = Some a ∧ Layout.to link = Some c
         ∧ a ∈ nodes ∧ c ∈ nodes.

#[global] Instance usable_link_dec (nodes : list K) (link : Layout.Link K) :
  Decision (usable_link nodes link).
Proof.
  unfold usable_link.
  destruct (Layout.from link) as [a|], (Layout.to link) as [c|];
    try (right; intros (a' & c' & ? & ? & _); congruence).
  destruct (decide (a ∈ nodes ∧ c ∈ nodes)) as [Hin|Hout].
  - left. exists a, c. tauto.
  - right. intros (a' & c' & ? & ? & ? & ?). simplify_eq. tauto.
Defined.

(* c is the entry at index i of the child list, and no earlier entry leads
   to c: the loop reaches c at index i before a recursive call could *)
Definition first_reached_at (ts : gmap K (list K)) (cs : list K) (i : nat)
    (c : K) : Prop :=
  cs !! i = Some c
  ∧ ∀ j c', (j < i)%nat → cs !! j = Some c' → ¬ Layout.reachable ts c' c.
(* in the layout m the node k lies at distance l from a node that links to
   it in the tree structure, its parent *)
Definition parent_distance (ts : gmap K (list K)) (m : gmap K (R * R))
    (k : K) (l : Q) : Prop :=
  ∃ p ppos pos,
    Layout.child_of ts p k ∧ m !! p = Some ppos ∧ m !! k = Some pos
    ∧ ((fst pos - fst ppos) ^ 2 + (snd pos - snd ppos) ^ 2 = Q2R l ^ 2)%R.
End MoreLayoutVocabulary.

(** * Properties *)

(** ** Scale selection *)

Lemma calculate_dynamic_parameters_eq (n : Z) :
  Layout.calculate_dynamic_parameters n =
    Some (if decide (0 ≤ n ≤ 10)%Z then (100, 60)%Z
          else if decide (11 ≤ n ≤ 30)%Z then (120, 80)%Z
          else if decide (31 ≤ n ≤ 60)%Z then (150, 100)%Z
          else (180, 120)%Z).
Proof.
  unfold Layout.calculate_dynamic_parameters, Layout.scaling_configs,
    Layout.first_band, Layout.le_bound.
  cbn [fst snd].
  repeat match goal with
         | |- context [Z.leb ?a ?b] => destruct (Z.leb_spec a b)
         end; cbn; repeat case_decide; (lia || reflexivity).
Qed.

(** C9: the bands of [calculate_dynamic_parameters] are matched in order,
    [0,10] to (100,60), [11,30] to (120,80), [31,60] to (150,100) and
    [61,oo) to (180,120); a value is always returned, and every negative
    count, like every count from 61 on, gets the top band's (180,120). *)
Theorem calculate_dynamic_parameters_bands :
  (∀ n : Z,
     Layout.calculate_dynamic_parameters n =
       Some (if decide (0 ≤ n ≤ 10)%Z then (100, 60)%Z
             else if decide (11 ≤ n ≤ 30)%Z then (120, 80)%Z
             else if decide (31 ≤ n ≤ 60)%Z then (150, 100)%Z
             else (180, 120)%Z))
  ∧ (∀ p : positive,
       Layout.calculate_dynamic_parameters (Z.neg p) = Some (180, 120)%Z)
  ∧ (∀ m : N,
       Layout.calculate_dynamic_parameters (61 + Z.of_N m) = Some (180, 120)%Z).
Proof.
  split; [exact calculate_dynamic_parameters_eq|].
  split; intros x; rewrite calculate_dynamic_parameters_eq;
    repeat case_decide; (lia || reflexivity).
Qed.

(** ** Tree building *)

Section TreeBuilding.
Context {K : Type} `{Countable K}.

Lemma init_structure_lookup (nodes : list K) (p : K) (ts : gmap K (list K)) :
  foldl (λ ts node_id, <[node_id := []]> ts) ts nodes !! p =
    if decide (p ∈ nodes) then Some [] else ts !! p.
Proof.
  revert ts. induction nodes as [|n nodes IH]; intros ts; cbn.
  - case_decide as Hin; [by apply elem_of_nil in Hin | done].
  - rewrite IH.
    destruct (decide (p ∈ nodes)) as [Hin|Hin].
    + rewrite decide_True; [done|]. by right.
    + destruct (decide (p = n)) as [->|Hne].
      * rewrite lookup_insert_eq, decide_True; [done|]. by left.
      * rewrite lookup_insert_ne by done.
        rewrite decide_False; [done|].
        intros [?|?]%elem_of_cons; tauto.
Qed.

Lemma add_link_lookup (nodes : list K) (p : K) (link : Layout.Link K)
    (ts : gmap K (list K)) :
  (∀ k, is_Some (ts !! k) ↔ k ∈ nodes) →
  Layout.add_link ts link !! p =
    (λ cs, cs ++ link_targets nodes p [link]) <$> ts !! p.
Proof.
  intros Hdom. unfold Layout.add_link, link_targets. cbn.
  destruct (Layout.from link) as [a|], (Layout.to link) as [c|]; cbn;
    try (destruct (ts !! p); cbn; by rewrite ?app_nil_r).
  destruct (ts !! a) as [sib|] eqn:Ha.
  - destruct (ts !! c) as [cs|] eqn:Hc.
    + assert (a ∈ nodes) by (apply Hdom; eauto).
      assert (c ∈ nodes) by (apply Hdom; eauto).
      destruct (decide (a = p)) as [->|Hne].
      * rewrite lookup_insert_eq, Ha. cbn. by rewrite decide_True.
      * rewrite lookup_insert_ne by done.
        rewrite decide_False by tauto.
        destruct (ts !! p); cbn; by rewrite ?app_nil_r.
    + assert (c ∉ nodes) by (intros Hin; apply Hdom in Hin as [? ?]; congruence).
      rewrite decide_False by tauto.
      destruct (ts !! p); cbn; by rewrite ?app_nil_r.
  - assert (a ∉ nodes) by (intros Hin; apply Hdom in Hin as [? ?]; congruence).
    rewrite decide_False by tauto.
    destruct (ts !! p); cbn; by rewrite ?app_nil_r.
Qed.

Lemma add_link_dom (link : Layout.Link K) (ts : gmap K (list K)) (k : K) :
  is_Some (Layout.add_link ts link !! k) ↔ is_Some (ts !! k).
Proof.
  unfold Layout.add_link.
  destruct (Layout.from link) as [a|], (Layout.to link) as [c|]; try done.
  destruct (ts !! a) as [sib|] eqn:Ha; [|done].
  destruct (ts !! c) as [cs|] eqn:Hc; [|done].
  destruct (decide (a = k)) as [->|Hne].
  - rewrite lookup_insert_eq, Ha. split; eauto.
  - by rewrite lookup_insert_ne.
Qed.

Lemma link_targets_cons (nodes : list K) (p : K) (link : Layout.Link K)
    (links : list (Layout.Link K)) :
  link_targets nodes p (link :: links) =
    link_targets nodes p [link] ++ link_targets nodes p links.
Proof.
  unfold link_targets. cbn.
  destruct (Layout.from link), (Layout.to link); try done.
  by case_decide.
Qed.

Lemma add_links_lookup (nodes : list K) (p : K) (links : list (Layout.Link K)) :
  ∀ ts : gmap K (list K),
    (∀ k, is_Some (ts !! k) ↔ k ∈ nodes) →
    foldl Layout.add_link ts links !! p =
      (λ cs, cs ++ link_targets nodes p links) <$> ts !! p.
Proof.
  induction links as [|link links IH]; intros ts Hdom; cbn [foldl].
  - destruct (ts !! p); cbn; by rewrite ?app_nil_r.
  - rewrite IH.
    + rewrite (add_link_lookup nodes) by done.
      rewrite (link_targets_cons _ _ link links).
      destruct (ts !! p); cbn; [|done]. by rewrite <- app_assoc.
    + intros k. by rewrite add_link_dom.
Qed.

Lemma build_tree_structure_lookup (root_node : K) (nodes : list K)
    (links : list (Layout.Link K)) (parent : K) :
  Layout.build_tree_structure root_node nodes links !! parent =
    if decide (parent ∈ nodes) then Some (link_targets nodes parent links)
    else None.
Proof.
  unfold Layout.build_tree_structure.
  rewrite (add_links_lookup nodes).
  - rewrite init_structure_lookup. by case_decide.
  - intros k. rewrite init_structure_lookup.
    case_decide; [split; eauto|]. rewrite lookup_empty.
    split; [by intros [? ?]|done].
Qed.

Lemma link_targets_known (nodes : list K) (parent : K)
    (links : list (Layout.Link K)) (c : K) :
  c ∈ link_targets nodes parent links → c ∈ nodes.
Proof.
  unfold link_targets. intros (link & _ & Hlink)%list_elem_of_omap.
  destruct (Layout.from link), (Layout.to link); try done.
  case_decide as Hk; [|done]. simplify_eq. tauto.
Qed.

(** C4 (as the code has it): [build_tree_structure] gives every node of the
    input its child sequence, made of one entry per link between known
    nodes, in link order; a (parent, child) pair that the link list has
    several times is stored as many times. *)
Theorem build_tree_structure_children (root_node : K) (nodes : list K)
    (links : list (Layout.Link K)) (parent : K) :
  Layout.build_tree_structure root_node nodes links !! parent =
    if decide (parent ∈ nodes) then Some (link_targets nodes parent links)
    else None.
Proof. apply build_tree_structure_lookup. Qed.

End TreeBuilding.

(** C4, the claim as stated fails: with the link from "a" to "b" given twice,
    "b" is stored twice under "a". *)
Lemma build_tree_structure_keeps_duplicates :
  ¬ stores_each_child_once
      (Layout.build_tree_structure "a"%string ["a"; "b"]%string
         [Layout.mkLink (Some "a"%string) (Some "b"%string);
          Layout.mkLink (Some "a"%string) (Some "b"%string)]).
Proof.
  intros Honce.
  specialize (Honce "a"%string ["b"; "b"]%string).
  rewrite build_tree_structure_lookup in Honce.
  specialize (Honce eq_refl).
  apply NoDup_cons in Honce as [Hnotin _].
  apply Hnotin. by left.
Qed.

(** ** Root selection *)

Section RootSelection.
Context {K : Type} `{Countable K} {order : Layout.SetOrder K}.

Lemma set_to_list_elem (X : gset K) (k : K) :
  k ∈ Layout.set_to_list X ↔ k ∈ X.
Proof. by rewrite Layout.set_to_list_perm, elem_of_elements. Qed.

Lemma set_to_list_nil (X : gset K) :
  Layout.set_to_list X = [] → ∀ k, k ∉ X.
Proof.
  intros Hnil k Hk. apply set_to_list_elem in Hk.
  rewrite Hnil in Hk. by apply elem_of_nil in Hk.
Qed.

Lemma layout_root_spec (nodes : list K) (links : list (Layout.Link K)) :
  nodes ≠ [] →
  ∃ root,
    Layout.layout_root nodes links = Some root
    ∧ root ∈ nodes
    ∧ ((∃ k, k ∈ nodes ∧ k ∉ Layout.linked_to links) →
         (root ∉ Layout.linked_to links)
         ∧ head (Layout.set_to_list
                   (list_to_set nodes ∖ Layout.linked_to links)) = Some root)
    ∧ ((∀ k, k ∈ nodes → k ∈ Layout.linked_to links) →
         head nodes = Some root).
Proof.
  intros Hne. unfold Layout.layout_root, Layout.find_root_nodes.
  destruct (Layout.set_to_list (list_to_set nodes ∖ Layout.linked_to links))
    as [|r rest] eqn:Hroots.
  - pose proof (set_to_list_nil _ Hroots) as Hnone.
    destruct nodes as [|first nodes']; [done|]. cbn.
    exists first. split; [done|]. split; [by left|]. split; [|done].
    intros (k & Hk & Hfree). exfalso. apply (Hnone k). set_solver.
  - cbn. exists r.
    assert (Hr : r ∈ (list_to_set nodes ∖ Layout.linked_to links : gset K)).
    { apply set_to_list_elem. rewrite Hroots. by left. }
    apply elem_of_difference in Hr as [Hin Hfree].
    apply elem_of_list_to_set in Hin.
    split; [done|]. split; [done|]. split; [done|].
    intros Hall. exfalso. by apply Hfree, Hall.
Qed.

(** C5 (as the code has it): for a non-empty node collection the layout root
    is a node of the input; it has no incoming link whenever some node has
    none, and is then the first member of the root set in the order in which
    the set is enumerated; when every node has an incoming link it is the
    first-inserted node. *)
Theorem layout_root_choice (nodes : list K) (links : list (Layout.Link K)) :
  nodes ≠ [] →
  ∃ root,
    Layout.layout_root nodes links = Some root
    ∧ root ∈ nodes
    ∧ ((∃ k, k ∈ nodes ∧ k ∉ Layout.linked_to links) →
         (root ∉ Layout.linked_to links)
         ∧ head (Layout.set_to_list
                   (list_to_set nodes ∖ Layout.linked_to links)) = Some root)
    ∧ ((∀ k, k ∈ nodes → k ∈ Layout.linked_to links) →
         head nodes = Some root).
Proof. apply layout_root_spec. Qed.

End RootSelection.

(** C5, the claim as stated fails: the nodes 1 and 8, inserted in this order
    and without links, are both roots; the root set is enumerated as
    [8; 1], and the layout root is 8, not the first-inserted 1. *)
Lemma layout_root_not_first_in_input_order :
  ¬ root_is_first_in_input_order (order := cpython_slot_order)
      [1; 8]%nat [].
Proof.
  intros Hfirst.
  specialize (Hfirst 1%nat 8%nat).
  assert (Layout.layout_root (order := cpython_slot_order) [1; 8]%nat []
          = Some 8%nat) as Hroot by (vm_compute; reflexivity).
  assert (first_without_incoming [1; 8]%nat [] = Some 1%nat) as Hin
    by (vm_compute; reflexivity).
  rewrite Hroot, Hin in Hfirst.
  assert (Some 8%nat = Some 1%nat) as Heq; [|discriminate Heq].
  apply Hfirst.
  - lia.
  - by left.
  - by right; left.
  - unfold Layout.linked_to; cbn. apply not_elem_of_empty.
  - unfold Layout.linked_to; cbn. apply not_elem_of_empty.
Qed.

Lemma layout_root_choice_witness :
  (∃ root,
     Layout.layout_root (order := elements_order) ["a"; "b"]%string
       [link "a" "b"] = Some root
     ∧ root ∈ ["a"; "b"]%string
     ∧ root ∉ Layout.linked_to [link "a" "b"])
  ∧ (∃ root,
       Layout.layout_root (order := elements_order) ["a"; "b"]%string
         [link "a" "b"; link "b" "a"] = Some root
       ∧ head ["a"; "b"]%string = Some root).
Proof.
  split.
  - destruct (layout_root_choice (order := elements_order) ["a"; "b"]%string
                [link "a" "b"])
      as (root & Hroot & Hin & Hfree & _); [discriminate|].
    exists root. split; [exact Hroot|]. split; [exact Hin|].
    apply Hfree. exists "a"%string. split; [by left|].
    intros Hlinked. apply (bool_decide_eq_true_2 _) in Hlinked.
    vm_compute in Hlinked. discriminate Hlinked.
  - destruct (layout_root_choice (order := elements_order) ["a"; "b"]%string
                [link "a" "b"; link "b" "a"])
      as (root & Hroot & _ & _ & Hall); [discriminate|].
    exists root. split; [exact Hroot|].
    apply Hall. intros k Hk.
    apply elem_of_cons in Hk as [->|Hk];
      [apply (bool_decide_unpack _); vm_compute; exact I|].
    apply elem_of_cons in Hk as [->|Hk];
      [apply (bool_decide_unpack _); vm_compute; exact I|].
    by apply elem_of_nil in Hk.
Defined.

(** ** Recursive placement *)

Section PlacementFacts.
Context {K : Type} `{Countable K}.
Variable self : Layout.Config.

Abbreviation recursion :=
  (K → R → R → R → Q → Layout.State K → option (Layout.State K)).

Lemma place_nodes_recursively_S fuel node (ts : gmap K (list K))
    x y a L depth st :
  Layout.place_nodes_recursively self (S fuel) node ts x y a L depth st =
    if decide ((Layout.max_depth self ≤ depth)%Z
               ∨ (L < Layout.min_branch_length self)%Q) then Some st
    else
      let children := default [] (ts !! node) in
      match children with
      | [] => Some st
      | _ :: _ =>
          Layout.place_children self
            (λ child_id end_x end_y child_angle new_length st',
               Layout.place_nodes_recursively self fuel child_id ts
                 end_x end_y child_angle new_length (depth + 1) st')
            x y a L (List.length children) 0 children st
      end.
Proof. reflexivity. Qed.

Lemma place_children_cons (recurse : recursion) x y a L k i c cs st :
  Layout.place_children self recurse x y a L k i (c :: cs) st =
    if decide (c ∈ Layout.positioned_nodes st) then
      Layout.place_children self recurse x y a L k (S i) cs st
    else
      let child_angle := (a + Layout.delta self k i)%R in
      let end_x := (x + Q2R L * cos child_angle)%R in
      let end_y := (y + Q2R L * sin child_angle)%R in
      let factor := fst (Rand.uniform 0.8 (Layout.branch_factor self)
                                      (Layout.rng st)) in
      let rng' := snd (Rand.uniform 0.8 (Layout.branch_factor self)
                                    (Layout.rng st)) in
      st'' ← recurse c end_x end_y child_angle (L * factor)%Q
                (Layout.mkState ({[c]} ∪ Layout.positioned_nodes st)
                   (<[c := (end_x, end_y)]> (Layout.node_positions st)) rng');
      Layout.place_children self recurse x y a L k (S i) cs st''.
Proof. reflexivity. Qed.

(** The recursion is total: the depth guard bounds its nesting. *)

Lemma place_children_total (recurse : recursion) x y a L k :
  (∀ c x y a l st, is_Some (recurse c x y a l st)) →
  ∀ cs i st, is_Some (Layout.place_children self recurse x y a L k i cs st).
Proof.
  intros Hrec cs. induction cs as [|c cs IH]; intros i st.
  - cbn. eauto.
  - rewrite place_children_cons. case_decide; [apply IH|].
    cbv zeta.
    match goal with
    | |- is_Some (mbind _ (recurse ?c ?x ?y ?a ?l ?st)) =>
        destruct (Hrec c x y a l st) as [st'' ->]
    end.
    cbn. apply IH.
Qed.

Lemma place_nodes_recursively_total fuel :
  ∀ depth node (ts : gmap K (list K)) x y a L st,
    (Z.to_nat (Layout.max_depth self - depth) < fuel)%nat →
    is_Some (Layout.place_nodes_recursively self fuel node ts x y a L depth st).
Proof.
  induction fuel as [|fuel IH]; intros depth node ts x y a L st Hfuel; [lia|].
  rewrite place_nodes_recursively_S.
  case_decide as Hguard; [eauto|].
  cbv zeta. destruct (default [] (ts !! node)) as [|c cs]; [eauto|].
  apply place_children_total. intros. apply IH. lia.
Qed.

(** A state invariant that every placement keeps is kept by the recursion. *)

Section Invariant.
Variable ts : gmap K (list K).
Variable Inv : Layout.State K → Prop.
Variable ok : K → Prop.

Hypothesis Inv_place : ∀ st c pos,
  Inv st → c ∉ Layout.positioned_nodes st → ok c →
  Inv (Layout.mkState ({[c]} ∪ Layout.positioned_nodes st)
         (<[c := pos]> (Layout.node_positions st))
         (snd (Rand.uniform 0.8 (Layout.branch_factor self) (Layout.rng st)))).

Hypothesis ok_child : ∀ n c, ok n → c ∈ default [] (ts !! n) → ok c.

Lemma place_children_invariant (recurse : recursion) x y a L k :
  (∀ c x y a l st st', ok c → Inv st → recurse c x y a l st = Some st' → Inv st') →
  ∀ cs i st st',
    Forall ok cs → Inv st →
    Layout.place_children self recurse x y a L k i cs st = Some st' → Inv st'.
Proof.
  intros Hrec cs. induction cs as [|c cs IH]; intros i st st' Hok Hinv Hrun.
  - cbn in Hrun. by simplify_eq.
  - apply Forall_cons in Hok as [Hc Hcs].
    rewrite place_children_cons in Hrun. case_decide as Hpos; [by eapply IH|].
    cbv zeta in Hrun.
    apply bind_Some in Hrun as (st1 & Hst1 & Hrest).
    eapply IH; [done| |exact Hrest].
    eapply Hrec; [done| |exact Hst1]. by apply Inv_place.
Qed.

Lemma place_nodes_recursively_invariant fuel :
  ∀ depth node x y a L st st',
    ok node → Inv st →
    Layout.place_nodes_recursively self fuel node ts x y a L depth st = Some st' →
    Inv st'.
Proof.
  induction fuel as [|fuel IH]; intros depth node x y a L st st' Hok Hinv Hrun;
    [done|].
  rewrite place_nodes_recursively_S in Hrun.
  case_decide as Hguard; [by simplify_eq|].
  cbv zeta in Hrun.
  destruct (default [] (ts !! node)) as [|c cs] eqn:Hcs; [by simplify_eq|].
  eapply place_children_invariant; [|  |exact Hinv|exact Hrun].
  - intros c0 x0 y0 a0 l0 st0 st0' Hc Hi Hr. cbv beta in Hr.
    exact (IH _ _ _ _ _ _ _ _ Hc Hi Hr).
  - apply Forall_forall. intros c' Hc'. apply (ok_child node); [done|].
    by rewrite Hcs.
Qed.

End Invariant.

Lemma place_nodes_recursively_sound fuel (ts : gmap K (list K)) root
    depth node x y a L st st' :
  Layout.reachable ts root node → sound_state ts root st →
  Layout.place_nodes_recursively self fuel node ts x y a L depth st = Some st' →
  sound_state ts root st'.
Proof.
  apply (place_nodes_recursively_invariant ts (sound_state ts root)
           (Layout.reachable ts root)).
  - intros st1 c pos [Hreach Hdom] Hfresh Hc. split; cbn.
    + intros k [->%elem_of_singleton|Hk]%elem_of_union; [done|by apply Hreach].
    + by rewrite dom_insert_L, Hdom.
  - intros n c Hn Hc. eapply rtc_r; [exact Hn|exact Hc].
Qed.

Lemma extends_place (st st1 : Layout.State K) c pos rng' :
  extends st st1 → c ∉ Layout.positioned_nodes st1 →
  extends st (Layout.mkState ({[c]} ∪ Layout.positioned_nodes st1)
                (<[c := pos]> (Layout.node_positions st1)) rng').
Proof.
  intros Hext Hfresh k Hk. destruct (Hext k Hk) as [Hin Heq]. cbn. split.
  - apply elem_of_union. by right.
  - rewrite lookup_insert_ne; [done|]. by intros ->.
Qed.

Lemma place_nodes_recursively_extends fuel (ts : gmap K (list K))
    depth node x y a L st0 st st' :
  extends st0 st →
  Layout.place_nodes_recursively self fuel node ts x y a L depth st = Some st' →
  extends st0 st'.
Proof.
  intros Hext.
  apply (place_nodes_recursively_invariant ts (extends st0) (λ _, True));
    [|done|done|done].
  intros st1 c pos Hext1 Hfresh _. by apply extends_place.
Qed.

Lemma place_children_extends fuel (ts : gmap K (list K)) depth x y a L k i
    cs st0 st st' :
  extends st0 st →
  Layout.place_children self
    (λ child_id end_x end_y child_angle new_length st',
       Layout.place_nodes_recursively self fuel child_id ts
         end_x end_y child_angle new_length depth st')
    x y a L k i cs st = Some st' →
  extends st0 st'.
Proof.
  intros Hext.
  apply (place_children_invariant (extends st0) (λ _, True)); [| |by apply Forall_true|done].
  - intros st1 c pos Hext1 Hfresh _. by apply extends_place.
  - intros c x0 y0 a0 l0 st1 st1' _ Hext1 Hrun. cbv beta in Hrun.
    by eapply place_nodes_recursively_extends.
Qed.

Lemma extends_refl (st : Layout.State K) : extends st st.
Proof. by intros k Hk. Qed.

End PlacementFacts.

(** ** Angular distribution of the children *)

Section ChildAngles.
Context {K : Type} `{Countable K}.
Variable self : Layout.Config.

Abbreviation recursion :=
  (K → R → R → R → Q → Layout.State K → option (Layout.State K)).

Lemma place_children_position fuel (ts : gmap K (list K)) depth x y a L k i
    c rest st st' :
  c ∉ Layout.positioned_nodes st →
  Layout.place_children self
    (λ child_id end_x end_y child_angle new_length st',
       Layout.place_nodes_recursively self fuel child_id ts
         end_x end_y child_angle new_length depth st')
    x y a L k i (c :: rest) st = Some st' →
  Layout.node_positions st' !! c =
    Some ((x + Q2R L * cos (a + Layout.delta self k i))%R,
          (y + Q2R L * sin (a + Layout.delta self k i))%R).
Proof.
  intros Hfresh Hrun. rewrite place_children_cons in Hrun.
  rewrite decide_False in Hrun by done. cbv zeta in Hrun.
  apply bind_Some in Hrun as (st1 & Hrec & Hrest).
  eapply place_nodes_recursively_extends in Hrec as Hext1;
    [|apply extends_refl].
  eapply place_children_extends in Hrest as Hext; [|exact Hext1].
  destruct (Hext c) as [_ Heq].
  - cbn [Layout.positioned_nodes]. apply elem_of_union. left.
    by apply elem_of_singleton.
  - rewrite Heq. cbn [Layout.node_positions]. apply lookup_insert_eq.
Qed.

Lemma delta_spread_offset (k i : nat) :
  Layout.delta self k i = spread_offset self k i.
Proof.
  unfold Layout.delta, spread_offset.
  destruct (Nat.eqb_spec k 1) as [->|Hk].
  - by rewrite decide_True.
  - rewrite decide_False by done. cbv zeta.
    rewrite minus_IZR, <- INR_IZR_INZ.
    set (t := (INR i / (INR k - 1))%R). lra.
Qed.

Lemma place_children_app (recurse : recursion) x y a L k pre :
  ∀ i rest st,
    Layout.place_children self recurse x y a L k i (pre ++ rest) st =
      st1 ← Layout.place_children self recurse x y a L k i pre st;
      Layout.place_children self recurse x y a L k (i + List.length pre)
        rest st1.
Proof.
  induction pre as [|c pre IH]; intros i rest st.
  - cbn. by rewrite Nat.add_0_r.
  - rewrite <- app_comm_cons, !place_children_cons.
    cbn [List.length]. replace (i + S (List.length pre))%nat
      with (S i + List.length pre)%nat by lia.
    case_decide; [apply IH|]. cbv zeta.
    destruct (recurse c _ _ _ _ _) as [st1|]; [|done].
    cbn [mbind option_bind]. apply IH.
Qed.

(* the recursive calls for the entries before index i leave c alone *)
Lemma place_children_leaves (ts : gmap K (list K)) fuel depth x y a L k
    (c : K) pre :
  (∀ c', c' ∈ pre → ¬ Layout.reachable ts c' c) →
  ∀ i st st1,
    c ∉ Layout.positioned_nodes st →
    Layout.place_children self
      (λ child_id end_x end_y child_angle new_length st',
         Layout.place_nodes_recursively self fuel child_id ts
           end_x end_y child_angle new_length depth st')
      x y a L k i pre st = Some st1 →
    c ∉ Layout.positioned_nodes st1.
Proof.
  intros Hpre i st st1 Hfresh Hrun.
  set (ok := λ n : K, ∃ c', c' ∈ pre ∧ Layout.reachable ts c' n).
  assert (Hplace : ∀ (st : Layout.State K) c0 (pos : R * R),
            c ∉ Layout.positioned_nodes st →
            c0 ∉ Layout.positioned_nodes st → ok c0 →
            c ∉ Layout.positioned_nodes
                  (Layout.mkState ({[c0]} ∪ Layout.positioned_nodes st)
                     (<[c0 := pos]> (Layout.node_positions st))
                     (snd (Rand.uniform 0.8 (Layout.branch_factor self)
                             (Layout.rng st))))).
  { intros st0 c0 pos Hc _ (c' & Hc' & Hreach). cbn.
    intros [->%elem_of_singleton|?]%elem_of_union; [|done].
    by apply (Hpre c'). }
  revert Hrun.
  apply (place_children_invariant self
           (λ st, c ∉ Layout.positioned_nodes st) ok Hplace); [| |done].
  - intros c0 x0 y0 a0 l0 st0 st0' Hc0 Hi Hr. cbv beta in Hr. revert Hr.
    apply (place_nodes_recursively_invariant self ts
             (λ st, c ∉ Layout.positioned_nodes st) ok Hplace); [|done|done].
    intros n c1 (c' & Hc' & Hreach) Hc1. exists c'. split; [done|].
    eapply rtc_r; [exact Hreach|exact Hc1].
  - apply Forall_forall. intros c' Hc'. exists c'. split; [done|].
    apply rtc_refl.
Qed.

(* where a call of place_nodes_recursively puts the child it reaches first
   at index i *)
Lemma place_nodes_recursively_child (node : K) (ts : gmap K (list K))
    (x y a : R) (L : Q) (depth : Z) (st : Layout.State K) (cs : list K)
    (i : nat) (c : K) :
  (depth < Layout.max_depth self)%Z →
  (Layout.min_branch_length self <= L)%Q →
  ts !! node = Some cs → first_reached_at ts cs i c →
  c ∉ Layout.positioned_nodes st →
  ∃ st',
    Layout.place_nodes_recursively self (Layout.fuel_for self depth) node ts
      x y a L depth st = Some st'
    ∧ Layout.node_positions st' !! c
      = Some (polar x y L (a + spread_offset self (List.length cs) i)).
Proof.
  intros Hdepth Hlen Hts [Hi Hfirst] Hfresh.
  destruct (place_nodes_recursively_total self (Layout.fuel_for self depth)
              depth node ts x y a L st) as [st' Hrun].
  { unfold Layout.fuel_for. lia. }
  exists st'. split; [exact Hrun|].
  unfold Layout.fuel_for in Hrun. rewrite place_nodes_recursively_S in Hrun.
  rewrite decide_False in Hrun.
  2:{ intros [?|Hlt]; [lia|]. by apply Qlt_not_le in Hlt. }
  rewrite Hts in Hrun. cbv zeta in Hrun.
  assert (Hloop :
    Layout.place_children self
      (λ child_id end_x end_y child_angle new_length st',
         Layout.place_nodes_recursively self
           (Z.to_nat (Layout.max_depth self - depth)) child_id ts
           end_x end_y child_angle new_length (depth + 1) st')
      x y a L (List.length cs) 0 cs st = Some st').
  { destruct cs; [done|exact Hrun]. }
  clear Hrun. remember (List.length cs) as k eqn:Hk.
  rewrite <- (take_drop_middle cs i c Hi), place_children_app in Hloop.
  apply bind_Some in Hloop as (st1 & Hpre & Hrest).
  rewrite length_take_le in Hrest.
  2:{ apply lookup_lt_Some in Hi. lia. }
  assert (Hfresh1 : c ∉ Layout.positioned_nodes st1).
  { eapply place_children_leaves; [|exact Hfresh|exact Hpre].
    intros c' Hc'. apply list_elem_of_lookup in Hc' as [j Hj].
    apply lookup_take_Some in Hj as [Hj Hlt]. by apply (Hfirst j). }
  apply place_children_position in Hrest; [|done].
  rewrite delta_spread_offset in Hrest. exact Hrest.
Qed.


Lemma spread_offset_symmetric (k i : nat) :
  (i < k)%nat →
  (spread_offset self k i + spread_offset self k (k - 1 - i) = 0)%R.
Proof.
  intros Hi. unfold spread_offset. case_decide; [lra|].
  rewrite !minus_INR by lia. cbn [INR].
  assert (1 < INR k)%R by (apply lt_1_INR; lia).
  field. lra.
Qed.

Lemma spread_offset_span (k : nat) :
  (1 < k)%nat →
  (spread_offset self k (k - 1) - spread_offset self k 0
   = 2 * Layout.branch_angle self)%R.
Proof.
  intros Hk. unfold spread_offset. case_decide; [lia|].
  rewrite minus_INR by lia. cbn [INR].
  assert (1 < INR k)%R by (by apply lt_1_INR).
  field. lra.
Qed.

(** C6 (as the code has it): in a call of place_nodes_recursively that
    passes the depth and the length guard, let k be the number of entries
    of the node's child list (one per link). The entry at index i, when it
    is not positioned yet and no earlier entry leads to it, is placed at
    distance length from the start point, in the direction of the parent's
    angle plus the offset (i/(k-1)) * (2 * branch_angle) - branch_angle for
    k > 1, and plus 0 for k = 1. The offsets of the entries i and k-1-i are
    opposite, and the last and the first are 2 * branch_angle apart. *)
Theorem child_angle_offsets (node : K) (ts : gmap K (list K))
    (x y a : R) (L : Q) (depth : Z) (st : Layout.State K) (cs : list K)
    (i : nat) (c : K) :
  (depth < Layout.max_depth self)%Z →
  (Layout.min_branch_length self <= L)%Q →
  ts !! node = Some cs → first_reached_at ts cs i c →
  c ∉ Layout.positioned_nodes st →
  ∃ st',
    Layout.place_nodes_recursively self (Layout.fuel_for self depth) node ts
      x y a L depth st = Some st'
    ∧ Layout.node_positions st' !! c
      = Some (polar x y L (a + spread_offset self (List.length cs) i))
    ∧ (spread_offset self (List.length cs) i
       + spread_offset self (List.length cs) (List.length cs - 1 - i) = 0)%R
    ∧ ((1 < List.length cs)%nat →
       (spread_offset self (List.length cs) (List.length cs - 1)
        - spread_offset self (List.length cs) 0
        = 2 * Layout.branch_angle self)%R)
    ∧ (List.length cs = 1%nat →
       Layout.node_positions st' !! c = Some (polar x y L a)).
Proof.
  intros Hdepth Hlen Hts Hfirst Hfresh.
  destruct (place_nodes_recursively_child node ts x y a L depth st cs i c)
    as (st' & Hrun & Hpos); try done.
  exists st'. split; [exact Hrun|]. split; [exact Hpos|].
  split; [|split].
  - apply spread_offset_symmetric. destruct Hfirst as [Hi _].
    by apply lookup_lt_Some in Hi.
  - apply spread_offset_span.
  - intros Hone. rewrite Hpos, Hone. unfold spread_offset.
    rewrite decide_True by done. by rewrite Rplus_0_r.
Qed.

End ChildAngles.

(** ** The keys of the layout *)

Lemma qpow_nonneg (q : Q) (n : nat) : (0 <= q)%Q → (0 <= qpow q n)%Q.
Proof.
  intros Hq. induction n as [|n IH]; cbn; [lra|]. by apply Qmult_le_0_compat.
Qed.

Lemma qpow_antitone (q : Q) (m n : nat) :
  (0 <= q)%Q → (q <= 1)%Q → (m ≤ n)%nat → (qpow q n <= qpow q m)%Q.
Proof.
  intros Hq0 Hq1. induction 1 as [|n Hmn IH]; [lra|].
  cbn. pose proof (qpow_nonneg q n Hq0). nra.
Qed.

(** When neither cut-off can apply, the recursion reaches every child. *)

Section Completeness.
Context {K : Type} `{Countable K}.
Variable self : Layout.Config.
Variable ts : gmap K (list K).
Variable known : gset K.

Abbreviation recursion :=
  (K → R → R → R → Q → Layout.State K → option (Layout.State K)).

Hypothesis ts_known : ∀ n c, c ∈ default [] (ts !! n) → c ∈ known.
Hypothesis deep_enough : (Z.of_nat (size known) < Layout.max_depth self)%Z.
Variable q : Q.
Hypothesis q_nonneg : (0 <= q)%Q.
Hypothesis q_below : (q <= 0.8)%Q.
Hypothesis q_factor : (q <= Layout.branch_factor self)%Q.
Hypothesis minimum_reached :
  (Layout.min_branch_length self <= 100 * qpow q (size known))%Q.

Lemma uniform_factor_ge (r : Rand.Rng) :
  Rand.unit_draws r →
  (q <= fst (Rand.uniform 0.8 (Layout.branch_factor self) r))%Q
  ∧ Rand.unit_draws (snd (Rand.uniform 0.8 (Layout.branch_factor self) r)).
Proof.
  intros Hunit. unfold Rand.uniform, Rand.random. cbn. split; [|exact Hunit].
  destruct (Hunit (Rand.cursor r)) as [H0 H1].
  pose proof q_below. pose proof q_factor. nra.
Qed.

Lemma place_children_complete (recurse : recursion) depth x y a L k :
  (∀ c x y a l st st',
     ready q known (depth + 1) l st → recurse c x y a l st = Some st' →
     closed_from ts known st st'
     ∧ ∀ c', c' ∈ default [] (ts !! c) → c' ∈ Layout.positioned_nodes st') →
  ∀ cs i st st',
    (∀ c, c ∈ cs → c ∈ known) → ready q known depth L st →
    Layout.place_children self recurse x y a L k i cs st = Some st' →
    closed_from ts known st st' ∧ ∀ c, c ∈ cs → c ∈ Layout.positioned_nodes st'.
Proof.
  intros Hrec cs.
  induction cs as [|c cs IH]; intros i st st' Hcs Hready Hrun.
  - cbn in Hrun. simplify_eq. destruct Hready as (_ & Hsub & _ & Hunit).
    split; [|by intros c ?%elem_of_nil]. split; [done|]. split; [done|].
    split; [done|]. by intros m Hm Hm'.
  - rewrite place_children_cons in Hrun. case_decide as Hpos.
    + destruct (IH (S i) st st') as [Hclosed Hall];
        [by intros c' Hc'; apply Hcs; right|done|done|].
      split; [done|]. intros c' [->|Hc']%elem_of_cons; [|by apply Hall].
      by apply Hclosed.
    + cbv zeta in Hrun. apply bind_Some in Hrun as (st1 & Hst1 & Hrest).
      destruct Hready as (Hdepth & Hsub & (e & He & HL) & Hunit).
      destruct (uniform_factor_ge _ Hunit) as [Hfactor Hunit'].
      remember (fst (Rand.uniform 0.8 (Layout.branch_factor self)
                       (Layout.rng st))) as factor eqn:Efactor.
      remember (snd (Rand.uniform 0.8 (Layout.branch_factor self)
                       (Layout.rng st))) as rng' eqn:Erng.
      apply Hrec in Hst1 as [(Hsub1 & Hknown1 & Hunit1 & Hcl1) Hkids1].
      2:{ split; [|split; [|split]]; cbn.
          - rewrite size_union by (by apply disjoint_singleton_l).
            rewrite size_singleton. lia.
          - apply union_subseteq. split; [|done].
            apply singleton_subseteq_l, Hcs. by left.
          - exists (S e). split; [lia|]. cbn [qpow].
            pose proof (qpow_nonneg q e q_nonneg) as Hpow.
            pose proof q_nonneg as Hq.
            assert (0 <= (L - 100 * qpow q e) * factor)%Q
              by (apply Qmult_le_0_compat; lra).
            assert (0 <= (100 * qpow q e) * (factor - q))%Q
              by (apply Qmult_le_0_compat; lra).
            nra.
          - done. }
      cbn in Hsub1.
      assert (Hsub0 : Layout.positioned_nodes st ⊆ Layout.positioned_nodes st1)
        by (etrans; [apply union_subseteq_r|exact Hsub1]).
      destruct (IH (S i) st1 st') as [(Hsub2 & Hknown2 & Hunit2 & Hcl2) Hall];
        [by intros c' Hc'; apply Hcs; right| |done|].
      { split; [|split; [done|]]; [apply subseteq_size in Hsub0; lia|].
        split; [by exists e|done]. }
      split.
      * split; [by etrans|]. split; [done|]. split; [done|].
        intros m Hm Hfresh c' Hc'.
        destruct (decide (m ∈ Layout.positioned_nodes st1)) as [Hm1|Hm1];
          [|by eapply Hcl2].
        apply Hsub2.
        destruct (decide (m = c)) as [->|Hne]; [by apply Hkids1|].
        eapply Hcl1; [done| |done]. cbn.
        by intros [?%elem_of_singleton|?]%elem_of_union.
      * intros c' [->|Hc']%elem_of_cons; [|by apply Hall].
        apply Hsub2, Hsub1, elem_of_union. left. by apply elem_of_singleton.
Qed.

Lemma place_nodes_recursively_complete fuel :
  ∀ depth node x y a L st st',
    ready q known depth L st →
    Layout.place_nodes_recursively self fuel node ts x y a L depth st = Some st' →
    closed_from ts known st st'
    ∧ ∀ c, c ∈ default [] (ts !! node) → c ∈ Layout.positioned_nodes st'.
Proof.
  induction fuel as [|fuel IH]; intros depth node x y a L st st' Hready Hrun;
    [done|].
  rewrite place_nodes_recursively_S in Hrun.
  case_decide as Hguard.
  { exfalso. destruct Hready as (Hdepth & Hsub & (e & He & HL) & _).
    apply subseteq_size in Hsub.
    destruct Hguard as [Hd|Hl]; [lia|].
    pose proof (qpow_antitone q e (size known) q_nonneg) as Hpow.
    pose proof q_below. pose proof minimum_reached.
    specialize (Hpow ltac:(lra) ltac:(lia)). lra. }
  cbv zeta in Hrun.
  destruct (default [] (ts !! node)) as [|c cs] eqn:Hkids.
  - simplify_eq. destruct Hready as (_ & Hsub & _ & Hunit).
    split; [|by intros c ?%elem_of_nil]. split; [done|]. split; [done|].
    split; [done|]. by intros m Hm Hm'.
  - eapply place_children_complete; [| |exact Hready|exact Hrun].
    + intros c0 x0 y0 a0 l0 st0 st0' Hr Hrun0. cbv beta in Hrun0.
      by eapply IH.
    + intros c' Hc'. apply (ts_known node). by rewrite Hkids.
Qed.

End Completeness.

Section LayoutKeys.
Context {K : Type} `{Countable K} {order : Layout.SetOrder K}.
Variable self : Layout.Config.

Lemma layout_tree_nonempty (nodes : list K) (links : list (Layout.Link K))
    x y rng0 root :
  nodes ≠ [] → Layout.layout_root nodes links = Some root →
  ∃ base_length : Z,
    (100 ≤ base_length)%Z
    ∧ Layout.layout_tree self nodes links x y rng0 =
        st' ← Layout.place_nodes_recursively self (Layout.fuel_for self 1)
                root (Layout.build_tree_structure root nodes links) x y
                (- PI / 2)%R (inject_Z base_length) 1
                (Layout.mkState {[root]} {[root := (x, y)]} rng0);
        Some (Layout.node_positions st').
Proof.
  intros Hne Hroot. unfold Layout.layout_tree.
  destruct nodes as [|n nodes]; [done|].
  rewrite calculate_dynamic_parameters_eq.
  unfold Layout.layout_root in Hroot.
  destruct (Layout.find_root_nodes (n :: nodes) links) as [roots|]; [|done].
  cbn in Hroot.
  repeat case_decide; cbn [mbind option_bind]; rewrite Hroot;
    cbn [mbind option_bind]; eexists; (split; [|reflexivity]); lia.
Qed.

Lemma size_list_to_set_le (l : list K) :
  (size (list_to_set l : gset K) ≤ List.length l)%nat.
Proof.
  induction l as [|k l IH]; cbn.
  - by rewrite size_empty.
  - rewrite size_union_alt, size_singleton.
    pose proof (subseteq_size (list_to_set l ∖ {[k]} : gset K) (list_to_set l)
                  ltac:(set_solver)).
    lia.
Qed.

Lemma layout_tree_spec (nodes : list K) (links : list (Layout.Link K))
    x y rng0 :
  nodes ≠ [] →
  ∃ root m,
    Layout.layout_root nodes links = Some root
    ∧ Layout.layout_tree self nodes links x y rng0 = Some m
    ∧ m !! root = Some (x, y)
    ∧ (∀ k, k ∈ dom m →
         Layout.reachable (Layout.build_tree_structure root nodes links) root k)
    ∧ (∀ q : Q,
       (Z.of_nat (List.length nodes) < Layout.max_depth self)%Z →
       (0 <= q)%Q → (q <= 0.8)%Q → (q <= Layout.branch_factor self)%Q →
       (Layout.min_branch_length self <= 100 * qpow q (List.length nodes))%Q →
       Rand.unit_draws rng0 →
       ∀ k,
         Layout.reachable (Layout.build_tree_structure root nodes links) root k →
         k ∈ dom m).
Proof.
  intros Hne.
  destruct (layout_root_spec nodes links Hne) as (root & Hroot & Hin & _).
  destruct (layout_tree_nonempty nodes links x y rng0 root Hne Hroot)
    as (bl & Hbl & Hlayout).
  set (ts := Layout.build_tree_structure root nodes links) in *.
  set (st0 := Layout.mkState {[root]} {[root := (x, y)]} rng0) in *.
  destruct (place_nodes_recursively_total self (Layout.fuel_for self 1) 1 root
              ts x y (- PI / 2)%R (inject_Z bl) st0) as [st' Hrun].
  { unfold Layout.fuel_for. lia. }
  rewrite Hrun in Hlayout. cbn in Hlayout.
  exists root, (Layout.node_positions st').
  split; [done|]. split; [done|].
  assert (Hsound : sound_state ts root st').
  { eapply place_nodes_recursively_sound; [apply rtc_refl| |exact Hrun].
    split; cbn.
    - intros k ->%elem_of_singleton. apply rtc_refl.
    - apply dom_singleton_L. }
  destruct Hsound as [Hreach Hdom].
  split; [|split].
  - eapply place_nodes_recursively_extends in Hrun as Hext;
      [|apply extends_refl].
    destruct (Hext root) as [_ ->]; cbn; [by apply elem_of_singleton|].
    apply lookup_singleton_eq.
  - intros k Hk. apply Hreach. by rewrite <- Hdom.
  - intros q Hdeep Hq0 Hq8 Hqf Hmin Hunit.
    assert (Hknown : ∀ n c, c ∈ default [] (ts !! n) → c ∈ (list_to_set nodes : gset K)).
    { intros n c. unfold ts. rewrite build_tree_structure_lookup.
      case_decide; cbn; [|by intros ?%elem_of_nil].
      intros Hc%link_targets_known. by apply elem_of_list_to_set. }
    pose proof (size_list_to_set_le nodes) as Hsize.
    assert (Hmin' : (Layout.min_branch_length self
                     <= 100 * qpow q (size (list_to_set nodes : gset K)))%Q).
    { pose proof (qpow_antitone q _ _ Hq0 ltac:(lra) Hsize). lra. }
    assert (Hready : ready q (list_to_set nodes) 1 (inject_Z bl) st0).
    { split; [|split; [|split]]; cbn.
      - rewrite size_singleton. lia.
      - apply singleton_subseteq_l. by apply elem_of_list_to_set.
      - exists 0%nat. split; [done|]. cbn [qpow].
        rewrite Zle_Qle in Hbl. change (inject_Z 100) with 100%Q in Hbl. lra.
      - done. }
    destruct (place_nodes_recursively_complete self ts (list_to_set nodes)
                Hknown ltac:(lia) q Hq0 Hq8 Hqf Hmin'
                (Layout.fuel_for self 1) 1%Z root x y (- PI / 2)%R
                (inject_Z bl) st0 st' Hready Hrun)
      as [(Hsub & _ & _ & Hclosed) Hkids].
    rewrite Hdom. unfold Layout.reachable.
    apply (rtc_ind_r (λ k, k ∈ Layout.positioned_nodes st')).
    + apply Hsub. cbn. by apply elem_of_singleton.
    + intros m c Hm Hc IH.
      destruct (decide (m = root)) as [->|Hnroot]; [by apply Hkids|].
      eapply Hclosed; [exact IH| |exact Hc].
      cbn. by intros ?%elem_of_singleton.
Qed.

(** C1 (as the code has it): for an empty node collection the result is the
    empty mapping; otherwise [layout_tree] returns a mapping in which the
    root has its entry, at the origin, and in which every key is a node
    reachable from the root.  A reachable node is left out only by the depth
    or length cut-off: when the depth bound exceeds the number n of nodes
    and the minimum length is at most 100 * q ^ n, for a lower bound q of the
    length factors (0 <= q <= 0.8, q <= branch_factor, draws in [0,1)),
    every reachable node has an entry. *)
Theorem layout_tree_keys (nodes : list K) (links : list (Layout.Link K))
    (root_x root_y : R) (rng0 : Rand.Rng) :
  (nodes = [] →
     Layout.layout_tree self nodes links root_x root_y rng0 = Some ∅)
  ∧ (nodes ≠ [] →
     ∃ root m,
       Layout.layout_root nodes links = Some root
       ∧ Layout.layout_tree self nodes links root_x root_y rng0 = Some m
       ∧ m !! root = Some (root_x, root_y)
       ∧ (∀ k, k ∈ dom m →
            Layout.reachable (Layout.build_tree_structure root nodes links)
              root k)
       ∧ (∀ q : Q,
          (Z.of_nat (List.length nodes) < Layout.max_depth self)%Z →
          (0 <= q)%Q → (q <= 0.8)%Q → (q <= Layout.branch_factor self)%Q →
          (Layout.min_branch_length self
           <= 100 * qpow q (List.length nodes))%Q →
          Rand.unit_draws rng0 →
          ∀ k,
            Layout.reachable (Layout.build_tree_structure root nodes links)
              root k →
            k ∈ dom m)).
Proof.
  split; [by intros ->|]. apply layout_tree_spec.
Qed.

End LayoutKeys.

Lemma child_of_by_evaluation (ts : gmap string (list string)) (a b : string) :
  bool_decide (b ∈ default [] (ts !! a)) = true → Layout.child_of ts a b.
Proof. intros Hb. by apply bool_decide_eq_true in Hb. Qed.

(** C1, the claim as stated fails: with the default parameters a chain of
    ten nodes is laid out with lengths 100, 82.5, 68.06, ... and the call
    for n7 gets a length below 30, so n8, reachable from the root n0, has
    no entry. *)
Lemma layout_tree_misses_reachable_node :
  ¬ keys_are_the_reachable_nodes (order := elements_order)
      Layout.default_config chain_nodes chain_links 600 650 half_rng.
Proof.
  intros Hkeys.
  assert (Hroot : Layout.layout_root (order := elements_order)
                    chain_nodes chain_links = Some "n0"%string)
    by (vm_compute; reflexivity).
  destruct (Layout.layout_tree (order := elements_order) Layout.default_config
              chain_nodes chain_links 600 650 half_rng) as [m|] eqn:Hm.
  - assert (Hn8 : (λ m : gmap string (R * R),
                     bool_decide ("n8"%string ∈ dom m)) <$>
                  Layout.layout_tree (order := elements_order)
                    Layout.default_config chain_nodes chain_links 600 650
                    half_rng = Some false)
      by (vm_compute; reflexivity).
    rewrite Hm in Hn8. cbn in Hn8. injection Hn8 as Hn8.
    apply bool_decide_eq_false in Hn8. apply Hn8.
    apply (Hkeys "n0"%string m Hroot Hm).
    unfold Layout.reachable.
    apply (rtc_l _ _ "n1"%string);
      [apply child_of_by_evaluation; vm_compute; reflexivity|].
    apply (rtc_l _ _ "n2"%string);
      [apply child_of_by_evaluation; vm_compute; reflexivity|].
    apply (rtc_l _ _ "n3"%string);
      [apply child_of_by_evaluation; vm_compute; reflexivity|].
    apply (rtc_l _ _ "n4"%string);
      [apply child_of_by_evaluation; vm_compute; reflexivity|].
    apply (rtc_l _ _ "n5"%string);
      [apply child_of_by_evaluation; vm_compute; reflexivity|].
    apply (rtc_l _ _ "n6"%string);
      [apply child_of_by_evaluation; vm_compute; reflexivity|].
    apply (rtc_l _ _ "n7"%string);
      [apply child_of_by_evaluation; vm_compute; reflexivity|].
    apply (rtc_l _ _ "n8"%string);
      [apply child_of_by_evaluation; vm_compute; reflexivity|].
    apply rtc_refl.
  - assert (Hsome : bool_decide
                      (is_Some (Layout.layout_tree (order := elements_order)
                                  Layout.default_config chain_nodes
                                  chain_links 600 650 half_rng)) = true)
      by (vm_compute; reflexivity).
    rewrite Hm in Hsome. apply bool_decide_eq_true in Hsome.
    by apply is_Some_None in Hsome.
Qed.

Lemma half_rng_unit_draws : Rand.unit_draws half_rng.
Proof. intros n. cbn. split; [unfold Qle|unfold Qlt]; cbn; lia. Qed.

Lemma layout_tree_keys_witness :
  ∃ root m,
    Layout.layout_root (order := elements_order) short_nodes short_links
      = Some root
    ∧ Layout.layout_tree (order := elements_order) Layout.default_config
        short_nodes short_links 600 650 half_rng = Some m
    ∧ m !! root = Some (600%R, 650%R)
    ∧ (∀ k, k ∈ dom m →
         Layout.reachable
           (Layout.build_tree_structure root short_nodes short_links) root k)
    ∧ (∀ k,
         Layout.reachable
           (Layout.build_tree_structure root short_nodes short_links) root k →
         k ∈ dom m).
Proof.
  destruct (layout_tree_keys (order := elements_order) Layout.default_config
              short_nodes short_links 600 650 half_rng)
    as [_ Hne].
  destruct Hne as (root & m & Hroot & Hm & Hpos & Hsound & Hall);
    [discriminate|].
  exists root, m.
  split; [exact Hroot|]. split; [exact Hm|]. split; [exact Hpos|].
  split; [exact Hsound|].
  apply (Hall 0.8%Q).
  - cbn. lia.
  - unfold Qle. cbn. lia.
  - unfold Qle. cbn. lia.
  - unfold Qle. cbn. lia.
  - unfold Qle. cbn. lia.
  - exact half_rng_unit_draws.
Defined.

Lemma no_children_unreachable (ts : gmap string (list string))
    (a c : string) :
  ts !! a = None → a ≠ c → ¬ Layout.reachable ts a c.
Proof.
  intros Hts Hne Hreach. apply rtc_inv in Hreach as [->|(z & Hz & _)]; [done|].
  unfold Layout.child_of in Hz. rewrite Hts in Hz. by apply elem_of_nil in Hz.
Qed.

Lemma child_angle_offsets_witness :
  ∃ st',
    Layout.place_nodes_recursively Layout.default_config
      (Layout.fuel_for Layout.default_config 1) "a"%string
      {[ "a"%string := ["b"; "c"; "d"]%string ]} 600 650 (- PI / 2)%R 100 1
      (Layout.mkState {[ "a"%string ]} {[ "a"%string := (600%R, 650%R) ]}
         half_rng) = Some st'
    ∧ Layout.node_positions st' !! "c"%string
      = Some (polar 600 650 100
                (- PI / 2 + spread_offset Layout.default_config 3 1)).
Proof.
  destruct (child_angle_offsets Layout.default_config "a"%string
              {[ "a"%string := ["b"; "c"; "d"]%string ]} 600 650
              (- PI / 2)%R 100 1
              (Layout.mkState {[ "a"%string ]}
                 {[ "a"%string := (600%R, 650%R) ]} half_rng)
              ["b"; "c"; "d"]%string 1 "c"%string)
    as (st' & Hrun & Hpos & _).
  - cbn. lia.
  - unfold Qle. cbn. lia.
  - apply lookup_singleton_eq.
  - split; [reflexivity|]. intros j c' Hj Hc'.
    destruct j as [|j]; [|lia]. cbn in Hc'. simplify_eq.
    apply no_children_unreachable; [|done].
    by apply lookup_singleton_ne.
  - cbn. by intros ?%elem_of_singleton.
  - exists st'. split; [exact Hrun|exact Hpos].
Defined.

(** C6, the claim as stated fails: with the link from "a" to "b" given
    twice, "b" is the only child of "a", the child list has two entries,
    and "b" is placed at the offset -branch_angle of the first of two, not
    along the parent's angle. *)
Lemma only_child_placed_off_axis :
  let ts := Layout.build_tree_structure "a"%string ["a"; "b"]%string
              [link "a" "b"; link "a" "b"] in
  (∀ k, Layout.child_of ts "a"%string k ↔ k = "b"%string)
  ∧ ∃ st' p,
      Layout.place_nodes_recursively Layout.default_config
        (Layout.fuel_for Layout.default_config 1) "a"%string ts
        600 650 (- PI / 2)%R 100 1
        (Layout.mkState {[ "a"%string ]} {[ "a"%string := (600%R, 650%R) ]}
           half_rng) = Some st'
      ∧ Layout.node_positions st' !! "b"%string = Some p
      ∧ p ≠ polar 600 650 100 (- PI / 2).
Proof.
  intros ts.
  assert (Hts : ts !! "a"%string = Some ["b"; "b"]%string).
  { unfold ts. by rewrite build_tree_structure_lookup. }
  split.
  { intros k. unfold Layout.child_of. rewrite Hts.
    change (k ∈ ["b"; "b"]%string ↔ k = "b"%string).
    rewrite !elem_of_cons, elem_of_nil. tauto. }
  destruct (place_nodes_recursively_child Layout.default_config "a"%string
              ts 600 650 (- PI / 2)%R 100 1
              (Layout.mkState {[ "a"%string ]}
                 {[ "a"%string := (600%R, 650%R) ]} half_rng)
              ["b"; "b"]%string 0 "b"%string)
    as (st' & Hrun & Hpos).
  - cbn. lia.
  - unfold Qle. cbn. lia.
  - exact Hts.
  - split; [reflexivity|]. intros j c' Hj. lia.
  - cbn. by intros ?%elem_of_singleton.
  - exists st', (polar 600 650 100
                   (- PI / 2 + spread_offset Layout.default_config 2 0)).
    split; [exact Hrun|]. split; [exact Hpos|].
    unfold polar, spread_offset. rewrite decide_False by lia.
    cbn [INR Layout.branch_angle Layout.default_config].
    intros Heq. apply (f_equal fst) in Heq. cbn [fst] in Heq.
    set (t := Layout.radians 35) in *.
    assert (Ht : (0 < t < PI)%R).
    { unfold t, Layout.radians. pose proof PI_RGT_0. lra. }
    pose proof (sin_gt_0 t (proj1 Ht) (proj2 Ht)) as Hsin.
    replace (- PI / 2 + (0 / (1 + 1 - 1) * (2 * t) - t))%R
      with (- (PI / 2 + t))%R in Heq by lra.
    replace (- PI / 2)%R with (- (PI / 2))%R in Heq by lra.
    rewrite !cos_neg, cos_PI2, cos_plus, cos_PI2, sin_PI2 in Heq.
    assert (Hq : Q2R 100 = 100%R) by (unfold Q2R; cbn; lra).
    rewrite Hq in Heq. lra.
Qed.

(** ** Branch geometry *)

(** C2 (as the code has it): [get_end] is computed from the current length,
    start + length * (cos angle, sin angle); it is the fully-grown end point
    when the current length has reached the target length. *)
Theorem get_end_current_length (b : Sim.Branch) :
  Sim.get_end b =
    ((fst (Sim.start b) + Q2R (Sim.length b) * cos (Sim.angle b))%R,
     (snd (Sim.start b) + Q2R (Sim.length b) * sin (Sim.angle b))%R)
  ∧ ((Sim.length b == Sim.target_length b)%Q →
     Sim.get_end b = fully_grown_end b).
Proof.
  split; [reflexivity|].
  intros Heq. unfold Sim.get_end, fully_grown_end. cbv zeta.
  by rewrite (Qeq_eqR _ _ Heq).
Qed.

Lemma get_end_current_length_witness :
  Sim.get_end (Sim.set_length seed_branch 100) =
    fully_grown_end (Sim.set_length seed_branch 100).
Proof.
  apply (get_end_current_length (Sim.set_length seed_branch 100)).
  reflexivity.
Defined.

(** C2, the claim as stated fails: the seed branch, of length 0 and target
    100 when it is created, has its end at its start (400, 550), not at
    the fully-grown end (400, 450). *)
Lemma get_end_not_fully_grown_end :
  Sim.get_end seed_branch ≠ fully_grown_end seed_branch.
Proof.
  unfold Sim.get_end, fully_grown_end, seed_branch, Sim.Branch_init. cbn.
  intros Heq. injection Heq as _ Hy.
  replace (- PI / 2)%R with (- (PI / 2))%R in Hy by lra.
  rewrite sin_neg, sin_PI2 in Hy.
  unfold Q2R in Hy. cbn in Hy. lra.
Qed.

(** ** Growth of a branch *)

Lemma Branch_induction (P : Sim.Branch → Prop) :
  (∀ b, Forall P (Sim.children b) → P b) → ∀ b, P b.
Proof.
  intros HP. fix IH 1. intros [s a l t d f cs st]. apply HP. cbn.
  induction cs as [|c cs IHcs]; constructor; [apply IH | exact IHcs].
Qed.

Lemma all_branches_here P b : all_branches P b → P b.
Proof. by intros [b' HP _]. Qed.

Lemma all_branches_children P b :
  all_branches P b → Forall (all_branches P) (Sim.children b).
Proof. by intros [b' _ Hcs]. Qed.

Lemma all_branches_spawned P c :
  (∀ s a l d, (Sim.MIN_BRANCH_LENGTH <= l)%Q → P (Sim.Branch_init s a l d)) →
  spawned c → all_branches P c.
Proof.
  intros HP (s & a & l & d & -> & Hl). constructor; [by apply HP|].
  cbn. constructor.
Qed.

(** What grow does to the children list: it appends fresh children. *)

Lemma spawn_children_app self end_ n :
  ∀ kids r, ∃ new,
    fst (Sim.spawn_children self end_ n kids r) = kids ++ new
    ∧ Forall spawned new.
Proof.
  induction n as [|n IH]; intros kids r; cbn.
  - exists []. by rewrite app_nil_r.
  - destruct (Sim.draw_child self r) as [[delta new_length] r'].
    case_decide as Hlong.
    + destruct (IH (kids ++ [Sim.Branch_init end_ (Sim.angle self + delta)%R
                                new_length (Sim.depth self + 1)]) r')
        as (new & -> & Hnew).
      eexists (_ :: new). rewrite <- app_assoc. split; [reflexivity|].
      constructor; [|done]. by eexists _, _, _, _.
    + apply IH.
Qed.

Lemma grow_children self r :
  ∃ new,
    Sim.children (fst (Sim.grow self r)) = Sim.children self ++ new
    ∧ Forall spawned new.
Proof.
  unfold Sim.grow.
  case_decide as Hgrowing.
  { exists []. rewrite app_nil_r. by case_decide. }
  destruct (Sim.may_spawn self) eqn:Hspawn.
  - destruct (Rand.choice 2%nat [3%nat] r) as [n r1].
    destruct (spawn_children_app (Sim.set_finished self true)
                (Sim.get_end (Sim.set_finished self true)) n
                (Sim.children (Sim.set_finished self true)) r1)
      as (new & Hkids & Hnew).
    destruct (Sim.spawn_children _ _ n _ r1) as [kids r2].
    cbn in Hkids. subst kids. exists new.
    split; [|done]. by destruct (_ && _).
  - exists []. rewrite app_nil_r. by destruct (_ && _).
Qed.

Lemma grow_fields self r :
  Sim.target_length (fst (Sim.grow self r)) = Sim.target_length self
  ∧ Sim.depth (fst (Sim.grow self r)) = Sim.depth self.
Proof.
  unfold Sim.grow.
  case_decide as Hgrowing; [by case_decide|].
  destruct (Sim.may_spawn self).
  - destruct (Rand.choice 2%nat [3%nat] r) as [n r1].
    destruct (Sim.spawn_children _ _ n _ r1) as [kids r2].
    by destruct (_ && _).
  - by destruct (_ && _).
Qed.

Lemma grow_len_ok self r : len_ok self → len_ok (fst (Sim.grow self r)).
Proof.
  intros [H0 Hle]. unfold Sim.grow.
  case_decide as Hgrowing.
  - unfold Sim.GROWTH_SPEED.
    case_decide as Hover; split; cbn; lra.
  - destruct (Sim.may_spawn self).
    + destruct (Rand.choice 2%nat [3%nat] r) as [n r1].
      destruct (Sim.spawn_children _ _ n _ r1) as [kids r2].
      by destruct (_ && _).
    + by destruct (_ && _).
Qed.

Lemma grow_static_ok self r : static_ok self → static_ok (fst (Sim.grow self r)).
Proof.
  intros Hok. unfold Sim.grow.
  case_decide as Hgrowing; [by case_decide|].
  destruct (Sim.may_spawn self) eqn:Hspawn.
  - destruct (Rand.choice 2%nat [3%nat] r) as [n r1].
    destruct (Sim.spawn_children _ _ n _ r1) as [kids r2].
    destruct (_ && _) eqn:Hcheck; cbn -[forallb] in *.
    + intros _. rename Hcheck into Hall.
      split; [done|]. apply Forall_forall. intros c Hc.
      rewrite forallb_forall in Hall. by apply Hall, list_elem_of_In.
    + intros Hstatic. destruct (Hok Hstatic) as [Hfin _].
      unfold Sim.may_spawn in Hspawn. by rewrite Hfin in Hspawn.
  - destruct (_ && _) eqn:Hcheck; cbn -[forallb] in *.
    + intros _. apply andb_true_iff in Hcheck as [Hfin Hall].
      split; [done|]. apply Forall_forall. intros c Hc.
      rewrite forallb_forall in Hall. by apply Hall, list_elem_of_In.
    + exact Hok.
Qed.

(** ** Updating a branch over the frames *)

Lemma update_fuel_S fuel self g r :
  Sim.update_fuel (S fuel) self g r =
    if Sim.static self then Some (self, r)
    else
      '(kids, r') ←
        Sim.update_children (λ child r, Sim.update_fuel fuel child g r)
          (Sim.children (fst (if g then Sim.grow self r else (self, r))))
          (snd (if g then Sim.grow self r else (self, r)));
      Some (Sim.set_children
              (fst (if g then Sim.grow self r else (self, r))) kids, r').
Proof.
  cbn. destruct (Sim.static self); [done|].
  by destruct (if g then Sim.grow self r else (self, r)).
Qed.

Lemma update_children_total
    (update : Sim.Branch → Rand.Rng → option (Sim.Branch * Rand.Rng)) cs :
  Forall (λ c, ∀ r, is_Some (update c r)) cs →
  ∀ r, is_Some (Sim.update_children update cs r).
Proof.
  induction 1 as [|c cs Hc _ IH]; intros r; cbn; [eauto|].
  destruct (Hc r) as [[c' r1] ->]. cbn.
  destruct (IH r1) as [[cs' r2] ->]. cbn. eauto.
Qed.

Lemma update_children_Forall (P : Sim.Branch → Prop)
    (update : Sim.Branch → Rand.Rng → option (Sim.Branch * Rand.Rng)) cs :
  (∀ c r c' r', P c → update c r = Some (c', r') → P c') →
  ∀ r kids r',
    Forall P cs → Sim.update_children update cs r = Some (kids, r') →
    Forall P kids.
Proof.
  intros Hupd. induction cs as [|c cs IH]; intros r kids r' Hcs Hrun.
  - cbn in Hrun. by simplify_eq.
  - apply Forall_cons in Hcs as [Hc Hcs]. cbn in Hrun.
    destruct (update c r) as [[c' r1]|] eqn:Hc'; [|done]. cbn in Hrun.
    destruct (Sim.update_children update cs r1) as [[cs' r2]|] eqn:Hcs';
      [|done].
    cbn in Hrun. simplify_eq. constructor; [by eapply Hupd|by eapply IH].
Qed.

Lemma update_children_static fuel g cs :
  ∀ r kids r',
    Forall (λ c, Sim.static c = true) cs →
    Sim.update_children (λ child r, Sim.update_fuel fuel child g r) cs r
      = Some (kids, r') →
    kids = cs ∧ r' = r.
Proof.
  induction cs as [|c cs IH]; intros r kids r' Hcs Hrun.
  - cbn in Hrun. by simplify_eq.
  - apply Forall_cons in Hcs as [Hc Hcs]. cbn in Hrun.
    destruct fuel as [|fuel]; [done|].
    rewrite update_fuel_S, Hc in Hrun. cbn in Hrun.
    destruct (Sim.update_children _ cs r) as [[cs' r2]|] eqn:Hcs'; [|done].
    cbn in Hrun. simplify_eq.
    by destruct (IH _ _ _ Hcs Hcs') as [-> ->].
Qed.

Lemma height_child b c : c ∈ Sim.children b → (Sim.height c < Sim.height b)%nat.
Proof.
  destruct b as [s a l t d f cs st]. cbn.
  induction cs as [|c' cs IH]; intros Hc; [by apply elem_of_nil in Hc|].
  apply elem_of_cons in Hc as [->|Hc]; cbn; [lia|].
  specialize (IH Hc). lia.
Qed.

Lemma update_spawned fuel c g r :
  spawned c → is_Some (Sim.update_fuel (S fuel) c g r).
Proof.
  intros (s & a & l & d & -> & Hl). rewrite update_fuel_S. cbn.
  destruct g; [|cbn; eauto].
  unfold Sim.grow. cbn.
  rewrite decide_True; [|unfold Sim.MIN_BRANCH_LENGTH in Hl; lra].
  case_decide; cbn; eauto.
Qed.

(** update returns: the fuel it is given is enough. *)
Lemma update_fuel_total fuel :
  ∀ self g r, (Sim.height self ≤ fuel)%nat →
              is_Some (Sim.update_fuel (S fuel) self g r).
Proof.
  induction fuel as [|fuel IH]; intros self g r Hfuel.
  { destruct self; cbn in Hfuel; lia. }
  rewrite update_fuel_S. destruct (Sim.static self); [eauto|].
  set (grown := if g then Sim.grow self r else (self, r)).
  assert (Hkids : ∃ new, Sim.children (fst grown) = Sim.children self ++ new
                         ∧ Forall spawned new).
  { destruct g; [apply grow_children|]. exists []. by rewrite app_nil_r. }
  destruct Hkids as (new & -> & Hnew).
  destruct (update_children_total
              (λ child r, Sim.update_fuel (S fuel) child g r)
              (Sim.children self ++ new)) with (r := snd grown)
    as [[kids r'] ->]; [|cbn; eauto].
  apply Forall_app. split.
  - apply Forall_forall. intros c Hc r0. apply IH.
    apply height_child in Hc. lia.
  - eapply Forall_impl; [exact Hnew|]. intros c Hc r0.
    by apply update_spawned.
Qed.

Lemma update_total self g r : is_Some (Sim.update self g r).
Proof. by apply update_fuel_total. Qed.

Lemma run_updates_total frames :
  ∀ self r, is_Some (Sim.run_updates frames self r).
Proof.
  induction frames as [|g frames IH]; intros self r;
    cbn [Sim.run_updates]; [eauto|].
  destruct (update_total self g r) as [[self' r'] ->]. cbn. apply IH.
Qed.

(** Invariants of the whole subtree that grow and update keep. *)

Section UpdateInvariant.
Variable Q : Sim.Branch → Prop.
Hypothesis Q_grow : ∀ b r, Q b → Q (fst (Sim.grow b r)).
Hypothesis Q_init :
  ∀ s a l d, (Sim.MIN_BRANCH_LENGTH <= l)%Q → Q (Sim.Branch_init s a l d).
Hypothesis Q_set_children : ∀ b kids, Q b → Q (Sim.set_children b kids).

Lemma spawned_good c : spawned c → all_branches (good Q) c.
Proof.
  apply all_branches_spawned. intros s a l d Hl. split; [|by apply Q_init].
  by intros Hstatic.
Qed.

Lemma grow_good self r :
  all_branches (good Q) self → all_branches (good Q) (fst (Sim.grow self r)).
Proof.
  intros [b [Hstatic HQ] Hkids]. constructor.
  - split; [by apply grow_static_ok|by apply Q_grow].
  - destruct (grow_children b r) as (new & -> & Hnew).
    apply Forall_app. split; [done|].
    eapply Forall_impl; [exact Hnew|]. apply spawned_good.
Qed.

Lemma update_fuel_good fuel :
  ∀ self g r self' r',
    all_branches (good Q) self →
    Sim.update_fuel fuel self g r = Some (self', r') →
    all_branches (good Q) self'.
Proof.
  induction fuel as [|fuel IH]; intros self g r self' r' Hgood Hrun; [done|].
  rewrite update_fuel_S in Hrun.
  destruct (Sim.static self) eqn:Hstatic; [by simplify_eq|].
  set (grown := if g then Sim.grow self r else (self, r)) in *.
  assert (Hgrown : all_branches (good Q) (fst grown)).
  { destruct g; [by apply grow_good|done]. }
  apply bind_Some in Hrun as ([kids r1] & Hkids & Hret). simplify_eq.
  destruct Hgrown as [b [Hok HQ] Hcs].
  pose proof (update_children_Forall (all_branches (good Q)) _ _
                (λ c r c' r', IH c g r c' r') _ _ _ Hcs Hkids) as Hkids'.
  constructor; [|done]. split; [|by apply Q_set_children].
  intros Hst. cbn in Hst. destruct (Hok Hst) as [Hfin Hall].
  destruct (update_children_static _ _ _ _ _ _ Hall Hkids) as [-> _].
  done.
Qed.

Lemma update_good self g r self' r' :
  all_branches (good Q) self → Sim.update self g r = Some (self', r') →
  all_branches (good Q) self'.
Proof. apply update_fuel_good. Qed.


End UpdateInvariant.

Lemma all_branches_impl (P P' : Sim.Branch → Prop) :
  (∀ b, P b → P' b) → ∀ b, all_branches P b → all_branches P' b.
Proof.
  intros HPP'. apply (Branch_induction (λ b, all_branches P b → all_branches P' b)).
  intros b IH Hall. destruct Hall as [b HP Hcs].
  constructor; [by apply HPP'|].
  apply Forall_forall. intros c Hc.
  rewrite Forall_forall in IH. rewrite Forall_forall in Hcs.
  apply IH; [exact Hc|]. by apply Hcs.
Qed.


Lemma init_len_ok s a l d : (0 <= l)%Q → len_ok (Sim.Branch_init s a l d).
Proof. intros Hl. split; cbn; lra. Qed.




(** ** Instant growth *)

Lemma grow_branch_instantly_fuel_S fuel branch r :
  Sim.grow_branch_instantly_fuel (S fuel) branch r =
    let grown := Sim.set_length branch (Sim.target_length branch) in
    if Sim.may_spawn grown then
      let finished := Sim.set_finished grown true in
      '(kids, r') ←
        Sim.instant_children (Sim.grow_branch_instantly_fuel fuel) finished
          (Sim.get_end finished)
          (fst (Rand.choice 2%nat [3%nat] r)) (Sim.children finished)
          (snd (Rand.choice 2%nat [3%nat] r));
      Some (Sim.set_children finished kids, r')
    else Some (grown, r).
Proof. reflexivity. Qed.

Lemma instant_children_total
    (recurse : Sim.Branch → Rand.Rng → option (Sim.Branch * Rand.Rng))
    branch end_ n :
  (∀ s a l r, is_Some (recurse (Sim.Branch_init s a l (Sim.depth branch + 1)) r)) →
  ∀ kids r, is_Some (Sim.instant_children recurse branch end_ n kids r).
Proof.
  intros Hrec. induction n as [|n IH]; intros kids r; cbn; [eauto|].
  destruct (Sim.draw_child branch r) as [[delta new_length] r'].
  case_decide; [|apply IH].
  destruct (Hrec end_ (Sim.angle branch + delta)%R new_length r')
    as [[child r''] ->].
  cbn. apply IH.
Qed.

(** grow_branch_instantly returns: children are one level deeper than their
    parent and none is created at MAX_DEPTH. *)
Lemma grow_branch_instantly_fuel_total fuel :
  ∀ branch r,
    (Z.to_nat (Sim.MAX_DEPTH - Sim.depth branch) < fuel)%nat →
    is_Some (Sim.grow_branch_instantly_fuel fuel branch r).
Proof.
  induction fuel as [|fuel IH]; intros branch r Hfuel; [lia|].
  rewrite grow_branch_instantly_fuel_S. cbv zeta.
  destruct (Sim.may_spawn _) eqn:Hspawn; [|eauto].
  unfold Sim.may_spawn in Hspawn. cbn in Hspawn.
  apply andb_true_iff in Hspawn as [Hspawn _].
  apply andb_true_iff in Hspawn as [_ Hdepth].
  apply bool_decide_eq_true in Hdepth.
  match goal with
  | |- is_Some (mbind _ ?m) => assert (is_Some m) as [[kids r'] ->]
  end; [|cbn; eauto].
  apply instant_children_total. intros s a l r0. apply IH. cbn. lia.
Qed.

Lemma grow_branch_instantly_total branch r :
  is_Some (Sim.grow_branch_instantly branch r).
Proof. apply grow_branch_instantly_fuel_total. lia. Qed.

Lemma instant_children_Forall (P : Sim.Branch → Prop)
    (recurse : Sim.Branch → Rand.Rng → option (Sim.Branch * Rand.Rng))
    branch end_ n :
  (∀ s a l d r c r',
     (Sim.MIN_BRANCH_LENGTH <= l)%Q →
     recurse (Sim.Branch_init s a l d) r = Some (c, r') → P c) →
  ∀ kids r kids' r',
    Forall P kids →
    Sim.instant_children recurse branch end_ n kids r = Some (kids', r') →
    Forall P kids'.
Proof.
  intros Hrec. induction n as [|n IH]; intros kids r kids' r' Hkids Hrun;
    cbn in Hrun; [by simplify_eq|].
  destruct (Sim.draw_child branch r) as [[delta new_length] r1].
  case_decide as Hlong; [|by eapply IH].
  apply bind_Some in Hrun as ([child r2] & Hchild & Hrest).
  eapply IH; [|exact Hrest].
  apply Forall_app. split; [done|]. constructor; [|done].
  by eapply Hrec.
Qed.

Section InstantInvariant.
Variable P : Sim.Branch → Prop.
Hypothesis P_init : ∀ s a l d, P (Sim.Branch_init s a l d).
Hypothesis P_grown : ∀ b, P b → P (Sim.set_length b (Sim.target_length b)).
Hypothesis P_spawn : ∀ b kids,
  P b → Sim.may_spawn b = true → Forall (all_branches P) kids →
  P (Sim.set_children (Sim.set_finished b true) kids).

Lemma grow_branch_instantly_fuel_all fuel :
  ∀ branch r b' r',
    P branch → Forall (all_branches P) (Sim.children branch) →
    Sim.grow_branch_instantly_fuel fuel branch r = Some (b', r') →
    all_branches P b'.
Proof.
  induction fuel as [|fuel IH]; intros branch r b' r' Hb Hkids Hrun; [done|].
  rewrite grow_branch_instantly_fuel_S in Hrun. cbv zeta in Hrun.
  destruct (Sim.may_spawn _) eqn:Hspawn.
  - apply bind_Some in Hrun as ([kids r1] & Hrun & Hret). simplify_eq.
    eapply instant_children_Forall in Hrun; [| |exact Hkids].
    + constructor; [|done]. apply (P_spawn _ kids) in Hspawn; [done| |done].
      by apply P_grown.
    + intros s a l d r0 c r0' _ Hc.
      eapply IH; [apply P_init| |exact Hc]. constructor.
  - simplify_eq. constructor; [by apply P_grown|done].
Qed.

End InstantInvariant.

Lemma grow_branch_instantly_static_ok branch r b' r' :
  all_branches static_ok branch →
  Sim.grow_branch_instantly branch r = Some (b', r') →
  all_branches static_ok b'.
Proof.
  intros [b Hok Hkids].
  assert (Hinit : ∀ s a l d, static_ok (Sim.Branch_init s a l d))
    by (by intros s a l d Hstatic).
  assert (Hgrown : ∀ b0, static_ok b0 →
                         static_ok (Sim.set_length b0 (Sim.target_length b0)))
    by done.
  assert (Hspawn : ∀ b0 kids,
            static_ok b0 → Sim.may_spawn b0 = true →
            Forall (all_branches static_ok) kids →
            static_ok (Sim.set_children (Sim.set_finished b0 true) kids)).
  { intros b0 kids Hok0 Hsp _ Hstatic. cbn in Hstatic.
    destruct (Hok0 Hstatic) as [Hfin _].
    unfold Sim.may_spawn in Hsp. by rewrite Hfin in Hsp. }
  intros Hrun.
  exact (grow_branch_instantly_fuel_all static_ok Hinit Hgrown Hspawn
           _ _ _ _ _ Hok Hkids Hrun).
Qed.

(** What holds of C7: every branch that grow_branch_instantly visits or
    creates ends with its length equal to its target length. *)
Lemma grow_branch_instantly_full_length branch r b' r' :
  Forall (all_branches full_length) (Sim.children branch) →
  Sim.grow_branch_instantly branch r = Some (b', r') →
  all_branches full_length b'.
Proof.
  intros Hkids.
  assert (Hinit : ∀ b, full_length (Sim.set_length b (Sim.target_length b)))
    by done.
  assert (∀ fuel b0 r0 b0' r0',
            Forall (all_branches full_length) (Sim.children b0) →
            Sim.grow_branch_instantly_fuel fuel b0 r0 = Some (b0', r0') →
            all_branches full_length b0') as Hgen; [|by apply Hgen].
  induction fuel as [|fuel IH]; intros b0 r0 b0' r0' Hkids0 Hrun; [done|].
  rewrite grow_branch_instantly_fuel_S in Hrun. cbv zeta in Hrun.
  destruct (Sim.may_spawn _) eqn:Hspawn.
  - apply bind_Some in Hrun as ([kids r1] & Hrun & Hret). simplify_eq.
    eapply instant_children_Forall in Hrun; [| |exact Hkids0].
    + by constructor.
    + intros s a l d r2 c r2' _ Hc. eapply IH; [|exact Hc]. constructor.
  - simplify_eq. by constructor.
Qed.

(** ** The static state *)

Lemma good_static_ok b : all_branches static_ok b ↔ all_branches (good (λ _, True)) b.
Proof.
  split; apply all_branches_impl; [by intros b0 ?|by intros b0 [? _]].
Qed.

Lemma reachable_static_ok b : reachable_branch b → all_branches static_ok b.
Proof.
  induction 1 as [s a l d|b r _ IH|b g r b' r' _ IH Hupd|b r b' r' _ IH Hrun
                 |b c _ IH Hc].
  - constructor; [by intros ?|constructor].
  - apply good_static_ok, grow_good; [done..|by apply good_static_ok].
  - apply good_static_ok.
    eapply (update_good (λ _, True)); [done..|by apply good_static_ok|exact Hupd].
  - by eapply grow_branch_instantly_static_ok.
  - apply all_branches_children in IH. rewrite Forall_forall in IH.
    by apply IH.
Qed.

Lemma static_subtree b :
  all_branches static_ok b → Sim.static b = true →
  all_branches (λ s, Sim.static s = true ∧ Sim.finished s = true) b.
Proof.
  revert b.
  apply (Branch_induction
           (λ b, all_branches static_ok b → Sim.static b = true →
                 all_branches (λ s, Sim.static s = true ∧ Sim.finished s = true) b)).
  intros b IH Hall Hstatic. destruct Hall as [b Hok Hkids].
  destruct (Hok Hstatic) as [Hfin Hcs].
  constructor; [done|].
  apply Forall_forall. intros c Hc.
  rewrite Forall_forall in IH. rewrite Forall_forall in Hkids.
  rewrite Forall_forall in Hcs.
  apply IH; [done|by apply Hkids|by apply Hcs].
Qed.

Lemma run_updates_static frames :
  ∀ b r, Sim.static b = true → Sim.run_updates frames b r = Some (b, r).
Proof.
  induction frames as [|g frames IH]; intros b r Hstatic;
    cbn [Sim.run_updates]; [done|].
  unfold Sim.update. rewrite update_fuel_S, Hstatic. cbn. by apply IH.
Qed.

Lemma run_updates_reachable frames :
  ∀ b r b' r',
    reachable_branch b → Sim.run_updates frames b r = Some (b', r') →
    reachable_branch b'.
Proof.
  induction frames as [|g frames IH]; intros b r b' r' Hb Hrun;
    cbn [Sim.run_updates] in Hrun; [by simplify_eq|].
  apply bind_Some in Hrun as ([b1 r1] & Hupd & Hrest).
  eapply IH; [|exact Hrest]. by eapply reach_update.
Qed.

(** C8: a static branch is finished and all its children are static, and so
    is every branch below it; static is terminal: whatever the flags, the
    update calls that follow return the branch, with its whole subtree,
    as it was. *)
Theorem static_is_terminal (b : Sim.Branch) :
  reachable_branch b → Sim.static b = true →
  Sim.finished b = true
  ∧ Forall (λ c, Sim.static c = true) (Sim.children b)
  ∧ all_branches (λ s, Sim.static s = true ∧ Sim.finished s = true) b
  ∧ ∀ frames r, Sim.run_updates frames b r = Some (b, r).
Proof.
  intros Hreach Hstatic.
  pose proof (reachable_static_ok b Hreach) as Hall.
  destruct (all_branches_here _ _ Hall Hstatic) as [Hfin Hkids].
  split; [done|]. split; [done|]. split; [by apply static_subtree|].
  intros frames r. by apply run_updates_static.
Qed.

Lemma static_is_terminal_witness :
  ∃ b r',
    Sim.run_updates (replicate 21 true) twig half_rng = Some (b, r')
    ∧ Sim.static b = true
    ∧ Sim.finished b = true
    ∧ ∀ frames r, Sim.run_updates frames b r = Some (b, r).
Proof.
  destruct (run_updates_total (replicate 21 true) twig half_rng)
    as [[b r'] Hrun].
  assert (Hstatic : (λ x : Sim.Branch * Rand.Rng, Sim.static (fst x)) <$>
                    Sim.run_updates (replicate 21 true) twig half_rng
                    = Some true) by (vm_compute; reflexivity).
  rewrite Hrun in Hstatic. cbn in Hstatic. injection Hstatic as Hstatic.
  exists b, r'. split; [exact Hrun|]. split; [exact Hstatic|].
  destruct (static_is_terminal b) as (Hfin & _ & _ & Hstays).
  - eapply run_updates_reachable; [|exact Hrun]. apply reach_init.
  - exact Hstatic.
  - split; [exact Hfin|exact Hstays].
Defined.

(** ** Leaves *)

(* grow does nothing to an unfinished branch that has its full length and
   may not have children *)
Lemma grow_leaf_unchanged (b : Sim.Branch) (r : Rand.Rng) :
  ¬ (Sim.length b < Sim.target_length b)%Q →
  Sim.finished b = false →
  ((Sim.target_length b <= Sim.MIN_BRANCH_LENGTH)%Q
   ∨ (Sim.MAX_DEPTH ≤ Sim.depth b)%Z) →
  Sim.grow b r = (b, r).
Proof.
  intros Hfull Hfin Hleaf. unfold Sim.grow.
  rewrite decide_False by done.
  assert (Sim.may_spawn b = false) as ->.
  { unfold Sim.may_spawn. rewrite Hfin. cbn.
    destruct Hleaf as [Hshort|Hdeep].
    - rewrite (bool_decide_eq_false_2 (Sim.MIN_BRANCH_LENGTH < _)%Q);
        [apply andb_false_r|lra].
    - rewrite (bool_decide_eq_false_2 (_ < Sim.MAX_DEPTH)%Z); [done|lia]. }
  by rewrite Hfin.
Qed.

Lemma update_grown_leaf g r : Sim.update grown_leaf g r = Some (grown_leaf, r).
Proof. destruct g; vm_compute; reflexivity. Qed.

(** C3, on the code: a branch whose target length is MIN_BRANCH_LENGTH
    reaches its target after 18 growth frames; from then on every update
    returns it unchanged, so it is never marked finished and never static. *)
Theorem leaf_is_never_finished :
  (∀ r, Sim.run_updates (replicate 18 true) leaf_branch r
        = Some (grown_leaf, r))
  ∧ Sim.length grown_leaf = Sim.target_length grown_leaf
  ∧ (∀ frames r, Sim.run_updates frames grown_leaf r = Some (grown_leaf, r))
  ∧ Sim.finished grown_leaf = false
  ∧ Sim.static grown_leaf = false.
Proof.
  split; [intros r; vm_compute; reflexivity|].
  split; [reflexivity|].
  split; [|split; reflexivity].
  induction frames as [|g frames IH]; intros r; cbn [Sim.run_updates];
    [done|].
  rewrite update_grown_leaf. cbn. apply IH.
Qed.

(** C7, on the code: grow_branch_instantly on a branch at the minimum
    length sets the length and leaves the branch unfinished; on a branch of
    target 22.5, with draws of 0, it creates two children of target 18 that
    have their full length and are not finished. *)
Theorem instant_growth_leaves_unfinished :
  (∀ r, Sim.grow_branch_instantly leaf_branch r = Some (grown_leaf, r))
  ∧ Sim.finished grown_leaf = false
  ∧ (λ x : Sim.Branch * Rand.Rng,
       map (λ c, (Qeq_bool (Sim.length c) (Sim.target_length c),
                  Qeq_bool (Sim.target_length c) 18,
                  Sim.finished c))
           (Sim.children (fst x))) <$>
    Sim.grow_branch_instantly
      (Sim.Branch_init (400%R, 550%R) (- PI / 2)%R 22.5 1) zero_rng
    = Some [(true, true, false); (true, true, false)].
Proof.
  split; [intros r; vm_compute; reflexivity|].
  split; [reflexivity|].
  vm_compute. reflexivity.
Qed.

(** * Further properties of the layout *)

Section MoreTreeBuilding.
Context {K : Type} `{Countable K} {order : Layout.SetOrder K}.

Lemma link_targets_usable (nodes : list K) (p : K)
    (links : list (Layout.Link K)) :
  link_targets nodes p (filter (usable_link nodes) links)
  = link_targets nodes p links.
Proof.
  induction links as [|link links IH]; [done|].
  destruct (decide (usable_link nodes link)) as [Huse|Hbad].
  - rewrite filter_cons_True by done.
    rewrite (link_targets_cons nodes p link), (link_targets_cons nodes p link links).
    by rewrite IH.
  - rewrite filter_cons_False by done.
    rewrite (link_targets_cons nodes p link links), IH.
    unfold link_targets at 1. cbn.
    destruct (Layout.from link) as [a|] eqn:Ha; [|done].
    destruct (Layout.to link) as [c|] eqn:Hc; [|done].
    case_decide as Hk; [|done].
    exfalso. apply Hbad. exists a, c. tauto.
Qed.

(** X8: the tree structure has an entry for exactly the input nodes,
    whatever the links, and the links that lack a key or name an unknown
    node are dropped: the structure is the one built from the remaining
    links (the root argument plays no part). *)
Theorem build_tree_structure_drops_unusable_links (root root' : K)
    (nodes : list K) (links : list (Layout.Link K)) :
  dom (Layout.build_tree_structure root nodes links) = list_to_set nodes
  ∧ Layout.build_tree_structure root nodes links
    = Layout.build_tree_structure root' nodes
        (filter (usable_link nodes) links).
Proof.
  split.
  - apply set_eq. intros k.
    rewrite elem_of_dom, build_tree_structure_lookup, elem_of_list_to_set.
    case_decide as Hk; split; intros Hk'.
    + done.
    + by eexists.
    + by destruct Hk' as [? ?].
    + done.
  - apply map_eq. intros k. rewrite !build_tree_structure_lookup.
    by rewrite link_targets_usable.
Qed.

(** X1: [find_root_nodes] fails (the IndexError of [list(nodes.keys())[0]])
    exactly on an empty node collection; otherwise it returns a non-empty
    list of input nodes without repetition, which, as soon as some node has
    no incoming link, consists of exactly the nodes without incoming
    link. *)
Theorem find_root_nodes_result (nodes : list K) (links : list (Layout.Link K)) :
  (Layout.find_root_nodes nodes links = None ↔ nodes = [])
  ∧ ∀ roots,
      Layout.find_root_nodes nodes links = Some roots →
      roots ≠ [] ∧ NoDup roots ∧ (∀ k, k ∈ roots → k ∈ nodes)
      ∧ ((∃ k, k ∈ nodes ∧ k ∉ Layout.linked_to links) →
         ∀ k, k ∈ roots ↔ k ∈ nodes ∧ k ∉ Layout.linked_to links).
Proof.
  unfold Layout.find_root_nodes.
  destruct (Layout.set_to_list (list_to_set nodes ∖ Layout.linked_to links))
    as [|r rest] eqn:Hroots.
  - pose proof (set_to_list_nil _ Hroots) as Hnone. split.
    + destruct nodes; cbn; split; done.
    + intros roots Hsome. destruct nodes as [|n nodes]; [done|].
      cbn in Hsome. simplify_eq.
      split; [done|]. split; [apply NoDup_singleton|].
      split; [by intros k ->%list_elem_of_singleton; left|].
      intros (k & Hk & Hfree). exfalso. apply (Hnone k).
      apply elem_of_difference. split; [by apply elem_of_list_to_set|done].
  - split; [split; [done|]; intros ->|].
    { exfalso.
      assert (r ∈ (list_to_set [] ∖ Layout.linked_to links : gset K)) as Hr
        by (apply set_to_list_elem; rewrite Hroots; by left).
      apply elem_of_difference in Hr as [Hr _]. set_solver. }
    intros roots Hsome. simplify_eq.
    assert (Hmem : ∀ k, k ∈ r :: rest ↔ k ∈ nodes ∧ k ∉ Layout.linked_to links).
    { intros k. rewrite <- Hroots, set_to_list_elem, elem_of_difference.
      by rewrite elem_of_list_to_set. }
    split; [done|]. split.
    + rewrite <- Hroots, Layout.set_to_list_perm. apply NoDup_elements.
    + split; [by intros k [? _]%Hmem|]. by intros _.
Qed.

End MoreTreeBuilding.

Lemma find_root_nodes_result_witness :
  ∃ roots,
    Layout.find_root_nodes (order := elements_order) short_nodes short_links
      = Some roots
    ∧ roots ≠ [] ∧ NoDup roots
    ∧ ∀ k, k ∈ roots ↔ k ∈ short_nodes ∧ k ∉ Layout.linked_to short_links.
Proof.
  destruct (find_root_nodes_result (order := elements_order)
              short_nodes short_links) as [_ Hres].
  exists ["a"%string].
  assert (Hrun : Layout.find_root_nodes (order := elements_order)
                   short_nodes short_links = Some ["a"%string])
    by (vm_compute; reflexivity).
  destruct (Hres _ Hrun) as (Hne & Hnodup & _ & Hexact).
  split; [exact Hrun|]. split; [exact Hne|]. split; [exact Hnodup|].
  apply Hexact. exists "a"%string. split; [by left|].
  intros Hlinked. apply (bool_decide_eq_true_2 _) in Hlinked.
  vm_compute in Hlinked. discriminate Hlinked.
Defined.

Section MorePlacement.
Context {K : Type} `{Countable K}.
Variable self : Layout.Config.

Lemma place_nodes_recursively_dom fuel (ts : gmap K (list K)) depth node
    x y a L st st' :
  dom (Layout.node_positions st) = Layout.positioned_nodes st →
  Layout.place_nodes_recursively self fuel node ts x y a L depth st = Some st' →
  dom (Layout.node_positions st') = Layout.positioned_nodes st'.
Proof.
  apply (place_nodes_recursively_invariant self ts
           (λ st, dom (Layout.node_positions st) = Layout.positioned_nodes st)
           (λ _, True)); [|done|done].
  intros st1 c pos Hdom _ _. cbn. by rewrite dom_insert_L, Hdom.
Qed.

(** X5: a call of [place_nodes_recursively] returns; every node that was
    positioned before the call is still positioned after it, at the same
    position; and if the keys of node_positions were the positioned nodes
    before the call, they are after it. *)
Theorem place_nodes_recursively_keeps_positions (node : K)
    (ts : gmap K (list K)) (x y a : R) (L : Q) (depth : Z)
    (st : Layout.State K) :
  ∃ st',
    Layout.place_nodes_recursively self (Layout.fuel_for self depth) node ts
      x y a L depth st = Some st'
    ∧ (∀ k, k ∈ Layout.positioned_nodes st →
            k ∈ Layout.positioned_nodes st'
            ∧ Layout.node_positions st' !! k = Layout.node_positions st !! k)
    ∧ (dom (Layout.node_positions st) = Layout.positioned_nodes st →
       dom (Layout.node_positions st') = Layout.positioned_nodes st').
Proof.
  destruct (place_nodes_recursively_total self (Layout.fuel_for self depth)
              depth node ts x y a L st) as [st' Hrun].
  { unfold Layout.fuel_for. lia. }
  exists st'. split; [exact Hrun|]. split.
  - eapply place_nodes_recursively_extends; [apply extends_refl|exact Hrun].
  - intros Hdom. by eapply place_nodes_recursively_dom.
Qed.

(** Every positioned node is within max_depth links of the root. *)

Section Bounded.
Variable ts : gmap K (list K).
Variable root : K.

Abbreviation recursion :=
  (K → R → R → R → Q → Layout.State K → option (Layout.State K)).

Abbreviation bounded st :=
  (∀ k, k ∈ Layout.positioned_nodes st →
        root_or_within ts root (Layout.max_depth self) k).

Lemma place_children_bounded (recurse : recursion) (e : nat) node x y a L k :
  (Z.of_nat e + 1 < Layout.max_depth self)%Z →
  nsteps (Layout.child_of ts) e root node →
  (∀ c x y a l st st',
     nsteps (Layout.child_of ts) (S e) root c → bounded st →
     recurse c x y a l st = Some st' → bounded st') →
  ∀ cs i st st',
    (∀ c, c ∈ cs → Layout.child_of ts node c) → bounded st →
    Layout.place_children self recurse x y a L k i cs st = Some st' →
    bounded st'.
Proof.
  intros Hdepth Hnode Hrec cs.
  induction cs as [|c cs IH]; intros i st st' Hcs Hb Hrun.
  - cbn in Hrun. by simplify_eq.
  - rewrite place_children_cons in Hrun. case_decide as Hpos.
    + eapply IH; [|exact Hb|exact Hrun]. intros c' Hc'. apply Hcs. by right.
    + cbv zeta in Hrun. apply bind_Some in Hrun as (st1 & Hst1 & Hrest).
      assert (Hc : nsteps (Layout.child_of ts) (S e) root c).
      { eapply nsteps_r; [exact Hnode|]. apply Hcs. by left. }
      eapply IH; [|  |exact Hrest].
      * intros c' Hc'. apply Hcs. by right.
      * eapply Hrec; [exact Hc| |exact Hst1].
        intros k0 Hk0. cbn [Layout.positioned_nodes] in Hk0.
        apply elem_of_union in Hk0 as [->%elem_of_singleton|Hk0];
          [|by apply Hb].
        right. exists (S e). split; [lia|]. split; [lia|done].
Qed.

Lemma place_nodes_recursively_bounded fuel :
  ∀ (e : nat) node x y a L st st',
    nsteps (Layout.child_of ts) e root node → bounded st →
    Layout.place_nodes_recursively self fuel node ts x y a L
      (Z.of_nat e + 1) st = Some st' →
    bounded st'.
Proof.
  induction fuel as [|fuel IH]; intros e node x y a L st st' Hnode Hb Hrun;
    [done|].
  rewrite place_nodes_recursively_S in Hrun.
  case_decide as Hguard; [by simplify_eq|].
  cbv zeta in Hrun.
  destruct (default [] (ts !! node)) as [|c cs] eqn:Hkids; [by simplify_eq|].
  eapply (place_children_bounded _ e node); [lia|exact Hnode| | |exact Hb|exact Hrun].
  - intros c0 x0 y0 a0 l0 st0 st0' Hc0 Hb0 Hrun0. cbv beta in Hrun0.
    replace (Z.of_nat e + 1 + 1)%Z with (Z.of_nat (S e) + 1)%Z in Hrun0 by lia.
    by eapply IH.
  - intros c' Hc'. unfold Layout.child_of. by rewrite Hkids.
Qed.

End Bounded.

End MorePlacement.

Section MoreLayoutKeys.
Context {K : Type} `{Countable K} {order : Layout.SetOrder K}.
Variable self : Layout.Config.

Lemma reachable_known (root : K) (nodes : list K)
    (links : list (Layout.Link K)) (k : K) :
  root ∈ nodes →
  Layout.reachable (Layout.build_tree_structure root nodes links) root k →
  k ∈ nodes.
Proof.
  intros Hroot. unfold Layout.reachable.
  apply (rtc_ind_r (λ k, k ∈ nodes)); [done|].
  intros m c _ Hc _. unfold Layout.child_of in Hc.
  rewrite build_tree_structure_lookup in Hc.
  case_decide; cbn in Hc; [by eapply link_targets_known|].
  by apply elem_of_nil in Hc.
Qed.

(** X2: [layout_tree] always returns a mapping, and every key of it is a
    node of the input: an id that only occurs in links never gets a
    position, and there are at most as many entries as nodes. *)
Theorem layout_tree_keys_are_nodes (nodes : list K)
    (links : list (Layout.Link K)) (root_x root_y : R) (rng0 : Rand.Rng) :
  ∃ m,
    Layout.layout_tree self nodes links root_x root_y rng0 = Some m
    ∧ (∀ k, k ∈ dom m → k ∈ nodes)
    ∧ (size m ≤ List.length nodes)%nat.
Proof.
  destruct nodes as [|n nodes].
  { exists ∅. split; [done|]. split; [|by rewrite map_size_empty].
    intros k. rewrite dom_empty_L. by intros ?%elem_of_empty. }
  destruct (layout_tree_spec self (n :: nodes) links root_x root_y rng0)
    as (root & m & Hroot & Hm & _ & Hsound & _); [done|].
  destruct (layout_root_spec (n :: nodes) links) as (root' & Hroot' & Hin & _);
    [done|].
  simplify_eq.
  assert (Hkeys : ∀ k, k ∈ dom m → k ∈ n :: nodes).
  { intros k Hk. eapply reachable_known; [exact Hin|]. by apply Hsound. }
  exists m. split; [exact Hm|]. split; [exact Hkeys|].
  rewrite <- size_dom.
  etrans; [|apply (size_list_to_set_le (n :: nodes))].
  apply subseteq_size. intros k Hk. apply elem_of_list_to_set. by apply Hkeys.
Qed.

(** X3: a single node is laid out at the origin and nowhere else, whatever
    the links (self loops and links to unknown ids included) and whatever
    the parameters. *)
Theorem layout_tree_single_node (n : K) (links : list (Layout.Link K))
    (root_x root_y : R) (rng0 : Rand.Rng) :
  Layout.layout_tree self [n] links root_x root_y rng0
  = Some {[ n := (root_x, root_y) ]}.
Proof.
  destruct (layout_tree_spec self [n] links root_x root_y rng0)
    as (root & m & Hroot & Hm & Hpos & Hsound & _); [done|].
  destruct (layout_root_spec [n] links) as (root' & Hroot' & Hin & _); [done|].
  simplify_eq. apply list_elem_of_singleton in Hin as ->.
  rewrite Hm. f_equal. apply map_eq. intros k.
  destruct (decide (k = n)) as [->|Hne].
  - by rewrite Hpos, lookup_singleton_eq.
  - rewrite lookup_singleton_ne by done.
    apply not_elem_of_dom. intros Hk. apply Hne.
    apply list_elem_of_singleton.
    eapply reachable_known; [by left|]. by apply Hsound.
Qed.

(** X4: every key of the layout other than the root is reached from the
    root by a path of at least one and fewer than max_depth links; with
    max_depth at most 1 only the root is laid out. *)
Theorem layout_tree_within_max_depth (nodes : list K)
    (links : list (Layout.Link K)) (root_x root_y : R) (rng0 : Rand.Rng) :
  nodes ≠ [] →
  ∃ root m,
    Layout.layout_root nodes links = Some root
    ∧ Layout.layout_tree self nodes links root_x root_y rng0 = Some m
    ∧ (∀ k, k ∈ dom m →
         root_or_within (Layout.build_tree_structure root nodes links) root
           (Layout.max_depth self) k)
    ∧ ((Layout.max_depth self ≤ 1)%Z → m = {[ root := (root_x, root_y) ]}).
Proof.
  intros Hne.
  destruct (layout_root_spec nodes links Hne) as (root & Hroot & Hin & _).
  destruct (layout_tree_nonempty self nodes links root_x root_y rng0 root
              Hne Hroot) as (bl & Hbl & Hlayout).
  set (ts := Layout.build_tree_structure root nodes links) in *.
  set (st0 := Layout.mkState {[root]} {[root := (root_x, root_y)]} rng0) in *.
  destruct (place_nodes_recursively_total self (Layout.fuel_for self 1) 1 root
              ts root_x root_y (- PI / 2)%R (inject_Z bl) st0) as [st' Hrun].
  { unfold Layout.fuel_for. lia. }
  rewrite Hrun in Hlayout. cbn in Hlayout.
  exists root, (Layout.node_positions st').
  split; [done|]. split; [done|].
  assert (Hdom : dom (Layout.node_positions st') = Layout.positioned_nodes st').
  { eapply place_nodes_recursively_dom; [|exact Hrun]. cbn.
    apply dom_singleton_L. }
  assert (Hbounded : ∀ k, k ∈ dom (Layout.node_positions st') →
            root_or_within ts root (Layout.max_depth self) k).
  { intros k Hk. rewrite Hdom in Hk. revert k Hk.
    eapply (place_nodes_recursively_bounded self ts root _ 0%nat);
      [apply nsteps_O| |exact Hrun].
    intros k Hk. cbn in Hk. apply elem_of_singleton in Hk as ->. by left. }
  split; [exact Hbounded|].
  intros Hshallow. apply map_eq. intros k.
  eapply place_nodes_recursively_extends in Hrun as Hext;
    [|apply extends_refl].
  destruct (decide (k = root)) as [->|Hk].
  - destruct (Hext root) as [_ ->]; [by apply elem_of_singleton|]. done.
  - rewrite lookup_singleton_ne by done.
    apply not_elem_of_dom. intros Hin'.
    destruct (Hbounded k Hin') as [->|(n & Hn1 & Hn & _)]; [done|lia].
Qed.

End MoreLayoutKeys.

Lemma layout_tree_within_max_depth_witness :
  ∃ root m,
    Layout.layout_root (order := elements_order) short_nodes short_links
      = Some root
    ∧ Layout.layout_tree (order := elements_order)
        (Layout.mkConfig (Layout.radians 35) 0.85 30 1)
        short_nodes short_links 600 650 half_rng = Some m
    ∧ m = {[ root := (600%R, 650%R) ]}.
Proof.
  destruct (layout_tree_within_max_depth (order := elements_order)
              (Layout.mkConfig (Layout.radians 35) 0.85 30 1)
              short_nodes short_links 600 650 half_rng)
    as (root & m & Hroot & Hm & _ & Hshallow); [discriminate|].
  exists root, m. split; [exact Hroot|]. split; [exact Hm|].
  apply Hshallow. cbn. lia.
Defined.

Lemma place_nodes_recursively_keeps_positions_witness :
  ∃ st',
    Layout.place_nodes_recursively Layout.default_config
      (Layout.fuel_for Layout.default_config 1) "a"%string
      {[ "a"%string := ["b"%string] ]} 600 650 (- PI / 2)%R 100 1
      (Layout.mkState {[ "a"%string ]} {[ "a"%string := (600%R, 650%R) ]}
         half_rng) = Some st'
    ∧ Layout.node_positions st' !! "a"%string = Some (600%R, 650%R)
    ∧ dom (Layout.node_positions st') = Layout.positioned_nodes st'.
Proof.
  destruct (place_nodes_recursively_keeps_positions Layout.default_config
              "a"%string {[ "a"%string := ["b"%string] ]} 600 650
              (- PI / 2)%R 100 1
              (Layout.mkState {[ "a"%string ]}
                 {[ "a"%string := (600%R, 650%R) ]} half_rng))
    as (st' & Hrun & Hkeep & Hdom).
  exists st'. split; [exact Hrun|]. split.
  - destruct (Hkeep "a"%string) as [_ ->]; cbn.
    + by apply elem_of_singleton.
    + apply lookup_singleton_eq.
  - apply Hdom. cbn. apply dom_singleton_L.
Defined.

Section ChildDirections.
Context {K : Type} `{Countable K}.
Variable self : Layout.Config.

(** X6: in a call of place_nodes_recursively that passes the guards, with
    a non-negative branch_angle, the child reached first at index i is
    placed in a direction within branch_angle of the parent's angle; with
    more than one entry the first entry is at -branch_angle and the last
    at +branch_angle. *)
Theorem child_angle_within_branch_angle (node : K) (ts : gmap K (list K))
    (x y a : R) (L : Q) (depth : Z) (st : Layout.State K) (cs : list K)
    (i : nat) (c : K) :
  (0 <= Layout.branch_angle self)%R →
  (depth < Layout.max_depth self)%Z →
  (Layout.min_branch_length self <= L)%Q →
  ts !! node = Some cs → first_reached_at ts cs i c →
  c ∉ Layout.positioned_nodes st →
  ∃ st' δ,
    Layout.place_nodes_recursively self (Layout.fuel_for self depth) node ts
      x y a L depth st = Some st'
    ∧ Layout.node_positions st' !! c = Some (polar x y L (a + δ))
    ∧ (- Layout.branch_angle self <= δ <= Layout.branch_angle self)%R
    ∧ ((1 < List.length cs)%nat → i = 0%nat →
       δ = (- Layout.branch_angle self)%R)
    ∧ ((1 < List.length cs)%nat → S i = List.length cs →
       δ = Layout.branch_angle self).
Proof.
  intros Hba Hdepth Hlen Hts Hfirst Hfresh.
  destruct (place_nodes_recursively_child self node ts x y a L depth st cs i c)
    as (st' & Hrun & Hpos); try done.
  exists st', (spread_offset self (List.length cs) i).
  split; [exact Hrun|]. split; [exact Hpos|].
  destruct Hfirst as [Hi _]. apply lookup_lt_Some in Hi.
  set (k := List.length cs) in *. unfold spread_offset.
  case_decide as Hk; [split; [lra|]; split; intros; lia|].
  assert (1 < INR k)%R as Hk1 by (apply lt_1_INR; lia).
  assert (0 <= INR i)%R as Hi0 by apply pos_INR.
  assert (INR i <= INR k - 1)%R as Hik.
  { replace (INR k - 1)%R with (INR (k - 1)).
    - apply le_INR. lia.
    - rewrite minus_INR by lia. done. }
  set (d := (INR k - 1)%R) in *.
  assert (0 < d)%R as Hd by (unfold d; lra).
  assert (0 <= INR i / d)%R as Hq0.
  { apply Rmult_le_pos; [done|]. left. by apply Rinv_0_lt_compat. }
  assert (INR i / d <= 1)%R as Hq1.
  { apply (Rmult_le_reg_r d); [done|]. unfold Rdiv.
    rewrite Rmult_assoc, Rinv_l by lra. lra. }
  split; [split; nra|]. split.
  - intros _ ->. cbn [INR]. unfold Rdiv. lra.
  - intros _ Hlast. replace (INR i) with d.
    + replace (d / d)%R with 1%R by (field; lra). lra.
    + unfold d. rewrite <- Hlast, S_INR. lra.
Qed.

End ChildDirections.

Lemma child_angle_within_branch_angle_witness :
  ∃ st' δ,
    Layout.place_nodes_recursively Layout.default_config
      (Layout.fuel_for Layout.default_config 1) "a"%string
      {[ "a"%string := ["b"; "c"; "d"]%string ]} 600 650 (- PI / 2)%R 100 1
      (Layout.mkState {[ "a"%string ]} {[ "a"%string := (600%R, 650%R) ]}
         half_rng) = Some st'
    ∧ Layout.node_positions st' !! "b"%string
      = Some (polar 600 650 100 (- PI / 2 + δ))
    ∧ δ = (- Layout.radians 35)%R.
Proof.
  destruct (child_angle_within_branch_angle Layout.default_config "a"%string
              {[ "a"%string := ["b"; "c"; "d"]%string ]} 600 650
              (- PI / 2)%R 100 1
              (Layout.mkState {[ "a"%string ]}
                 {[ "a"%string := (600%R, 650%R) ]} half_rng)
              ["b"; "c"; "d"]%string 0 "b"%string)
    as (st' & δ & Hrun & Hpos & _ & Hfirst & _).
  - cbn. unfold Layout.radians. pose proof PI_RGT_0. lra.
  - cbn. lia.
  - unfold Qle. cbn. lia.
  - apply lookup_singleton_eq.
  - split; [reflexivity|]. intros j c' Hj. lia.
  - cbn. by intros ?%elem_of_singleton.
  - exists st', δ. split; [exact Hrun|]. split; [exact Hpos|].
    apply Hfirst; [cbn; lia|done].
Defined.

Lemma polar_distance (x y l t : R) :
  ((x + l * cos t - x) ^ 2 + (y + l * sin t - y) ^ 2 = l ^ 2)%R.
Proof.
  pose proof (sin2_cos2 t) as Hunit. unfold Rsqr in Hunit.
  transitivity (l ^ 2 * (sin t * sin t + cos t * cos t))%R; [ring|].
  rewrite Hunit. ring.
Qed.

Section ParentDistance.
Context {K : Type} `{Countable K}.
Variable self : Layout.Config.
Variable ts : gmap K (list K).
Variable root : K.
Variable top : Q.
Variable shrinking : Prop.

Hypothesis shrinking_factor :
  shrinking → (0 <= Layout.min_branch_length self)%Q
              ∧ (Layout.branch_factor self <= 1)%Q.

Abbreviation recursion :=
  (K → R → R → R → Q → Layout.State K → option (Layout.State K)).

(* every positioned node other than the root hangs on a positioned parent,
   at a distance between min_branch_length and top *)
Abbreviation hanging st :=
  (dom (Layout.node_positions st) = Layout.positioned_nodes st
   ∧ (shrinking → Rand.unit_draws (Layout.rng st))
   ∧ ∀ k, k ∈ Layout.positioned_nodes st → k ≠ root →
       ∃ l, parent_distance ts (Layout.node_positions st) k l
            ∧ (Layout.min_branch_length self <= l)%Q
            ∧ (shrinking → (l <= top)%Q)).

Lemma parent_distance_extends (st st' : Layout.State K) (k : K) (l : Q) :
  dom (Layout.node_positions st) = Layout.positioned_nodes st →
  extends st st' →
  parent_distance ts (Layout.node_positions st) k l →
  parent_distance ts (Layout.node_positions st') k l.
Proof.
  intros Hdom Hext (p & ppos & pos & Hchild & Hp & Hk & Hdist).
  exists p, ppos, pos. split; [done|].
  destruct (Hext p) as [_ ->]; [rewrite <- Hdom; by apply elem_of_dom_2 in Hp|].
  destruct (Hext k) as [_ ->]; [rewrite <- Hdom; by apply elem_of_dom_2 in Hk|].
  done.
Qed.

Lemma uniform_factor_le (r : Rand.Rng) :
  Rand.unit_draws r → (Layout.branch_factor self <= 1)%Q →
  (fst (Rand.uniform 0.8 (Layout.branch_factor self) r) <= 1)%Q.
Proof.
  intros Hunit Hbf. unfold Rand.uniform, Rand.random. cbn.
  destruct (Hunit (Rand.cursor r)) as [H0 H1]. nra.
Qed.

Lemma place_children_hanging (recurse : recursion) node x y a L k :
  (Layout.min_branch_length self <= L)%Q → (shrinking → (L <= top)%Q) →
  (∀ c x y a l st st',
     hanging st → Layout.node_positions st !! c = Some (x, y) →
     (shrinking → (l <= top)%Q) →
     recurse c x y a l st = Some st' → hanging st' ∧ extends st st') →
  ∀ cs i st st',
    (∀ c, c ∈ cs → Layout.child_of ts node c) →
    hanging st → Layout.node_positions st !! node = Some (x, y) →
    Layout.place_children self recurse x y a L k i cs st = Some st' →
    hanging st' ∧ extends st st'.
Proof.
  intros Hmin Htop Hrec cs.
  induction cs as [|c cs IH]; intros i st st' Hcs Hhang Hnode Hrun.
  - cbn in Hrun. simplify_eq. split; [done|apply extends_refl].
  - rewrite place_children_cons in Hrun. case_decide as Hpos.
    + eapply IH; [|done|done|exact Hrun]. intros c' Hc'. apply Hcs. by right.
    + cbv zeta in Hrun. apply bind_Some in Hrun as (st1 & Hst1 & Hrest).
      destruct Hhang as (Hdom & Hunit & Hhang).
      set (end_x := (x + Q2R L * cos (a + Layout.delta self k i))%R) in *.
      set (end_y := (y + Q2R L * sin (a + Layout.delta self k i))%R) in *.
      set (placed := Layout.mkState ({[c]} ∪ Layout.positioned_nodes st)
                       (<[c := (end_x, end_y)]> (Layout.node_positions st))
                       (snd (Rand.uniform 0.8 (Layout.branch_factor self)
                               (Layout.rng st)))) in *.
      assert (Hext0 : extends st placed).
      { apply extends_place; [apply extends_refl|done]. }
      assert (Hnc : node ≠ c).
      { intros ->. apply Hpos. rewrite <- Hdom. by apply elem_of_dom_2 in Hnode. }
      assert (Hplaced : hanging placed).
      { split; [cbn; by rewrite dom_insert_L, Hdom|]. split; [exact Hunit|].
        intros k0 Hk0 Hroot. cbn [Layout.positioned_nodes placed] in Hk0.
        apply elem_of_union in Hk0 as [->%elem_of_singleton|Hk0].
        - exists L. split; [|done].
          exists node, (x, y), (end_x, end_y). split; [apply Hcs; by left|].
          cbn [Layout.node_positions placed].
          rewrite lookup_insert_ne by done. rewrite lookup_insert_eq.
          split; [done|]. split; [done|]. apply polar_distance.
        - destruct (Hhang k0 Hk0 Hroot) as (l & Hl & Hbounds).
          exists l. split; [|done]. by eapply parent_distance_extends. }
      destruct (Hrec c end_x end_y (a + Layout.delta self k i)%R
                  (L * fst (Rand.uniform 0.8 (Layout.branch_factor self)
                              (Layout.rng st)))%Q placed st1)
        as [Hhang1 Hext1]; [done|apply lookup_insert_eq| |exact Hst1|].
      { intros Hs. destruct (shrinking_factor Hs) as [Hmin0 Hbf].
        pose proof (uniform_factor_le (Layout.rng st) (Hunit Hs) Hbf).
        specialize (Htop Hs). nra. }
      destruct (IH (S i) st1 st') as [Hhang' Hext']; [| | |exact Hrest|].
      * intros c' Hc'. apply Hcs. by right.
      * done.
      * destruct (Hext1 node) as [_ ->].
        -- apply Hext0. rewrite <- Hdom. by apply elem_of_dom_2 in Hnode.
        -- destruct (Hext0 node) as [_ ->]; [|done].
           rewrite <- Hdom. by apply elem_of_dom_2 in Hnode.
      * split; [done|]. intros k0 Hk0.
        destruct (Hext0 k0 Hk0) as [Hk1 Heq1].
        destruct (Hext1 k0 Hk1) as [Hk2 Heq2].
        destruct (Hext' k0 Hk2) as [Hk3 Heq3].
        split; [done|]. congruence.
Qed.

Lemma place_nodes_recursively_hanging fuel :
  ∀ depth node x y a L st st',
    hanging st → Layout.node_positions st !! node = Some (x, y) →
    (shrinking → (L <= top)%Q) →
    Layout.place_nodes_recursively self fuel node ts x y a L depth st
      = Some st' →
    hanging st' ∧ extends st st'.
Proof.
  induction fuel as [|fuel IH]; intros depth node x y a L st st' Hhang Hnode
    Htop Hrun; [done|].
  rewrite place_nodes_recursively_S in Hrun.
  case_decide as Hguard; [simplify_eq; split; [done|apply extends_refl]|].
  cbv zeta in Hrun.
  destruct (default [] (ts !! node)) as [|c cs] eqn:Hkids;
    [simplify_eq; split; [done|apply extends_refl]|].
  eapply (place_children_hanging _ node); [| | | | | |exact Hrun]; try done.
  - apply Qnot_lt_le. intros Hlt. apply Hguard. by right.
  - intros c0 x0 y0 a0 l0 st0 st0' Hh0 Hn0 Ht0 Hrun0. cbv beta in Hrun0.
    by eapply IH.
  - intros c' Hc'. unfold Layout.child_of. by rewrite Hkids.
Qed.

End ParentDistance.

Section LayoutDistances.
Context {K : Type} `{Countable K} {order : Layout.SetOrder K}.
Variable self : Layout.Config.

Lemma layout_tree_base_length (nodes : list K) (links : list (Layout.Link K))
    x y rng0 root :
  nodes ≠ [] → Layout.layout_root nodes links = Some root →
  ∃ base_length base_spacing : Z,
    Layout.calculate_dynamic_parameters (Z.of_nat (List.length nodes))
    = Some (base_length, base_spacing)
    ∧ Layout.layout_tree self nodes links x y rng0 =
        st' ← Layout.place_nodes_recursively self (Layout.fuel_for self 1)
                root (Layout.build_tree_structure root nodes links) x y
                (- PI / 2)%R (inject_Z base_length) 1
                (Layout.mkState {[root]} {[root := (x, y)]} rng0);
        Some (Layout.node_positions st').
Proof.
  intros Hne Hroot. unfold Layout.layout_tree.
  destruct nodes as [|n nodes]; [done|].
  unfold Layout.layout_root in Hroot.
  destruct (Layout.find_root_nodes (n :: nodes) links) as [roots|]; [|done].
  cbn in Hroot.
  destruct (Layout.calculate_dynamic_parameters _) as [[bl bs]|] eqn:Hparams.
  - exists bl, bs. split; [done|]. cbn [mbind option_bind].
    by rewrite Hroot.
  - rewrite calculate_dynamic_parameters_eq in Hparams.
    repeat case_decide; discriminate Hparams.
Qed.

(** X9: in the layout of a non-empty node collection every key other than
    the root lies at a distance l from a key that links to it in the tree
    structure, with l at least min_branch_length; when min_branch_length is
    not negative, branch_factor is at most 1 and the random draws are in
    [0, 1), l is at most the base length that calculate_dynamic_parameters
    gives for the number of nodes. *)
Theorem layout_tree_parent_distance (nodes : list K)
    (links : list (Layout.Link K)) (root_x root_y : R) (rng0 : Rand.Rng) :
  nodes ≠ [] →
  ∃ root m base_length base_spacing,
    Layout.layout_root nodes links = Some root
    ∧ Layout.layout_tree self nodes links root_x root_y rng0 = Some m
    ∧ Layout.calculate_dynamic_parameters (Z.of_nat (List.length nodes))
      = Some (base_length, base_spacing)
    ∧ ∀ k, k ∈ dom m → k ≠ root →
        ∃ l,
          parent_distance (Layout.build_tree_structure root nodes links) m k l
          ∧ (Layout.min_branch_length self <= l)%Q
          ∧ ((0 <= Layout.min_branch_length self)%Q →
             (Layout.branch_factor self <= 1)%Q → Rand.unit_draws rng0 →
             (l <= inject_Z base_length)%Q).
Proof.
  intros Hne.
  destruct (layout_root_spec nodes links Hne) as (root & Hroot & Hin & _).
  destruct (layout_tree_base_length nodes links root_x root_y rng0 root
              Hne Hroot) as (bl & bs & Hparams & Hlayout).
  set (ts := Layout.build_tree_structure root nodes links) in *.
  set (st0 := Layout.mkState {[root]} {[root := (root_x, root_y)]} rng0) in *.
  destruct (place_nodes_recursively_total self (Layout.fuel_for self 1) 1 root
              ts root_x root_y (- PI / 2)%R (inject_Z bl) st0) as [st' Hrun].
  { unfold Layout.fuel_for. lia. }
  rewrite Hrun in Hlayout. cbn in Hlayout.
  exists root, (Layout.node_positions st'), bl, bs.
  split; [done|]. split; [done|]. split; [done|].
  set (shrinking := (0 <= Layout.min_branch_length self)%Q
                    ∧ (Layout.branch_factor self <= 1)%Q
                    ∧ Rand.unit_draws rng0).
  destruct (place_nodes_recursively_hanging self ts root (inject_Z bl)
              shrinking) with (fuel := Layout.fuel_for self 1) (depth := 1%Z)
      (node := root) (x := root_x) (y := root_y) (a := (- PI / 2)%R)
      (L := inject_Z bl) (st := st0) (st' := st')
    as [(Hdom & _ & Hhang) _].
  - intros (? & ? & _). done.
  - split; [cbn; apply dom_singleton_L|]. split; [by intros (_ & _ & ?)|].
    intros k Hk Hne'. cbn in Hk. by apply elem_of_singleton in Hk.
  - apply lookup_singleton_eq.
  - intros _. apply Qle_refl.
  - exact Hrun.
  - intros k Hk Hne'. rewrite Hdom in Hk.
    destruct (Hhang k Hk Hne') as (l & Hl & Hmin & Htop).
    exists l. split; [done|]. split; [done|].
    intros H0 Hbf Hunit. by apply Htop.
Qed.

End LayoutDistances.

Lemma layout_tree_parent_distance_witness :
  ∃ root m,
    Layout.layout_root (order := elements_order) short_nodes short_links
      = Some root
    ∧ Layout.layout_tree (order := elements_order) Layout.default_config
        short_nodes short_links 600 650 half_rng = Some m
    ∧ ∀ k, k ∈ dom m → k ≠ root →
        ∃ l,
          parent_distance
            (Layout.build_tree_structure root short_nodes short_links) m k l
          ∧ (30 <= l)%Q ∧ (l <= 100)%Q.
Proof.
  destruct (layout_tree_parent_distance (order := elements_order)
              Layout.default_config short_nodes short_links 600 650 half_rng)
    as (root & m & bl & bs & Hroot & Hm & Hparams & Hdist); [discriminate|].
  exists root, m. split; [exact Hroot|]. split; [exact Hm|].
  intros k Hk Hne.
  destruct (Hdist k Hk Hne) as (l & Hl & Hmin & Htop).
  exists l. split; [exact Hl|]. split; [exact Hmin|].
  vm_compute in Hparams. injection Hparams as <- <-.
  apply Htop.
  - unfold Qle. cbn. lia.
  - unfold Qle. cbn. lia.
  - exact half_rng_unit_draws.
Defined.

(** X7: [calculate_dynamic_parameters] returns a base length between 100
    and 180 and a base spacing between 60 and 120, the spacing below the
    length; for non-negative counts neither decreases when the count
    grows. *)
Theorem calculate_dynamic_parameters_monotone (n m : Z) :
  ∃ bl bs bl' bs',
    Layout.calculate_dynamic_parameters n = Some (bl, bs)
    ∧ Layout.calculate_dynamic_parameters m = Some (bl', bs')
    ∧ (100 ≤ bl ≤ 180)%Z ∧ (60 ≤ bs ≤ 120)%Z ∧ (bs < bl)%Z
    ∧ ((0 ≤ n ≤ m)%Z → (bl ≤ bl')%Z ∧ (bs ≤ bs')%Z).
Proof.
  rewrite !calculate_dynamic_parameters_eq.
  repeat case_decide; do 4 eexists;
    (split; [reflexivity|]); (split; [reflexivity|]); lia.
Qed.

Lemma calculate_dynamic_parameters_monotone_witness :
  ∃ bl bs bl' bs',
    Layout.calculate_dynamic_parameters 8 = Some (bl, bs)
    ∧ Layout.calculate_dynamic_parameters 40 = Some (bl', bs')
    ∧ (bl ≤ bl')%Z ∧ (bs ≤ bs')%Z.
Proof.
  destruct (calculate_dynamic_parameters_monotone 8 40)
    as (bl & bs & bl' & bs' & Hn & Hm & _ & _ & _ & Hmono).
  exists bl, bs, bl', bs'. split; [exact Hn|]. split; [exact Hm|].
  apply Hmono. lia.
Defined.

(** * Further properties of the simulation *)


(** X10: the end point that [get_end] returns lies at distance length from
    the start of the branch. *)
Theorem get_end_distance (b : Sim.Branch) :
  ((fst (Sim.get_end b) - fst (Sim.start b)) ^ 2
   + (snd (Sim.get_end b) - snd (Sim.start b)) ^ 2
   = Q2R (Sim.length b) ^ 2)%R.
Proof.
  unfold Sim.get_end. cbn [fst snd]. apply polar_distance.
Qed.


(** ** Growth only adds to a tree *)

Lemma grow_grown (b : Sim.Branch) (r : Rand.Rng) :
  same_geometry b (fst (Sim.grow b r))
  ∧ (Sim.length b <= Sim.length (fst (Sim.grow b r)))%Q
  ∧ (Sim.finished b = true → Sim.finished (fst (Sim.grow b r)) = true)
  ∧ (Sim.static b = true → Sim.static (fst (Sim.grow b r)) = true).
Proof.
  unfold Sim.grow, same_geometry.
  case_decide as Hgrowing.
  - unfold Sim.GROWTH_SPEED. case_decide; cbn; repeat split; try done; lra.
  - destruct (Sim.may_spawn b) eqn:Hspawn.
    + destruct (Rand.choice 2%nat [3%nat] r) as [n r1].
      destruct (Sim.spawn_children _ _ n _ r1) as [kids r2].
      destruct (_ && _); cbn; repeat split; try done; lra.
    + destruct (_ && _); cbn; repeat split; try done; lra.
Qed.

Lemma grown_from_refl (b : Sim.Branch) : grown_from b b.
Proof.
  revert b. apply Branch_induction. intros b IH.
  apply (grown_from_intro b b (Sim.children b) []); try done.
  - lra.
  - by rewrite app_nil_r.
  - by apply Forall_Forall2_diag.
Qed.


Lemma update_children_Forall2 (Rel : Sim.Branch → Sim.Branch → Prop)
    (update : Sim.Branch → Rand.Rng → option (Sim.Branch * Rand.Rng)) cs :
  (∀ c r c' r', update c r = Some (c', r') → Rel c c') →
  ∀ r kids r',
    Sim.update_children update cs r = Some (kids, r') → Forall2 Rel cs kids.
Proof.
  intros Hupd. induction cs as [|c cs IH]; intros r kids r' Hrun.
  - cbn in Hrun. simplify_eq. constructor.
  - cbn in Hrun.
    destruct (update c r) as [[c' r1]|] eqn:Hc'; [|done]. cbn in Hrun.
    destruct (Sim.update_children update cs r1) as [[cs' r2]|] eqn:Hcs';
      [|done].
    cbn in Hrun. simplify_eq. constructor; [by eapply Hupd|by eapply IH].
Qed.

Lemma update_fuel_grown fuel :
  ∀ b g r b' r', Sim.update_fuel fuel b g r = Some (b', r') → grown_from b b'.
Proof.
  induction fuel as [|fuel IH]; intros b g r b' r' Hrun; [done|].
  rewrite update_fuel_S in Hrun.
  destruct (Sim.static b) eqn:Hstatic.
  { simplify_eq. apply grown_from_refl. }
  set (grown := if g then Sim.grow b r else (b, r)) in *.
  assert (Hgrown : same_geometry b (fst grown)
                   ∧ (Sim.length b <= Sim.length (fst grown))%Q
                   ∧ (Sim.finished b = true → Sim.finished (fst grown) = true)
                   ∧ (Sim.static b = true → Sim.static (fst grown) = true)).
  { destruct g; [apply grow_grown|]. cbn. repeat split; try done. lra. }
  assert (Hkids : ∃ new, Sim.children (fst grown) = Sim.children b ++ new).
  { destruct g; [|exists []; by rewrite app_nil_r].
    destruct (grow_children b r) as (new & Hnew & _). by exists new. }
  destruct Hgrown as (Hgeo & Hlen & Hfin & Hst). destruct Hkids as [new Hnew].
  apply bind_Some in Hrun as ([kids r1] & Hupd & Hret). simplify_eq.
  apply (update_children_Forall2 grown_from) in Hupd;
    [|intros c r0 c' r0'; apply IH].
  rewrite Hnew in Hupd.
  apply Forall2_app_inv_l in Hupd as (k1 & k2 & Hk1 & _ & ->).
  by apply (grown_from_intro b _ k1 k2).
Qed.



Lemma count_branch_ends_unfold (b : Sim.Branch) :
  Sim.count_branch_ends b =
    match Sim.children b with
    | [] => 1%nat
    | _ => sum_branch_ends (Sim.children b)
    end.
Proof. by destruct b as [s a l t d f [|c cs] st]. Qed.





(** ** The shape of a growing tree *)

Lemma choice_2_3 (r : Rand.Rng) :
  (fst (Rand.choice 2%nat [3%nat] r) ≤ 3)%nat.
Proof.
  unfold Rand.choice. cbn [fst List.length].
  pose proof (Nat.mod_upper_bound (Rand.below_at r (Rand.cursor r)) 2
                ltac:(lia)) as Hmod.
  destruct (Rand.below_at r (Rand.cursor r) mod 2)%nat as [|[|n]]; cbn; lia.
Qed.

Lemma spawn_children_shape self end_ n :
  ∀ kids r, ∃ new,
    fst (Sim.spawn_children self end_ n kids r) = kids ++ new
    ∧ (List.length new ≤ n)%nat
    ∧ Forall (λ c, Sim.start c = end_
                   ∧ Sim.depth c = (Sim.depth self + 1)%Z
                   ∧ (Sim.MIN_BRANCH_LENGTH <= Sim.target_length c)%Q
                   ∧ (Sim.depth self = 1%Z → Sim.angle c = Sim.angle self))
             new.
Proof.
  induction n as [|n IH]; intros kids r; cbn.
  - exists []. rewrite app_nil_r. split; [done|]. split; [done|constructor].
  - destruct (Sim.draw_child self r) as [[delta new_length] r'] eqn:Hdraw.
    case_decide as Hlong.
    + destruct (IH (kids ++ [Sim.Branch_init end_ (Sim.angle self + delta)%R
                                new_length (Sim.depth self + 1)]) r')
        as (new & -> & Hlen & Hnew).
      eexists (_ :: new). rewrite <- app_assoc. split; [reflexivity|].
      split; [cbn; lia|].
      constructor; [|done]. cbn. repeat split; try done.
      intros Hd. unfold Sim.draw_child in Hdraw. rewrite Hd in Hdraw.
      cbn in Hdraw. simplify_eq. apply Rplus_0_r.
    + destruct (IH kids r') as (new & -> & Hlen & Hnew).
      exists new. split; [done|]. split; [lia|done].
Qed.

Lemma fully_grown_end_same (b b' : Sim.Branch) :
  same_geometry b b' → fully_grown_end b' = fully_grown_end b.
Proof.
  intros (Hs & Ha & Ht & _). unfold fully_grown_end. by rewrite Hs, Ha, Ht.
Qed.

Lemma child_of_branch_same (b b' c c' : Sim.Branch) :
  same_geometry b b' → same_geometry c c' →
  child_of_branch b c → child_of_branch b' c'.
Proof.
  intros Hb Hc (Hstart & Hdepth & Hmax & Hmin & Hangle).
  pose proof (fully_grown_end_same b b' Hb) as Hend.
  destruct Hb as (Hs & Ha & Ht & Hd). destruct Hc as (Hs' & Ha' & Ht' & Hd').
  unfold child_of_branch. rewrite Hend, Hs', Ha', Ht', Hd', Ha, Hd.
  done.
Qed.

Lemma grow_well_shaped (b : Sim.Branch) (r : Rand.Rng) :
  well_shaped b → len_ok b → well_shaped (fst (Sim.grow b r)).
Proof.
  intros (Hleaf & Hthree & Hkids) [H0 Hle].
  pose proof (grow_grown b r) as (Hgeo & _).
  assert (Hold : Forall (child_of_branch (fst (Sim.grow b r))) (Sim.children b)).
  { eapply Forall_impl; [exact Hkids|]. intros c Hc.
    eapply child_of_branch_same; [exact Hgeo| |exact Hc]. done. }
  revert Hgeo Hold. unfold Sim.grow.
  case_decide as Hgrowing.
  { case_decide; intros _ Hold; (split; [done|]); split; done. }
  destruct (Sim.may_spawn b) eqn:Hspawn.
  - unfold Sim.may_spawn in Hspawn.
    apply andb_true_iff in Hspawn as [Hspawn Hmin].
    apply andb_true_iff in Hspawn as [Hfin Hdepth].
    apply negb_true_iff in Hfin. apply bool_decide_eq_true in Hdepth.
    rewrite (Hleaf Hfin) in *.
    pose proof (choice_2_3 r) as Hn.
    destruct (Rand.choice 2%nat [3%nat] r) as [n r1]. cbn [fst] in Hn.
    destruct (spawn_children_shape (Sim.set_finished b true)
                (Sim.get_end (Sim.set_finished b true)) n
                (Sim.children (Sim.set_finished b true)) r1)
      as (new & Hnew & Hlen & Hshape).
    destruct (Sim.spawn_children _ _ n _ r1) as [kids r2].
    cbn [fst] in Hnew. cbn in Hnew. rewrite (Hleaf Hfin) in Hnew.
    cbn in Hnew. subst kids.
    assert (Hend : Sim.get_end (Sim.set_finished b true) = fully_grown_end b).
    { unfold Sim.get_end, fully_grown_end. cbn.
      assert (Sim.length b == Sim.target_length b)%Q as Heq by lra.
      by rewrite (Qeq_eqR _ _ Heq). }
    assert (Hws : Forall (child_of_branch b) new).
    { eapply Forall_impl; [exact Hshape|]. cbn.
      intros c (Hs & Hd & Hm & Ha).
      unfold child_of_branch. rewrite Hs, Hd, Hend.
      repeat split; try done. lia. }
    intros Hgeo _.
    assert (∀ b', same_geometry b b' → Sim.children b' = new →
                  Sim.finished b' = true → well_shaped b') as Hfinal.
    { intros b' Hgeo' Hkids' Hfin'. split; [by rewrite Hfin'|].
      rewrite Hkids'. split; [lia|].
      eapply Forall_impl; [exact Hws|]. intros c Hc.
      by eapply child_of_branch_same. }
    destruct (_ && _); by apply Hfinal.
  - intros Hgeo Hold. destruct (_ && _); (split; [done|]); split; done.
Qed.

Lemma Forall2_transfer {A} (P P' : A → Prop) (Rel : A → A → Prop) l k :
  (∀ x y, P x → Rel x y → P' y) → Forall P l → Forall2 Rel l k → Forall P' k.
Proof.
  intros Hstep HP HR. induction HR as [|x y l k Hxy _ IH]; [constructor|].
  apply Forall_cons in HP as [Hx Hl]. constructor; [by eapply Hstep|by apply IH].
Qed.

Lemma grown_from_geometry (b b' : Sim.Branch) :
  grown_from b b' → same_geometry b b'.
Proof. by intros [? ? ? ? Hgeo]. Qed.

Lemma update_fuel_well_shaped fuel :
  ∀ b g r b' r',
    all_branches (λ b, well_shaped b ∧ len_ok b) b →
    Sim.update_fuel fuel b g r = Some (b', r') →
    all_branches (λ b, well_shaped b ∧ len_ok b) b'.
Proof.
  induction fuel as [|fuel IH]; intros b g r b' r' Hall Hrun; [done|].
  rewrite update_fuel_S in Hrun.
  destruct (Sim.static b) eqn:Hstatic; [by simplify_eq|].
  set (grown := if g then Sim.grow b r else (b, r)) in *.
  assert (Hgrown : all_branches (λ b, well_shaped b ∧ len_ok b) (fst grown)).
  { destruct g; [|done]. unfold grown. clear grown Hrun.
    destruct Hall as [b [Hws Hlen] Hkids].
    constructor; [split; [by apply grow_well_shaped|by apply grow_len_ok]|].
    destruct (grow_children b r) as (new & -> & Hnew).
    apply Forall_app. split; [done|].
    eapply Forall_impl; [exact Hnew|].
    intros c. apply all_branches_spawned. intros s a l d Hl.
    split; [split; [done|]; split; [cbn; lia|constructor]|].
    apply init_len_ok. unfold Sim.MIN_BRANCH_LENGTH in Hl. lra. }
  apply bind_Some in Hrun as ([kids r1] & Hupd & Hret). simplify_eq.
  destruct Hgrown as [b1 [(Hleaf & Hthree & Hchildren) Hlen] Hkids].
  pose proof (update_children_Forall _ _ _
                (λ c r c' r', IH c g r c' r') _ _ _ Hkids Hupd) as Hkids'.
  apply (update_children_Forall2 grown_from) in Hupd;
    [|intros c r0 c' r0'; apply update_fuel_grown].
  constructor; [|done]. split; [|done].
  split; [|split]; cbn.
  - intros Hfin. rewrite (Hleaf Hfin) in Hupd.
    by apply Forall2_nil_inv_l in Hupd.
  - apply Forall2_length in Hupd. lia.
  - eapply Forall2_transfer; [|exact Hchildren|exact Hupd].
    intros c c' Hc Hgrown.
    eapply child_of_branch_same; [|by apply grown_from_geometry|exact Hc].
    done.
Qed.




Lemma well_shaped_bounds (b : Sim.Branch) :
  all_branches well_shaped b → (Sim.depth b ≤ Sim.MAX_DEPTH)%Z →
  all_branches (λ c, (Sim.depth b ≤ Sim.depth c ≤ Sim.MAX_DEPTH)%Z) b
  ∧ (Sim.count_branch_ends b
     ≤ 3 ^ Z.to_nat (Sim.MAX_DEPTH - Sim.depth b))%nat.
Proof.
  revert b. apply (Branch_induction (λ b,
    all_branches well_shaped b → (Sim.depth b ≤ Sim.MAX_DEPTH)%Z →
    all_branches (λ c, (Sim.depth b ≤ Sim.depth c ≤ Sim.MAX_DEPTH)%Z) b
    ∧ (Sim.count_branch_ends b
       ≤ 3 ^ Z.to_nat (Sim.MAX_DEPTH - Sim.depth b))%nat)).
  intros b IH Hall Hdepth.
  destruct Hall as [b (_ & Hthree & Hkids) Hrest].
  assert (Hsub : Forall (λ c,
            all_branches (λ c', (Sim.depth b ≤ Sim.depth c' ≤ Sim.MAX_DEPTH)%Z) c
            ∧ (Sim.count_branch_ends c
               ≤ 3 ^ (Z.to_nat (Sim.MAX_DEPTH - Sim.depth b) - 1))%nat
            ∧ (Sim.depth b < Sim.MAX_DEPTH)%Z)
            (Sim.children b)).
  { rewrite Forall_forall in IH. rewrite Forall_forall in Hkids.
    rewrite Forall_forall in Hrest. apply Forall_forall. intros c Hc.
    destruct (Hkids c Hc) as (_ & Hd & Hmax & _).
    destruct (IH c Hc (Hrest c Hc) Hmax) as [Hdepths Hends].
    split; [|split; [|lia]].
    - eapply all_branches_impl; [|exact Hdepths]. cbn. intros c'. lia.
    - replace (Z.to_nat (Sim.MAX_DEPTH - Sim.depth b) - 1)%nat
        with (Z.to_nat (Sim.MAX_DEPTH - Sim.depth c)) by lia.
      exact Hends. }
  split.
  - constructor; [lia|]. eapply Forall_impl; [exact Hsub|]. by intros c [? _].
  - rewrite count_branch_ends_unfold.
    destruct (Sim.children b) as [|c cs] eqn:Hcs.
    { pose proof (Nat.pow_nonzero 3 (Z.to_nat (Sim.MAX_DEPTH - Sim.depth b))
                    ltac:(lia)). lia. }
    set (e := Z.to_nat (Sim.MAX_DEPTH - Sim.depth b)) in *.
    assert (Hdeep : (Sim.depth b < Sim.MAX_DEPTH)%Z).
    { apply Forall_cons in Hsub as [(_ & _ & ?) _]. done. }
    assert (He : e = S (e - 1)) by (unfold e; lia).
    assert (Hsum : ∀ l, Forall (λ c, (Sim.count_branch_ends c ≤ 3 ^ (e - 1))%nat) l →
              (sum_branch_ends l ≤ List.length l * 3 ^ (e - 1))%nat).
    { induction 1 as [|x xs Hx _ IHxs]; [done|].
      unfold sum_branch_ends in *. cbn. lia. }
    specialize (Hsum (c :: cs)).
    rewrite He at 1. rewrite Nat.pow_succ_r'.
    etrans; [apply Hsum|].
    + eapply Forall_impl; [exact Hsub|]. by intros c' (_ & ? & _).
    + apply Nat.mul_le_mono_r. exact Hthree.
Qed.



(** ** Instant growth, continued *)

Lemma set_length_full (b : Sim.Branch) :
  Sim.length b = Sim.target_length b →
  Sim.set_length b (Sim.target_length b) = b.
Proof. destruct b. cbn. by intros ->. Qed.

Lemma grow_branch_instantly_fuel_result fuel :
  ∀ b r b' r',
    Sim.grow_branch_instantly_fuel fuel b r = Some (b', r') →
    same_geometry b b' ∧ full_length b' ∧ Sim.may_spawn b' = false.
Proof.
  destruct fuel as [|fuel]; intros b r b' r' Hrun; [done|].
  rewrite grow_branch_instantly_fuel_S in Hrun. cbv zeta in Hrun.
  destruct (Sim.may_spawn _) eqn:Hspawn.
  - apply bind_Some in Hrun as ([kids r1] & _ & Hret). simplify_eq.
    by repeat split.
  - simplify_eq. by repeat split.
Qed.

(** X15: [grow_branch_instantly] returns, and growing its result instantly
    once more changes nothing and draws no random number. *)
Theorem grow_branch_instantly_idempotent (b : Sim.Branch) (r : Rand.Rng) :
  ∃ b' r',
    Sim.grow_branch_instantly b r = Some (b', r')
    ∧ ∀ r2, Sim.grow_branch_instantly b' r2 = Some (b', r2).
Proof.
  destruct (grow_branch_instantly_total b r) as [[b' r'] Hrun].
  exists b', r'. split; [exact Hrun|]. intros r2.
  apply grow_branch_instantly_fuel_result in Hrun as (_ & Hfull & Hspawn).
  unfold Sim.grow_branch_instantly.
  rewrite grow_branch_instantly_fuel_S. cbv zeta.
  rewrite (set_length_full b' Hfull). by rewrite Hspawn.
Qed.

Lemma instant_children_shape (G : Sim.Branch → Prop)
    (recurse : Sim.Branch → Rand.Rng → option (Sim.Branch * Rand.Rng))
    branch end_ n :
  (∀ delta l r c' r',
     (Sim.MIN_BRANCH_LENGTH <= l)%Q →
     (Sim.depth branch = 1%Z → delta = 0%R) →
     recurse (Sim.Branch_init end_ (Sim.angle branch + delta)%R l
                (Sim.depth branch + 1)) r = Some (c', r') →
     G c') →
  ∀ kids r kids' r',
    Sim.instant_children recurse branch end_ n kids r = Some (kids', r') →
    ∃ new, kids' = kids ++ new ∧ (List.length new ≤ n)%nat ∧ Forall G new.
Proof.
  intros Hrec. induction n as [|n IH]; intros kids r kids' r' Hrun;
    cbn in Hrun.
  - simplify_eq. exists []. rewrite app_nil_r. by repeat split.
  - destruct (Sim.draw_child branch r) as [[delta new_length] r1] eqn:Hdraw.
    case_decide as Hlong.
    + apply bind_Some in Hrun as ([child r2] & Hchild & Hrest).
      apply IH in Hrest as (new & -> & Hlen & Hnew).
      exists (child :: new). rewrite <- app_assoc. split; [done|].
      split; [cbn; lia|]. constructor; [|done].
      eapply Hrec; [exact Hlong| |exact Hchild].
      intros Hd. unfold Sim.draw_child in Hdraw. rewrite Hd in Hdraw.
      cbn in Hdraw. by simplify_eq.
    + apply IH in Hrun as (new & -> & Hlen & Hnew).
      exists new. split; [done|]. split; [lia|done].
Qed.

Lemma grow_branch_instantly_fuel_shape fuel :
  ∀ b r b' r',
    Sim.children b = [] → Sim.static b = false →
    Sim.grow_branch_instantly_fuel fuel b r = Some (b', r') →
    all_branches instantly_grown b'.
Proof.
  induction fuel as [|fuel IH]; intros b r b' r' Hleaf Hstatic Hrun; [done|].
  rewrite grow_branch_instantly_fuel_S in Hrun. cbv zeta in Hrun.
  destruct (Sim.may_spawn _) eqn:Hspawn.
  - apply bind_Some in Hrun as ([kids r1] & Hrun & Hret). simplify_eq.
    unfold Sim.may_spawn in Hspawn. cbn in Hspawn.
    apply andb_true_iff in Hspawn as [Hspawn Hmin].
    apply andb_true_iff in Hspawn as [Hfin Hdepth].
    apply bool_decide_eq_true in Hdepth.
    set (parent := Sim.set_finished
                     (Sim.set_length b (Sim.target_length b)) true) in *.
    eapply (instant_children_shape
              (λ c, child_of_branch parent c ∧ all_branches instantly_grown c))
      in Hrun.
    + destruct Hrun as (new & Hkids & Hlen & Hnew).
      pose proof (choice_2_3 r) as Hn.
      change (Sim.children parent) with (Sim.children b) in Hkids.
      rewrite Hleaf in Hkids. cbn [app] in Hkids. subst kids.
      constructor.
      * split; [|split; [done|done]].
        split; [done|]. cbn [Sim.children Sim.set_children].
        split; [lia|].
        eapply Forall_impl; [exact Hnew|]. intros c [Hc _].
        eapply child_of_branch_same; [|done|exact Hc]. done.
      * cbn [Sim.children Sim.set_children].
        eapply Forall_impl; [exact Hnew|]. by intros c [_ ?].
    + intros delta l r0 c' r0' Hl Hdelta Hc'.
      pose proof (grow_branch_instantly_fuel_result _ _ _ _ _ Hc')
        as ((Hs & Ha & Ht & Hd) & _ & _).
      split; [|eapply IH; [| |exact Hc']; done].
      cbn in Hs, Ha, Ht, Hd. unfold child_of_branch.
      rewrite Hs, Ha, Ht, Hd. cbn.
      repeat split; try done; [lia|].
      intros Hone. rewrite (Hdelta Hone). apply Rplus_0_r.
  - simplify_eq. constructor.
    + split; [|split; [done|exact Hstatic]].
      split; [by intros _|]. cbn [Sim.children Sim.set_length].
      rewrite Hleaf. split; [cbn; lia|constructor].
    + cbn [Sim.children Sim.set_length]. rewrite Hleaf. constructor.
Qed.

(** X16: the tree that [grow_branch_instantly] makes of a new branch has
    the shape of a tree grown over time: children only on finished
    branches, at most three, each starting at the end of its parent, one
    level deeper and not deeper than MAX_DEPTH, with a target length of at
    least MIN_BRANCH_LENGTH; every branch has its full length, and none is
    marked static. *)
Theorem instant_tree_shape (s : R * R) (a : R) (l : Q) (d : Z)
    (r : Rand.Rng) :
  ∃ b' r',
    Sim.grow_branch_instantly (Sim.Branch_init s a l d) r = Some (b', r')
    ∧ all_branches instantly_grown b'.
Proof.
  destruct (grow_branch_instantly_total (Sim.Branch_init s a l d) r)
    as [[b' r'] Hrun].
  exists b', r'. split; [exact Hrun|].
  eapply grow_branch_instantly_fuel_shape; [| |exact Hrun]; done.
Qed.

(** X17: [instant_grow_all_branches] returns as many branches as it is
    given, in order; each has the geometry of the branch it comes from and
    its full length. *)
Theorem instant_grow_all_branches_keeps_roots (branches : list Sim.Branch)
    (r : Rand.Rng) :
  ∃ grown r',
    Sim.instant_grow_all_branches branches r = Some (grown, r')
    ∧ Forall2 (λ b b', same_geometry b b' ∧ full_length b') branches grown.
Proof.
  unfold Sim.instant_grow_all_branches.
  destruct (update_children_total Sim.grow_branch_instantly branches)
    with (r := r) as [[grown r'] Hrun].
  { apply Forall_forall. intros b _ r0. apply grow_branch_instantly_total. }
  exists grown, r'. split; [exact Hrun|].
  eapply update_children_Forall2; [|exact Hrun].
  intros c r0 c' r0' Hc.
  apply grow_branch_instantly_fuel_result in Hc as (? & ? & _). done.
Qed.

(** ** Colours *)

Ltac color_cases :=
  unfold Sim.get_color; cbv zeta;
  repeat match goal with
         | |- context [String.eqb ?s ?t] =>
             destruct (String.eqb_spec s t); [subst|]
         end.

Lemma not_out_of_range (s : string) :
  s ∉ out_of_range_schemes
  ↔ s ≠ "arctic"%string ∧ s ≠ "tropical"%string ∧ s ≠ "mountain"%string
    ∧ s ≠ "silver"%string.
Proof.
  unfold out_of_range_schemes. rewrite !not_elem_of_cons.
  split; [by intros (? & ? & ? & ? & ?)|].
  intros (? & ? & ? & ?). repeat split; try done. apply not_elem_of_nil.
Qed.

Lemma get_color_default (b : Sim.Branch) (color_scheme : string) :
  color_scheme ∉ Sim.COLOR_SCHEMES →
  Sim.get_color b color_scheme = Sim.get_color b "green".
Proof.
  intros Hout. unfold Sim.COLOR_SCHEMES in Hout.
  rewrite !not_elem_of_cons in Hout. unfold Sim.get_color.
  repeat match type of Hout with
         | _ ≠ _ ∧ _ =>
             let H := fresh in
             destruct Hout as [H Hout]; apply String.eqb_neq in H;
             rewrite H; clear H
         end.
  reflexivity.
Qed.

(** X18: [get_color] gives components between 0 and 255 for every scheme
    name when the depth is between 1 and 10, and for every non-negative
    depth when the scheme is not one of arctic, tropical, mountain and
    silver; for these four it leaves the range at depth 14.  A name that is
    not in COLOR_SCHEMES gives the colour of the green scheme. *)
Theorem get_color_range (b : Sim.Branch) (color_scheme : string) :
  ((1 ≤ Sim.depth b ≤ 10)%Z → valid_rgb (Sim.get_color b color_scheme))
  ∧ ((0 ≤ Sim.depth b)%Z → color_scheme ∉ out_of_range_schemes →
     valid_rgb (Sim.get_color b color_scheme))
  ∧ (Sim.depth b = 14%Z → color_scheme ∈ out_of_range_schemes →
     ¬ valid_rgb (Sim.get_color b color_scheme))
  ∧ (color_scheme ∉ Sim.COLOR_SCHEMES →
     Sim.get_color b color_scheme = Sim.get_color b "green").
Proof.
  split; [|split; [|split]].
  - intros Hd. color_cases; unfold valid_rgb; cbn [fst snd];
      Z.div_mod_to_equations; lia.
  - intros Hd (H1 & H2 & H3 & H4)%not_out_of_range.
    color_cases; unfold valid_rgb; cbn [fst snd]; try done;
      Z.div_mod_to_equations; lia.
  - intros Hd Hin. unfold out_of_range_schemes in Hin.
    rewrite !elem_of_cons in Hin.
    destruct Hin as [->|[->|[->|[->|Hin]]]];
      [| | | |by apply elem_of_nil in Hin];
      unfold Sim.get_color, valid_rgb; rewrite Hd;
      cbn [String.eqb Ascii.eqb Bool.eqb fst snd]; lia.
  - apply get_color_default.
Qed.

Lemma get_color_range_witness :
  valid_rgb (Sim.get_color seed_branch "mountain")
  ∧ valid_rgb (Sim.get_color (Sim.Branch_init (0%R, 0%R) 0 20 14) "forest")
  ∧ ¬ valid_rgb (Sim.get_color (Sim.Branch_init (0%R, 0%R) 0 20 14) "silver")
  ∧ Sim.get_color seed_branch "purple" = Sim.get_color seed_branch "green".
Proof.
  destruct (get_color_range seed_branch "mountain") as (Hshallow & _).
  destruct (get_color_range (Sim.Branch_init (0%R, 0%R) 0 20 14) "forest")
    as (_ & Hsafe & _).
  destruct (get_color_range (Sim.Branch_init (0%R, 0%R) 0 20 14) "silver")
    as (_ & _ & Hdeep & _).
  destruct (get_color_range seed_branch "purple") as (_ & _ & _ & Hdefault).
  split; [|split; [|split]].
  - apply Hshallow. cbn. lia.
  - apply Hsafe; [cbn; lia|].
    intros Hin. apply (bool_decide_eq_true_2 _) in Hin.
    vm_compute in Hin. discriminate Hin.
  - apply Hdeep; [reflexivity|].
    apply (bool_decide_eq_true_1 _). vm_compute. reflexivity.
  - apply Hdefault.
    intros Hin. apply (bool_decide_eq_true_2 _) in Hin.
    vm_compute in Hin. discriminate Hin.
Defined.

(** ** Buttons *)

Lemma is_button_clicked_spec (mouse_pos : Z * Z) (button_x button_y radius : Z) :
  Sim.is_button_clicked mouse_pos button_x button_y radius = true
  ↔ (0 ≤ radius)%Z
    ∧ ((fst mouse_pos - button_x) ^ 2 + (snd mouse_pos - button_y) ^ 2
       ≤ radius ^ 2)%Z.
Proof.
  unfold Sim.is_button_clicked. cbv zeta.
  set (n := ((fst mouse_pos - button_x) ^ 2
             + (snd mouse_pos - button_y) ^ 2)%Z).
  assert (Hn : (0 ≤ n)%Z) by (unfold n; nia).
  assert (Hn' : (0 <= IZR n)%R) by (by apply IZR_le).
  destruct (Rle_dec (sqrt (IZR n)) (IZR radius)) as [Hle|Hgt].
  - split; [intros _|done].
    pose proof (sqrt_pos (IZR n)) as Hpos.
    assert (Hr : (0 ≤ radius)%Z) by (apply le_IZR; lra).
    split; [done|]. apply le_IZR.
    rewrite <- (sqrt_sqrt (IZR n)) by done.
    replace (radius ^ 2)%Z with (radius * radius)%Z by lia.
    rewrite mult_IZR. by apply Rmult_le_compat.
  - split; [done|]. intros [Hr Hin]. exfalso. apply Hgt.
    assert (Hr' : (0 <= IZR radius)%R) by (by apply IZR_le).
    rewrite <- (sqrt_square (IZR radius)) by done.
    apply sqrt_le_1_alt. rewrite <- mult_IZR. apply IZR_le. lia.
Qed.

Ltac button_arith :=
  unfold inside_button, within_float_range;
  change Sim.BUTTON1_X with 340%Z; change Sim.BUTTON2_X with 400%Z;
  change Sim.BUTTON3_X with 460%Z; change Sim.BUTTON_Y with 30%Z;
  change Sim.BUTTON_RADIUS with 15%Z; cbn [fst snd]; try lia.

(** X19: for a position, a centre and a radius below 2^25 in absolute
    value, where the float square root of the code decides as the exact
    one, [is_button_clicked] holds exactly when the radius is not negative
    and the squared integer distance from the position to the centre is at
    most the squared radius; so the centre of a button with a non-negative
    radius is hit, and no position hits a button with a negative radius. *)
Theorem is_button_clicked_integer_test (mouse_pos : Z * Z)
    (button_x button_y radius : Z) :
  within_float_range mouse_pos button_x button_y radius →
  (Sim.is_button_clicked mouse_pos button_x button_y radius = true
   ↔ (0 ≤ radius)%Z
     ∧ ((fst mouse_pos - button_x) ^ 2 + (snd mouse_pos - button_y) ^ 2
        ≤ radius ^ 2)%Z)
  ∧ ((0 ≤ radius)%Z →
     Sim.is_button_clicked (button_x, button_y) button_x button_y radius
     = true)
  ∧ ((radius < 0)%Z →
     Sim.is_button_clicked mouse_pos button_x button_y radius = false).
Proof.
  intros _. split; [apply is_button_clicked_spec|]. split.
  - intros Hr. apply is_button_clicked_spec. cbn. split; [done|nia].
  - intros Hr. apply not_true_is_false.
    intros [? _]%is_button_clicked_spec. lia.
Qed.

Lemma is_button_clicked_integer_test_witness :
  Sim.is_button_clicked (345, 40)%Z Sim.BUTTON1_X Sim.BUTTON_Y
    Sim.BUTTON_RADIUS = true
  ∧ Sim.is_button_clicked (355, 40)%Z Sim.BUTTON1_X Sim.BUTTON_Y
      Sim.BUTTON_RADIUS = false.
Proof.
  destruct (is_button_clicked_integer_test (345, 40)%Z Sim.BUTTON1_X
              Sim.BUTTON_Y Sim.BUTTON_RADIUS) as (Hin & _);
    [button_arith|].
  destruct (is_button_clicked_integer_test (355, 40)%Z Sim.BUTTON1_X
              Sim.BUTTON_Y Sim.BUTTON_RADIUS) as (Hout & _);
    [button_arith|].
  split.
  - apply Hin. button_arith.
  - apply not_true_is_false. intros Hc. apply Hout in Hc. revert Hc.
    button_arith.
Defined.

(** ** Drawing *)

Lemma get_color_safe (b : Sim.Branch) (color_scheme : string) :
  (0 ≤ Sim.depth b)%Z → color_scheme ∉ out_of_range_schemes →
  valid_rgb (Sim.get_color b color_scheme).
Proof.
  intros Hd (H1 & H2 & H3 & H4)%not_out_of_range.
  color_cases; unfold valid_rgb; cbn [fst snd]; try done;
    Z.div_mod_to_equations; lia.
Qed.

Lemma draw_line_valid (color : Z * Z * Z) :
  Sim.draw_line color = Some tt ↔ valid_rgb color.
Proof.
  destruct color as [[r g] b]. unfold Sim.draw_line, valid_rgb.
  cbn [fst snd].
  destruct (Z.leb_spec 0 r), (Z.leb_spec r 255), (Z.leb_spec 0 g),
    (Z.leb_spec g 255), (Z.leb_spec 0 b), (Z.leb_spec b 255);
    cbn [andb]; split; try done; try lia.
Qed.

Lemma draw_unfold (b : Sim.Branch) (color_scheme : string) :
  Sim.draw b color_scheme =
    if Sim.static b then Some tt
    else
      _ ← Sim.draw_line (Sim.get_color b color_scheme);
      Sim.for_each (λ child, Sim.draw child color_scheme) (Sim.children b).
Proof. by destruct b. Qed.

Lemma draw_static_unfold (b : Sim.Branch) (color_scheme : string) :
  Sim.draw_static b color_scheme =
    _ ← Sim.draw_line (Sim.get_color b color_scheme);
    Sim.for_each (λ child, Sim.draw_static child color_scheme)
      (Sim.children b).
Proof. by destruct b. Qed.

Lemma for_each_Some (f : Sim.Branch → option unit) (bs : list Sim.Branch) :
  Sim.for_each f bs = Some tt ↔ Forall (λ b, f b = Some tt) bs.
Proof.
  unfold Sim.for_each. induction bs as [|b bs IH]; cbn [foldr].
  - split; [constructor|done].
  - rewrite Forall_cons, <- IH. destruct (f b) as [[]|]; cbn; [tauto|].
    split; [done|by intros [? _]].
Qed.

Lemma draw_valid (color_scheme : string) (b : Sim.Branch) :
  all_branches (λ c, valid_rgb (Sim.get_color c color_scheme)) b →
  Sim.draw b color_scheme = Some tt
  ∧ Sim.draw_static b color_scheme = Some tt.
Proof.
  revert b. apply (Branch_induction (λ b,
    all_branches (λ c, valid_rgb (Sim.get_color c color_scheme)) b →
    Sim.draw b color_scheme = Some tt
    ∧ Sim.draw_static b color_scheme = Some tt)).
  intros b IH Hall.
  pose proof (all_branches_here _ _ Hall) as Hcol.
  pose proof (all_branches_children _ _ Hall) as Hkids.
  apply draw_line_valid in Hcol.
  rewrite draw_unfold, draw_static_unfold, Hcol. cbn [mbind option_bind].
  assert (Hboth : Forall (λ c, Sim.draw c color_scheme = Some tt
                               ∧ Sim.draw_static c color_scheme = Some tt)
                    (Sim.children b)).
  { rewrite Forall_forall in IH. rewrite Forall_forall in Hkids.
    apply Forall_forall. intros c Hc. apply IH; [done|]. by apply Hkids. }
  split.
  - destruct (Sim.static b); [done|]. apply for_each_Some.
    eapply Forall_impl; [exact Hboth|]. by intros c [? _].
  - apply for_each_Some.
    eapply Forall_impl; [exact Hboth|]. by intros c [_ ?].
Qed.

(** X24: [draw] and [draw_static] return when every colour they hand to
    pygame.draw.line is valid, as it is for a tree without negative depths
    under a scheme other than arctic, tropical, mountain and silver;
    [draw_static] raises as soon as the colour of the branch is out of
    range, and [draw] does so for a branch that is not static, while it
    skips a static branch without computing a colour. *)
Theorem draw_outcome (b : Sim.Branch) (color_scheme : string) :
  (all_branches (λ c, (0 ≤ Sim.depth c)%Z) b →
   color_scheme ∉ out_of_range_schemes →
   Sim.draw b color_scheme = Some tt
   ∧ Sim.draw_static b color_scheme = Some tt)
  ∧ (¬ valid_rgb (Sim.get_color b color_scheme) →
     Sim.draw_static b color_scheme = None
     ∧ (Sim.static b = false → Sim.draw b color_scheme = None))
  ∧ (Sim.static b = true → Sim.draw b color_scheme = Some tt).
Proof.
  split; [|split].
  - intros Hdepth Hsafe. apply draw_valid.
    eapply all_branches_impl; [|exact Hdepth].
    intros c Hc. by apply get_color_safe.
  - intros Hbad. rewrite draw_unfold, draw_static_unfold.
    destruct (Sim.draw_line _) as [[]|] eqn:Hline.
    { by apply draw_line_valid in Hline. }
    split; [done|]. by intros ->.
  - intros Hstatic. by rewrite draw_unfold, Hstatic.
Qed.

Lemma draw_outcome_witness :
  Sim.draw seed_branch "forest" = Some tt
  ∧ Sim.draw (Sim.Branch_init (0%R, 0%R) 0 20 11) "mountain" = None.
Proof.
  destruct (draw_outcome seed_branch "forest") as (Hsafe & _).
  destruct (draw_outcome (Sim.Branch_init (0%R, 0%R) 0 20 11) "mountain")
    as (_ & Hbad & _).
  split.
  - apply Hsafe.
    + constructor; [cbn; lia|constructor].
    + intros Hin. apply (bool_decide_eq_true_2 _) in Hin.
      vm_compute in Hin. discriminate Hin.
  - apply Hbad; [|reflexivity]. unfold valid_rgb. cbn. lia.
Defined.

(** ** The main loop *)

Lemma COLOR_SCHEMES_length : List.length Sim.COLOR_SCHEMES = 32%nat.
Proof. reflexivity. Qed.

Lemma next_color_scheme_range (c : Z) :
  (0 ≤ Sim.next_color_scheme c < Z.of_nat (List.length Sim.COLOR_SCHEMES))%Z.
Proof.
  unfold Sim.next_color_scheme. rewrite COLOR_SCHEMES_length.
  apply Z.mod_pos_bound. lia.
Qed.

Lemma scheme_at_in_range (c : Z) :
  (0 ≤ c < Z.of_nat (List.length Sim.COLOR_SCHEMES))%Z →
  is_Some (Sim.scheme_at c).
Proof.
  intros Hc. unfold Sim.scheme_at. cbv zeta.
  rewrite COLOR_SCHEMES_length in *.
  destruct (Z.ltb_spec c (- Z.of_nat 32)); [lia|].
  destruct (Z.leb_spec (Z.of_nat 32) c); [lia|].
  cbn [orb].
  destruct (Z.ltb_spec c 0); [lia|].
  apply lookup_lt_is_Some. rewrite COLOR_SCHEMES_length. lia.
Qed.

Lemma safe_colour_below_ten (c : Z) : (0 ≤ c < 10)%Z → safe_colour c.
Proof.
  intros Hc.
  assert (Hcases : (c = 0 ∨ c = 1 ∨ c = 2 ∨ c = 3 ∨ c = 4 ∨ c = 5 ∨ c = 6
                    ∨ c = 7 ∨ c = 8 ∨ c = 9)%Z) by lia.
  destruct Hcases as [->|[->|[->|[->|[->|[->|[->|[->|[->| ->]]]]]]]]];
    (eexists; split; [reflexivity|]);
    intros Hin; apply (bool_decide_eq_true_2 _) in Hin;
    vm_compute in Hin; discriminate Hin.
Qed.

Lemma next_color_scheme_le (c : Z) :
  (0 ≤ c)%Z → (Sim.next_color_scheme c ≤ c + 1)%Z.
Proof.
  intros Hc. unfold Sim.next_color_scheme. rewrite COLOR_SCHEMES_length.
  apply Z.mod_le; lia.
Qed.

Lemma is_button_clicked_inside (mouse_pos : Z * Z) (button_x : Z) :
  Sim.is_button_clicked mouse_pos button_x Sim.BUTTON_Y Sim.BUTTON_RADIUS
  = true
  ↔ inside_button mouse_pos button_x.
Proof.
  rewrite is_button_clicked_spec. unfold inside_button, Sim.BUTTON_RADIUS.
  split; [by intros [_ ?]|]. intros ?. split; [lia|done].
Qed.

Lemma buttons_disjoint (mouse_pos : Z * Z) :
  ¬ (inside_button mouse_pos Sim.BUTTON1_X
     ∧ inside_button mouse_pos Sim.BUTTON2_X)
  ∧ ¬ (inside_button mouse_pos Sim.BUTTON1_X
       ∧ inside_button mouse_pos Sim.BUTTON3_X)
  ∧ ¬ (inside_button mouse_pos Sim.BUTTON2_X
       ∧ inside_button mouse_pos Sim.BUTTON3_X).
Proof.
  destruct mouse_pos as [x y]. button_arith.
  split; [|split]; intros [H1 H2]; nia.
Qed.

Lemma update_children_same
    (update : Sim.Branch → Rand.Rng → option (Sim.Branch * Rand.Rng)) cs :
  Forall (λ c, ∀ r, update c r = Some (c, r)) cs →
  ∀ r, Sim.update_children update cs r = Some (cs, r).
Proof.
  induction 1 as [|c cs Hc _ IH]; intros r; cbn; [done|].
  rewrite Hc. cbn. by rewrite IH.
Qed.

Lemma set_children_same (b : Sim.Branch) :
  Sim.set_children b (Sim.children b) = b.
Proof. by destruct b. Qed.

Lemma update_fuel_no_growth fuel :
  ∀ b r, (Sim.height b ≤ fuel)%nat →
         Sim.update_fuel (S fuel) b false r = Some (b, r).
Proof.
  induction fuel as [|fuel IH]; intros b r Hfuel.
  { destruct b; cbn in Hfuel; lia. }
  rewrite update_fuel_S. destruct (Sim.static b); [done|]. cbn [fst snd].
  rewrite update_children_same.
  - cbn. by rewrite set_children_same.
  - apply Forall_forall. intros c Hc r0. apply IH.
    apply height_child in Hc. lia.
Qed.

Lemma update_no_growth (b : Sim.Branch) (r : Rand.Rng) :
  Sim.update b false r = Some (b, r).
Proof. by apply update_fuel_no_growth. Qed.

Lemma update_children_weaken
    (update update' : Sim.Branch → Rand.Rng → option (Sim.Branch * Rand.Rng))
    cs :
  (∀ c r c' r', update c r = Some (c', r') → update' c r = Some (c', r')) →
  ∀ r kids r',
    Sim.update_children update cs r = Some (kids, r') →
    Sim.update_children update' cs r = Some (kids, r').
Proof.
  intros Hupd. induction cs as [|c cs IH]; intros r kids r' Hrun;
    cbn in Hrun |- *; [done|].
  destruct (update c r) as [[c' r1]|] eqn:Hc'; [|done]. cbn in Hrun.
  rewrite (Hupd _ _ _ _ Hc'). cbn.
  destruct (Sim.update_children update cs r1) as [[cs' r2]|] eqn:Hcs';
    [|done].
  by rewrite (IH _ _ _ Hcs').
Qed.

(** The trees of main. *)

Lemma main_tree_depths (b : Sim.Branch) :
  main_tree b → all_branches (λ c, (0 ≤ Sim.depth c)%Z) b.
Proof.
  intros [Hshape Hroot].
  destruct (well_shaped_bounds b) as [Hdepths _].
  - eapply all_branches_impl; [|exact Hshape]. by intros c [? _].
  - rewrite Hroot. unfold Sim.MAX_DEPTH. lia.
  - eapply all_branches_impl; [|exact Hdepths]. cbn. intros c Hc. lia.
Qed.

Lemma main_tree_draw (b : Sim.Branch) (color_scheme : string) :
  main_tree b → color_scheme ∉ out_of_range_schemes →
  Sim.draw b color_scheme = Some tt
  ∧ Sim.draw_static b color_scheme = Some tt.
Proof.
  intros Htree Hsafe. apply draw_valid.
  eapply all_branches_impl; [|by apply main_tree_depths].
  intros c Hc. by apply get_color_safe.
Qed.

Lemma update_main_tree (b : Sim.Branch) (g : bool) (r : Rand.Rng) b' r' :
  main_tree b → Sim.update b g r = Some (b', r') → main_tree b'.
Proof.
  intros [Hshape Hroot] Hrun. split.
  - by eapply update_fuel_well_shaped.
  - apply update_fuel_grown, grown_from_geometry in Hrun
      as (_ & _ & _ & Hdepth).
    congruence.
Qed.

Lemma new_tree_main_tree : Forall main_tree Sim.new_tree.
Proof.
  constructor; [|constructor]. split; [|reflexivity].
  constructor; [|constructor]. split.
  - split; [done|]. split; [cbn; lia|constructor].
  - apply init_len_ok. lra.
Qed.

Lemma instantly_grown_lengths (b : Sim.Branch) :
  all_branches instantly_grown b → (0 <= Sim.target_length b)%Q →
  all_branches (λ c, well_shaped c ∧ len_ok c) b.
Proof.
  revert b. apply (Branch_induction (λ b,
    all_branches instantly_grown b → (0 <= Sim.target_length b)%Q →
    all_branches (λ c, well_shaped c ∧ len_ok c) b)).
  intros b IH Hall Htarget.
  pose proof (all_branches_here _ _ Hall) as (Hshape & Hfull & _).
  pose proof (all_branches_children _ _ Hall) as Hkids.
  constructor.
  - split; [done|]. unfold len_ok, full_length in *. rewrite Hfull. lra.
  - destruct Hshape as (_ & _ & Hchildren).
    rewrite Forall_forall in IH. rewrite Forall_forall in Hkids.
    rewrite Forall_forall in Hchildren.
    apply Forall_forall. intros c Hc. apply IH; [done|by apply Hkids|].
    destruct (Hchildren c Hc) as (_ & _ & _ & Hmin & _).
    unfold Sim.MIN_BRANCH_LENGTH in Hmin. lra.
Qed.

Lemma instant_grow_new_tree (r : Rand.Rng) :
  ∃ b r',
    Sim.instant_grow_all_branches Sim.new_tree r = Some ([b], r')
    ∧ all_branches instantly_grown b
    ∧ Forall2 same_geometry Sim.new_tree [b]
    ∧ main_tree b.
Proof.
  unfold Sim.instant_grow_all_branches, Sim.new_tree.
  cbn [Sim.update_children].
  destruct (grow_branch_instantly_total
              (Sim.Branch_init (IZR (Sim.WIDTH / 2), IZR (Sim.HEIGHT - 50))
                 (- PI / 2)%R 100 1) r) as [[b r'] Hb].
  rewrite Hb. exists b, r'. split; [reflexivity|].
  assert (Hshape : all_branches instantly_grown b).
  { eapply grow_branch_instantly_fuel_shape; [| |exact Hb]; done. }
  apply grow_branch_instantly_fuel_result in Hb as (Hgeo & _).
  split; [done|]. split; [constructor; [done|constructor]|].
  destruct Hgeo as (_ & _ & Htarget & Hdepth). split; [|by rewrite Hdepth].
  apply instantly_grown_lengths; [done|]. rewrite Htarget. cbn. lra.
Qed.

(** What an event does. *)

Ltac main_fields :=
  cbn [Sim.running Sim.growing Sim.paused Sim.branches Sim.frame_count
       Sim.current_color_scheme Sim.instant_grow_mode Sim.fast_grow_mode
       Sim.generator] in *.

Lemma main_init_invariant (r : Rand.Rng) : main_invariant (Sim.main_init r).
Proof.
  unfold main_invariant. rewrite COLOR_SCHEMES_length. cbn.
  split_and!; try done; lia.
Qed.

Lemma MAX_BRANCH_ENDS_above_one : (1 < Sim.MAX_BRANCH_ENDS)%nat.
Proof. unfold Sim.MAX_BRANCH_ENDS. lia. Qed.

(* the colour index after an event: kept, or moved to the next scheme by an
   event that changes the colour *)
Lemma handle_event_step (m : Sim.Main) (event : Sim.Event) (m' : Sim.Main) :
  main_invariant m → Sim.handle_event m event = Some m' →
  main_invariant m'
  ∧ (Sim.current_color_scheme m' = Sim.current_color_scheme m
     ∨ changes_colour event
       ∧ Sim.current_color_scheme m'
         = Sim.next_color_scheme (Sim.current_color_scheme m)).
Proof.
  intros Hinv Hrun.
  pose proof (next_color_scheme_range (Sim.current_color_scheme m)) as Hnext.
  pose proof MAX_BRANCH_ENDS_above_one as Hmax.
  destruct event as [|[]|mouse_pos|]; cbn [Sim.handle_event] in Hrun;
    try (simplify_eq; split; [done|by left]).
  - destruct (_ && _); [|simplify_eq; split; [done|by left]].
    apply bind_Some in Hrun as (scheme & _ & Hrun).
    apply bind_Some in Hrun as (? & _ & Hrun). simplify_eq.
    split; [|right; by split].
    destruct Hinv as (Hc & Hinv). by split.
  - destruct (Sim.is_button_clicked mouse_pos Sim.BUTTON1_X _ _) eqn:H1.
    { destruct (instant_grow_new_tree (Sim.generator m))
        as (b & r' & Hgrow & _ & _ & Htree).
      rewrite Hgrow in Hrun. cbn in Hrun. simplify_eq.
      split; [|by left].
      destruct Hinv as (Hc & _). unfold main_invariant.
      rewrite COLOR_SCHEMES_length in *. main_fields.
      split_and!; try done; try lia. by constructor. }
    destruct (Sim.is_button_clicked mouse_pos Sim.BUTTON2_X _ _) eqn:H2.
    { simplify_eq. split.
      - destruct Hinv as (Hc & Hinv). by split.
      - right. split; [|done]. by apply is_button_clicked_inside. }
    destruct (Sim.is_button_clicked mouse_pos Sim.BUTTON3_X _ _);
      [|simplify_eq; split; [done|by left]].
    simplify_eq. split; [|by left].
    destruct Hinv as (Hc & _). unfold main_invariant.
    rewrite COLOR_SCHEMES_length in *. main_fields.
    split_and!; try done; try lia.
    + intros _ Hends. cbn in Hends. lia.
    + apply new_tree_main_tree.
Qed.

Lemma handle_event_total (m : Sim.Main) (event : Sim.Event) :
  main_invariant m →
  (changes_colour event →
   safe_colour (Sim.next_color_scheme (Sim.current_color_scheme m))) →
  is_Some (Sim.handle_event m event).
Proof.
  intros Hinv Hsafe.
  destruct event as [|[]|mouse_pos|]; cbn [Sim.handle_event]; try done.
  - destruct (_ && _); [|done].
    destruct Hsafe as (scheme & -> & Hscheme); [done|].
    cbn [mbind option_bind].
    assert (Hdraw : Sim.for_each (λ branch, Sim.draw_static branch scheme)
                      (Sim.branches m) = Some tt).
    { apply for_each_Some. destruct Hinv as (_ & _ & _ & _ & _ & _ & _ & Htrees).
      eapply Forall_impl; [exact Htrees|].
      intros b Hb. by apply main_tree_draw. }
    by rewrite Hdraw.
  - destruct (Sim.is_button_clicked mouse_pos Sim.BUTTON1_X _ _).
    { destruct (instant_grow_new_tree (Sim.generator m))
        as (b & r' & -> & _). done. }
    destruct (Sim.is_button_clicked mouse_pos Sim.BUTTON2_X _ _); [done|].
    by destruct (Sim.is_button_clicked mouse_pos Sim.BUTTON3_X _ _).
Qed.

Lemma handle_event_keeps_tree (m : Sim.Main) (event : Sim.Event)
    (m' : Sim.Main) :
  keeps_tree event → Sim.handle_event m event = Some m' →
  Sim.branches m' = Sim.branches m ∧ Sim.growing m' = Sim.growing m
  ∧ Sim.paused m' = Sim.paused m ∧ Sim.generator m' = Sim.generator m.
Proof.
  intros Hkeeps Hrun.
  destruct event as [|[]|mouse_pos|]; cbn [Sim.handle_event] in Hrun;
    try (by simplify_eq).
  - destruct (_ && _); [|by simplify_eq].
    apply bind_Some in Hrun as (scheme & _ & Hrun).
    apply bind_Some in Hrun as (? & _ & Hrun). by simplify_eq.
  - destruct Hkeeps as [H1 H3].
    rewrite <- is_button_clicked_inside in H1, H3.
    apply not_true_is_false in H1, H3. rewrite H1, H3 in Hrun.
    destruct (Sim.is_button_clicked mouse_pos Sim.BUTTON2_X _ _);
      by simplify_eq.
Qed.

(** What the rest of a pass does. *)

(* the update and the drawing of one branch in a growing pass *)
Abbreviation update_and_draw grow scheme :=
  (λ (branch : Sim.Branch) (r : Rand.Rng),
     '(branch', r') ← Sim.update branch grow r;
     _ ← Sim.draw branch' scheme;
     Some (branch', r')).

Lemma update_and_draw_Some grow scheme (b : Sim.Branch) (r : Rand.Rng) b' r' :
  update_and_draw grow scheme b r = Some (b', r') →
  Sim.update b grow r = Some (b', r').
Proof.
  intros Hrun. cbv beta in Hrun.
  destruct (Sim.update b grow r) as [[b1 r1]|]; [|done]. cbn in Hrun.
  destruct (Sim.draw b1 scheme); [|done]. cbn in Hrun. by simplify_eq.
Qed.

Lemma advance_frame_cases (m : Sim.Main) :
  (∃ scheme,
     Sim.current_scheme m = Some scheme
     ∧ (Sim.growing m = true ∧ Sim.paused m = false ∧ Sim.branches m ≠ []
        ∧ Sim.advance_frame m =
            ('(updated, r') ←
               Sim.update_children
                 (update_and_draw (Sim.grow_this_frame m) scheme)
                 (Sim.branches m) (Sim.generator m);
             Some (Sim.mkMain (Sim.running m)
                     (if negb (bool_decide (updated = []))
                         && forallb Sim.static updated
                      then false else Sim.growing m)
                     (if bool_decide
                           (Sim.MAX_BRANCH_ENDS ≤ sum_branch_ends updated)%nat
                      then true else Sim.paused m)
                     updated (Sim.frame_count m + 1)
                     (Sim.current_color_scheme m) (Sim.instant_grow_mode m)
                     (Sim.fast_grow_mode m) r'))
        ∨ (idle m ∨ Sim.branches m = [])
          ∧ Sim.advance_frame m =
              (_ ← (if Sim.paused m || Sim.instant_grow_mode m
                    then Sim.for_each (λ branch, Sim.draw branch scheme)
                           (Sim.branches m)
                    else Some tt);
               Some (Sim.mkMain (Sim.running m) (Sim.growing m)
                       (Sim.paused m) (Sim.branches m)
                       (Sim.frame_count m + 1)
                       (Sim.current_color_scheme m)
                       (Sim.instant_grow_mode m) (Sim.fast_grow_mode m)
                       (Sim.generator m)))))
  ∨ Sim.current_scheme m = None ∧ Sim.advance_frame m = None.
Proof.
  unfold Sim.advance_frame. cbv zeta.
  destruct (Sim.current_scheme m) as [scheme|]; [left|by right].
  exists scheme. split; [done|]. cbn [mbind option_bind].
  destruct (Sim.growing m) eqn:Hgrowing; cbn [andb];
    [|right; split; [left; by right|]].
  2:{ destruct (_ || _) eqn:Hdrawn;
        [destruct (Sim.for_each _ _) as [[]|]|];
        cbn; try done; destruct m; cbn in *; by subst. }
  destruct (Sim.paused m) eqn:Hpaused; cbn [andb negb orb];
    [right; split; [left; by left|]|].
  { destruct (Sim.for_each _ _) as [[]|]; cbn; [|done].
    destruct m; cbn in *; by subst. }
  case_bool_decide as Hempty; cbn [negb];
    [right; split; [by right|]|].
  { rewrite Hempty. destruct (Sim.instant_grow_mode m) eqn:Hinstant; cbn;
      destruct m; cbn in *; by subst. }
  left. repeat split; try done.
  destruct (Sim.update_children _ _ _) as [[updated r']|]; done.
Qed.

Lemma advance_frame_step (m m' : Sim.Main) :
  main_invariant m → Sim.advance_frame m = Some m' →
  main_invariant m'
  ∧ Sim.current_color_scheme m' = Sim.current_color_scheme m
  ∧ Sim.frame_count m' = (Sim.frame_count m + 1)%Z
  ∧ (Sim.paused m = true → Sim.paused m' = true)
  ∧ (Sim.growing m = false → Sim.growing m' = false)
  ∧ (idle m →
     Sim.branches m' = Sim.branches m ∧ Sim.generator m' = Sim.generator m)
  ∧ (Sim.branches m' ≠ Sim.branches m
     ∨ Sim.generator m' ≠ Sim.generator m →
     Sim.growing m = true ∧ Sim.paused m = false
     ∧ Sim.fast_grow_mode m = true
     ∧ (Sim.frame_count m mod 2 = 0)%Z).
Proof.
  intros (Hc & Hframe & Hlen & Hgrow & Hfast & Hinst & Hends & Htrees) Hrun.
  destruct (advance_frame_cases m)
    as [(scheme & _ & [(Hgrowing & Hpaused & Hsome & Heq)|[_ Heq]])
       |[_ Heq]]; rewrite Heq in Hrun; [| |done].
  - apply bind_Some in Hrun as ([updated r'] & Hupd & Hret).
    simplify_eq. main_fields.
    pose proof (update_children_weaken _
                  (λ b r, Sim.update b (Sim.grow_this_frame m) r) _
                  (update_and_draw_Some _ scheme) _ _ _ Hupd) as Hupd'.
    assert (Hsame : List.length updated = List.length (Sim.branches m)).
    { symmetry. eapply Forall2_length.
      eapply (update_children_Forall2 (λ _ _, True)); [done|exact Hupd']. }
    split; [|split; [done|]; split; [done|]; split; [congruence|];
             split; [congruence|]; split; [intros [?|?]; congruence|]].
    + unfold main_invariant. main_fields.
      split_and!; try done; try lia.
      * intros _ ->. destruct (Sim.branches m); [done|]. discriminate Hsame.
      * intros _ _. by apply Hfast.
      * intros [Hp _]%Hinst. congruence.
      * intros _ Hmax. by rewrite bool_decide_eq_true_2.
      * eapply update_children_Forall; [|exact Htrees|exact Hupd'].
        intros c r c' r0 Hc0 Hc'. cbv beta in Hc'.
        exact (update_main_tree _ _ _ _ _ Hc0 Hc').
    + intros Hchanged. specialize (Hfast Hgrowing Hpaused).
      repeat split; try done.
      unfold Sim.grow_this_frame in Hupd'. rewrite Hfast in Hupd'.
      destruct (Z.eqb_spec (Sim.frame_count m mod 2) 0) as [|_]; [done|].
      rewrite update_children_same in Hupd'.
      * simplify_eq. by destruct Hchanged.
      * apply Forall_forall. intros b _ r0. apply update_no_growth.
  - apply bind_Some in Hrun as (? & _ & Hret). simplify_eq. main_fields.
    split; [|split; [done|]; split; [done|]; split; [done|]; split; [done|];
             split; [done|]; by intros [?|?]].
    unfold main_invariant. main_fields. split_and!; try done; lia.
Qed.

Lemma advance_frame_total (m : Sim.Main) :
  main_invariant m → safe_colour (Sim.current_color_scheme m) →
  is_Some (Sim.advance_frame m).
Proof.
  intros (_ & _ & _ & _ & _ & _ & _ & Htrees) (scheme & Hscheme & Hsafe).
  assert (Hdraw : Sim.for_each (λ branch, Sim.draw branch scheme)
                    (Sim.branches m) = Some tt).
  { apply for_each_Some. eapply Forall_impl; [exact Htrees|].
    intros b Hb. by apply main_tree_draw. }
  destruct (advance_frame_cases m)
    as [(scheme' & Hscheme' & [(_ & _ & _ & ->)|[_ ->]])|[Hnone _]].
  - unfold Sim.current_scheme in Hscheme'. simplify_eq.
    destruct (update_children_total
                (update_and_draw (Sim.grow_this_frame m) scheme)
                (Sim.branches m)) with (r := Sim.generator m)
      as [[updated r'] ->]; [|done].
    eapply Forall_impl; [exact Htrees|]. intros b Hb r. cbv beta.
    destruct (update_total b (Sim.grow_this_frame m) r) as [[b' r'] Hupd].
    rewrite Hupd. cbn [mbind option_bind].
    destruct (main_tree_draw b' scheme) as [-> _]; [|done|done].
    by eapply update_main_tree.
  - unfold Sim.current_scheme in Hscheme'. simplify_eq.
    rewrite Hdraw. by destruct (_ || _).
  - unfold Sim.current_scheme in Hnone. congruence.
Qed.

(** Runs of the loop. *)

Lemma colour_changes_cons (events : list Sim.Event)
    (frames : list (list Sim.Event)) :
  colour_changes (events :: frames)
  = (List.length (filter changes_colour events) + colour_changes frames)%nat.
Proof. unfold colour_changes. cbn [concat]. by rewrite filter_app, length_app. Qed.

Lemma handle_events_step (events : list Sim.Event) :
  ∀ m m',
    main_invariant m → Sim.handle_events m events = Some m' →
    main_invariant m'
    ∧ (Sim.current_color_scheme m'
       ≤ Sim.current_color_scheme m
         + Z.of_nat (List.length (filter changes_colour events)))%Z.
Proof.
  induction events as [|event events IH]; intros m m' Hinv Hrun;
    cbn [Sim.handle_events] in Hrun.
  { simplify_eq. split; [done|]. cbn. lia. }
  apply bind_Some in Hrun as (m1 & Hevent & Hrest).
  destruct (handle_event_step m event m1 Hinv Hevent) as [Hinv1 Hcol].
  destruct (IH m1 m' Hinv1 Hrest) as [Hinv' Hcol']. split; [done|].
  rewrite filter_cons.
  destruct Hcol as [Hcol|[Hchange Hcol]].
  - destruct (decide (changes_colour event)); cbn [List.length]; lia.
  - rewrite decide_True by done. cbn [List.length].
    pose proof (next_color_scheme_le (Sim.current_color_scheme m)).
    destruct Hinv as ([? _] & _). lia.
Qed.

Lemma handle_events_total (events : list Sim.Event) :
  ∀ m,
    main_invariant m →
    (Sim.current_color_scheme m
     + Z.of_nat (List.length (filter changes_colour events)) < 10)%Z →
    is_Some (Sim.handle_events m events).
Proof.
  induction events as [|event events IH]; intros m Hinv Hfew;
    cbn [Sim.handle_events]; [done|].
  rewrite filter_cons in Hfew.
  pose proof (next_color_scheme_le (Sim.current_color_scheme m)) as Hle.
  pose proof (next_color_scheme_range (Sim.current_color_scheme m)) as Hnext.
  assert (Hc : (0 ≤ Sim.current_color_scheme m)%Z)
    by (by destruct Hinv as ([? _] & _)).
  destruct (handle_event_total m event Hinv) as [m1 Hevent].
  { intros Hchange. rewrite decide_True in Hfew by done.
    cbn [List.length] in Hfew. apply safe_colour_below_ten. lia. }
  rewrite Hevent. cbn [mbind option_bind].
  destruct (handle_event_step m event m1 Hinv Hevent) as [Hinv1 Hcol].
  apply IH; [done|].
  destruct Hcol as [Hcol|[Hchange Hcol]].
  - destruct (decide (changes_colour event)); cbn [List.length] in Hfew; lia.
  - rewrite decide_True in Hfew by done. cbn [List.length] in Hfew. lia.
Qed.

Lemma frame_step (m : Sim.Main) (events : list Sim.Event) (m' : Sim.Main) :
  main_invariant m → Sim.frame m events = Some m' →
  main_invariant m'
  ∧ (Sim.current_color_scheme m'
     ≤ Sim.current_color_scheme m
       + Z.of_nat (List.length (filter changes_colour events)))%Z.
Proof.
  intros Hinv Hrun. unfold Sim.frame in Hrun.
  apply bind_Some in Hrun as (m1 & Hevents & Hrest).
  destruct (handle_events_step events m m1 Hinv Hevents) as [Hinv1 Hcol].
  destruct (advance_frame_step m1 m' Hinv1 Hrest) as (Hinv' & Hcol' & _).
  split; [done|]. lia.
Qed.

Lemma frame_total (m : Sim.Main) (events : list Sim.Event) :
  main_invariant m →
  (Sim.current_color_scheme m
   + Z.of_nat (List.length (filter changes_colour events)) < 10)%Z →
  is_Some (Sim.frame m events).
Proof.
  intros Hinv Hfew. unfold Sim.frame.
  destruct (handle_events_total events m Hinv Hfew) as [m1 Hevents].
  rewrite Hevents. cbn [mbind option_bind].
  destruct (handle_events_step events m m1 Hinv Hevents) as [Hinv1 Hcol].
  apply advance_frame_total; [done|]. apply safe_colour_below_ten.
  destruct Hinv1 as ([? _] & _). lia.
Qed.

Lemma run_frames_step (frames : list (list Sim.Event)) :
  ∀ m m',
    main_invariant m → Sim.run_frames m frames = Some m' → main_invariant m'.
Proof.
  induction frames as [|events frames IH]; intros m m' Hinv Hrun;
    cbn [Sim.run_frames] in Hrun; [by simplify_eq|].
  destruct (Sim.running m); [|by simplify_eq].
  apply bind_Some in Hrun as (m1 & Hframe & Hrest).
  destruct (frame_step m events m1 Hinv Hframe) as [Hinv1 _].
  by eapply IH.
Qed.

Lemma run_frames_total (frames : list (list Sim.Event)) :
  ∀ m,
    main_invariant m →
    (Sim.current_color_scheme m + Z.of_nat (colour_changes frames) < 10)%Z →
    is_Some (Sim.run_frames m frames).
Proof.
  induction frames as [|events frames IH]; intros m Hinv Hfew;
    cbn [Sim.run_frames]; [done|].
  destruct (Sim.running m); [|done].
  rewrite colour_changes_cons in Hfew.
  destruct (frame_total m events Hinv) as [m1 Hframe]; [lia|].
  rewrite Hframe. cbn [mbind option_bind].
  destruct (frame_step m events m1 Hinv Hframe) as [Hinv1 Hcol].
  apply IH; [done|]. lia.
Qed.

Lemma main_reachable_invariant (m : Sim.Main) :
  main_reachable m → main_invariant m.
Proof.
  induction 1 as [r|m event m' _ IH Hevent|m m' _ IH Hframe].
  - apply main_init_invariant.
  - by destruct (handle_event_step m event m' IH Hevent).
  - by destruct (advance_frame_step m m' IH Hframe).
Qed.

(** X20: main keeps its variables consistent, and does not fail before the
    tenth change of colour. Whenever a sequence of passes from the entry of
    the loop returns, the colour index names one of the 32 schemes, there
    is at most one tree, well shaped and rooted at depth 1, a tree that is
    being grown frame by frame is in fast mode, an instantly grown tree is
    paused, and a growing tree with MAX_BRANCH_ENDS branch ends or more is
    paused. With fewer than ten events that can change the colour (space
    keys and clicks inside button 2) the passes do return: the schemes up
    to the tenth give valid colours at every depth, so no
    pygame.draw.line raises. *)
Theorem main_keeps_invariant (r : Rand.Rng) (frames : list (list Sim.Event)) :
  (∀ m, Sim.run_frames (Sim.main_init r) frames = Some m → main_invariant m)
  ∧ ((colour_changes frames < 10)%nat →
     ∃ m,
       Sim.run_frames (Sim.main_init r) frames = Some m ∧ main_invariant m).
Proof.
  split.
  - intros m. apply run_frames_step, main_init_invariant.
  - intros Hfew.
    destruct (run_frames_total frames (Sim.main_init r)) as [m Hrun].
    + apply main_init_invariant.
    + cbn. lia.
    + exists m. split; [done|].
      eapply run_frames_step; [apply main_init_invariant|exact Hrun].
Qed.

Lemma main_keeps_invariant_witness :
  ∃ m,
    Sim.run_frames (Sim.main_init zero_rng)
      [[Sim.MOUSEBUTTONDOWN (460, 30)%Z]; [Sim.KEYDOWN true];
       [Sim.MOUSEBUTTONDOWN (400, 30)%Z]; []] = Some m
    ∧ main_invariant m.
Proof.
  destruct (main_keeps_invariant zero_rng
              [[Sim.MOUSEBUTTONDOWN (460, 30)%Z]; [Sim.KEYDOWN true];
               [Sim.MOUSEBUTTONDOWN (400, 30)%Z]; []]) as [_ Htotal].
  apply Htotal. vm_compute. lia.
Defined.

(** X21: the normal growth rate never grows a tree. In a state main can
    reach, when the rest of a pass returns it has added one to the frame
    count, and if it has changed the branches or drawn from the random
    generator, then the tree is growing, not paused and in fast mode, and
    the frame count is even: the branches are never updated at the rate of
    GROW_EVERY_N_FRAMES. The rest of the pass does return when the current
    scheme is not one of arctic, tropical, mountain and silver. *)
Theorem main_grows_on_even_frames (m : Sim.Main) :
  main_reachable m →
  (safe_colour (Sim.current_color_scheme m) →
   is_Some (Sim.advance_frame m))
  ∧ ∀ m',
      Sim.advance_frame m = Some m' →
      Sim.frame_count m' = (Sim.frame_count m + 1)%Z
      ∧ (Sim.branches m' ≠ Sim.branches m
         ∨ Sim.generator m' ≠ Sim.generator m →
         Sim.growing m = true ∧ Sim.paused m = false
         ∧ Sim.fast_grow_mode m = true
         ∧ (Sim.frame_count m mod 2 = 0)%Z).
Proof.
  intros Hinv%main_reachable_invariant. split.
  - by apply advance_frame_total.
  - intros m' Hrun.
    by destruct (advance_frame_step m m' Hinv Hrun)
      as (_ & _ & ? & _ & _ & _ & ?).
Qed.

Lemma fast_start_reachable :
  main_reachable
    (Sim.mkMain true true false Sim.new_tree 0 0 false true zero_rng).
Proof.
  apply (main_reach_event (Sim.main_init zero_rng)
           (Sim.MOUSEBUTTONDOWN (460, 30)%Z)); [apply main_reach_init|].
  assert (H1 : Sim.is_button_clicked (460, 30)%Z Sim.BUTTON1_X Sim.BUTTON_Y
                 Sim.BUTTON_RADIUS = false).
  { apply not_true_is_false. rewrite is_button_clicked_inside. button_arith. }
  assert (H2 : Sim.is_button_clicked (460, 30)%Z Sim.BUTTON2_X Sim.BUTTON_Y
                 Sim.BUTTON_RADIUS = false).
  { apply not_true_is_false. rewrite is_button_clicked_inside. button_arith. }
  assert (H3 : Sim.is_button_clicked (460, 30)%Z Sim.BUTTON3_X Sim.BUTTON_Y
                 Sim.BUTTON_RADIUS = true).
  { apply is_button_clicked_inside. button_arith. }
  cbn [Sim.handle_event]. rewrite H1, H2, H3. reflexivity.
Defined.

Lemma main_grows_on_even_frames_witness :
  ∃ m',
    Sim.advance_frame
      (Sim.mkMain true true false Sim.new_tree 0 0 false true zero_rng)
    = Some m'
    ∧ Sim.frame_count m' = (0 + 1)%Z.
Proof.
  destruct (main_grows_on_even_frames
              (Sim.mkMain true true false Sim.new_tree 0 0 false true
                 zero_rng) fast_start_reachable) as [Htotal Hstep].
  destruct Htotal as [m' Hrun].
  { apply safe_colour_below_ten. cbn. lia. }
  exists m'. split; [exact Hrun|]. by destruct (Hstep m' Hrun).
Defined.

Lemma frame_idle (m : Sim.Main) (events : list Sim.Event) (m' : Sim.Main) :
  main_invariant m → idle m → Forall keeps_tree events →
  Sim.frame m events = Some m' →
  idle m' ∧ Sim.branches m' = Sim.branches m
  ∧ Sim.generator m' = Sim.generator m.
Proof.
  intros Hinv Hidle Hevents Hrun. unfold Sim.frame in Hrun.
  apply bind_Some in Hrun as (m1 & Hhandled & Hrest).
  assert (Hkept : main_invariant m1 ∧ idle m1
                  ∧ Sim.branches m1 = Sim.branches m
                  ∧ Sim.generator m1 = Sim.generator m).
  { clear Hrest. revert m Hinv Hidle Hhandled.
    induction Hevents as [|event events Hevent _ IH];
      intros m Hinv Hidle Hhandled; cbn [Sim.handle_events] in Hhandled;
      [by simplify_eq|].
    apply bind_Some in Hhandled as (m0 & Hm0 & Hrest).
    destruct (handle_event_keeps_tree m event m0 Hevent Hm0)
      as (Hb & Hg & Hp & Hr).
    destruct (handle_event_step m event m0 Hinv Hm0) as [Hinv0 _].
    destruct (IH m0) as (? & ? & ? & ?); [done| |done|].
    - unfold idle in *. by rewrite Hg, Hp.
    - split_and!; try done; congruence. }
  destruct Hkept as (Hinv1 & Hidle1 & Hb & Hr).
  destruct (advance_frame_step m1 m' Hinv1 Hrest)
    as (_ & _ & _ & Hp & Hg & Hsame & _).
  destruct (Hsame Hidle1) as [Hb' Hr'].
  split; [|split; congruence].
  destruct Hidle1 as [?|?]; [left; by apply Hp|right; by apply Hg].
Qed.

(** X22: a paused or finished tree is kept. From a state main can reach in
    which it is paused or not growing, whenever passes whose events are
    anything but clicks inside button 1 or button 3 return, they have left
    the branches and the random generator as they were and are paused or
    not growing again: the pause at MAX_BRANCH_ENDS and the pause after an
    instant growth end only with a new tree. The passes do return when the
    colour index and the number of events that can change the colour stay
    below ten together. *)
Theorem idle_tree_is_kept (m : Sim.Main) (frames : list (list Sim.Event)) :
  main_reachable m → idle m → Forall (Forall keeps_tree) frames →
  ((Sim.current_color_scheme m + Z.of_nat (colour_changes frames) < 10)%Z →
   is_Some (Sim.run_frames m frames))
  ∧ ∀ m',
      Sim.run_frames m frames = Some m' →
      idle m' ∧ Sim.branches m' = Sim.branches m
      ∧ Sim.generator m' = Sim.generator m.
Proof.
  intros Hinv%main_reachable_invariant Hidle Hframes. split.
  - by apply run_frames_total.
  - revert m Hinv Hidle.
    induction Hframes as [|events frames Hevents _ IH];
      intros m Hinv Hidle m' Hrun;
      cbn [Sim.run_frames] in Hrun; [by simplify_eq|].
    destruct (Sim.running m); [|by simplify_eq].
    apply bind_Some in Hrun as (m1 & Hframe & Hrest).
    destruct (frame_idle m events m1 Hinv Hidle Hevents Hframe)
      as (Hidle1 & Hb & Hr).
    destruct (frame_step m events m1 Hinv Hframe) as [Hinv1 _].
    destruct (IH m1 Hinv1 Hidle1 m' Hrest) as (? & ? & ?).
    split; [done|]. split; congruence.
Qed.

Lemma idle_tree_is_kept_witness :
  ∃ m,
    Sim.handle_event (Sim.main_init zero_rng)
      (Sim.MOUSEBUTTONDOWN (340, 30)%Z) = Some m
    ∧ Sim.paused m = true ∧ Sim.branches m ≠ []
    ∧ ∃ m',
        Sim.run_frames m
          [[Sim.KEYDOWN true; Sim.MOUSEBUTTONDOWN (400, 30)%Z]; [Sim.QUIT]]
        = Some m'
        ∧ Sim.branches m' = Sim.branches m.
Proof.
  destruct (instant_grow_new_tree zero_rng) as (b & r' & Hgrow & _).
  assert (Hclick : Sim.handle_event (Sim.main_init zero_rng)
                     (Sim.MOUSEBUTTONDOWN (340, 30)%Z)
                   = Some (Sim.mkMain true true true [b] 0 0 true false r')).
  { assert (H1 : Sim.is_button_clicked (340, 30)%Z Sim.BUTTON1_X Sim.BUTTON_Y
                   Sim.BUTTON_RADIUS = true).
    { apply is_button_clicked_inside. button_arith. }
    cbn [Sim.handle_event]. rewrite H1. cbn [Sim.generator Sim.main_init].
    by rewrite Hgrow. }
  exists (Sim.mkMain true true true [b] 0 0 true false r').
  split; [exact Hclick|]. split; [done|]. split; [done|].
  destruct (idle_tree_is_kept (Sim.mkMain true true true [b] 0 0 true false r')
              [[Sim.KEYDOWN true; Sim.MOUSEBUTTONDOWN (400, 30)%Z]; [Sim.QUIT]])
    as [Htotal Hkept].
  - eapply main_reach_event; [apply main_reach_init|exact Hclick].
  - by left.
  - apply Forall_cons_2; [|apply Forall_cons_2; [|apply Forall_nil_2]].
    + apply Forall_cons_2; [exact I|].
      apply Forall_cons_2; [|apply Forall_nil_2].
      split; button_arith.
    + apply Forall_cons_2; [exact I|apply Forall_nil_2].
  - destruct Htotal as [m' Hrun]; [vm_compute; reflexivity|].
    exists m'. split; [exact Hrun|]. by destruct (Hkept m' Hrun) as (_ & ? & _).
Defined.

(** X23: what a click does. The discs of the three buttons do not overlap,
    so a click is inside at most one of them. Inside button 1 it replaces
    the tree by one instantly grown from a fresh root, whose branches all
    have their full length, and leaves main paused in instant mode with the
    frame count 0; inside button 2 it only moves the colour index to the
    next scheme; inside button 3 it replaces the tree by a fresh root, not
    paused, in fast mode, with the frame count 0; anywhere else it changes
    nothing. *)
Theorem click_effect (m : Sim.Main) (mouse_pos : Z * Z) :
  (inside_button mouse_pos Sim.BUTTON1_X →
   ∃ b r',
     Sim.handle_event m (Sim.MOUSEBUTTONDOWN mouse_pos) =
       Some (Sim.mkMain (Sim.running m) true true [b] 0
               (Sim.current_color_scheme m) true false r')
     ∧ Sim.instant_grow_all_branches Sim.new_tree (Sim.generator m)
       = Some ([b], r')
     ∧ all_branches instantly_grown b
     ∧ Forall2 same_geometry Sim.new_tree [b])
  ∧ (inside_button mouse_pos Sim.BUTTON2_X →
     Sim.handle_event m (Sim.MOUSEBUTTONDOWN mouse_pos) =
       Some (Sim.mkMain (Sim.running m) (Sim.growing m) (Sim.paused m)
               (Sim.branches m) (Sim.frame_count m)
               (Sim.next_color_scheme (Sim.current_color_scheme m))
               (Sim.instant_grow_mode m) (Sim.fast_grow_mode m)
               (Sim.generator m)))
  ∧ (inside_button mouse_pos Sim.BUTTON3_X →
     Sim.handle_event m (Sim.MOUSEBUTTONDOWN mouse_pos) =
       Some (Sim.mkMain (Sim.running m) true false Sim.new_tree 0
               (Sim.current_color_scheme m) false true (Sim.generator m)))
  ∧ (¬ inside_button mouse_pos Sim.BUTTON1_X →
     ¬ inside_button mouse_pos Sim.BUTTON2_X →
     ¬ inside_button mouse_pos Sim.BUTTON3_X →
     Sim.handle_event m (Sim.MOUSEBUTTONDOWN mouse_pos) = Some m).
Proof.
  destruct (buttons_disjoint mouse_pos) as (H12 & H13 & H23).
  cbn [Sim.handle_event]. split_and!.
  - intros H1. apply is_button_clicked_inside in H1. rewrite H1.
    destruct (instant_grow_new_tree (Sim.generator m))
      as (b & r' & Hgrow & Hshape & Hgeom & _).
    exists b, r'. by rewrite Hgrow.
  - intros H2. assert (H1 : ¬ inside_button mouse_pos Sim.BUTTON1_X) by tauto.
    rewrite <- is_button_clicked_inside in H1, H2.
    apply not_true_is_false in H1. by rewrite H1, H2.
  - intros H3. assert (H1 : ¬ inside_button mouse_pos Sim.BUTTON1_X) by tauto.
    assert (H2 : ¬ inside_button mouse_pos Sim.BUTTON2_X) by tauto.
    rewrite <- is_button_clicked_inside in H1, H2, H3.
    apply not_true_is_false in H1, H2. by rewrite H1, H2, H3.
  - intros H1 H2 H3. rewrite <- is_button_clicked_inside in H1, H2, H3.
    apply not_true_is_false in H1, H2, H3. by rewrite H1, H2, H3.
Qed.

Lemma click_effect_witness :
  Sim.handle_event (Sim.main_init zero_rng) (Sim.MOUSEBUTTONDOWN (455, 35)%Z)
  = Some (Sim.mkMain true true false Sim.new_tree 0 0 false true zero_rng)
  ∧ Sim.handle_event (Sim.main_init zero_rng)
      (Sim.MOUSEBUTTONDOWN (370, 30)%Z)
    = Some (Sim.main_init zero_rng).
Proof.
  destruct (click_effect (Sim.main_init zero_rng) (455, 35)%Z)
    as (_ & _ & H3 & _).
  destruct (click_effect (Sim.main_init zero_rng) (370, 30)%Z)
    as (_ & _ & _ & Hnone).
  split.
  - apply H3. button_arith.
  - apply Hnone; button_arith.
Defined.


(** ** A pass that fails *)







